(** * saneechka/serializer: the hand-written JSON and TOML codecs

    A shallow embedding of the two codecs (each with its lexer, its
    recursive-descent parser, its reflective encoder and decoder),
    followed by the properties of the specification that were checked
    against it (C1 to C10) and by further properties of the code
    (X1 to X22).

    Conventions.
    - A Go [string] or [[]byte] is a [string] of 8-bit characters; indices
      are byte offsets.
    - [reflect.Value] is a pair of a type descriptor [gtype] and a value
      tree [nval]. Types are structural: declared type names and
      recursive types are not represented. In a tree a pointer owns its
      pointee (no two ways to one variable); destinations in which a
      pointer holds the address of a variable that is reached another
      way are variables of a store, see [hval] and [setValue_at].
    - [int] and [uint] are 64 bits wide.
    - A call ends in one of four ways, see [result] and [decoded]: a
      value, an [error] value, a run-time panic, or, for the parsers,
      which recurse on fuel, no fuel; [JSON_Unmarshal_returns] and
      [TOML_Unmarshal_returns] show that the fuel the entry points start
      with is never used up.
    - Go's [map] iteration order is unspecified; tables are association
      lists walked in insertion order.
    - [strconv], [strings] and [unicode] are modelled in [Go]; the [time]
      functions and [reflect.Type.String] are parameters of the TOML
      codec. *)

From Stdlib Require Import Bool Arith ZArith Lia List String Ascii.
From Stdlib Require Import DecimalString SpecFloat.
From Stdlib Require DecimalPos.
Import ListNotations.

Set Warnings "-register-all".

Local Open Scope list_scope.
Local Open Scope string_scope.
Local Open Scope nat_scope.

(* ================================================================= *)
(** ** Bytes and strings as Go sees them *)

Module Go.

Definition byte := ascii.

Definition c_quote : byte := "034"%char.
Definition c_backslash : byte := "\"%char.
Definition c_newline : byte := "010"%char.
Definition c_return : byte := "013"%char.
Definition c_tab : byte := "009"%char.

Definition code (c : byte) : nat := nat_of_ascii c.

(** [unicode.IsDigit(rune(c))] for a byte [c]: below U+0100 only the ASCII
    digits are decimal digits. *)
Definition IsDigit (c : byte) : bool :=
  (48 <=? code c) && (code c <=? 57).

(** [unicode.IsSpace(rune(c))] for a byte [c]: in Latin-1 the white space
    is tab, newline, vertical tab, form feed, carriage return, space,
    U+0085 (NEL) and U+00A0 (NBSP). *)
Definition IsSpace (c : byte) : bool :=
  let n := code c in
  ((9 <=? n) && (n <=? 13)) || (n =? 32) || (n =? 133) || (n =? 160).

Definition len (s : string) : nat := String.length s.

(** [s[i]], [None] standing for the index-out-of-range panic. *)
Definition at_ (s : string) (i : nat) : option byte := String.get i s.

(** [s[lo:hi]] for [lo <= hi <= len s]. *)
Definition slice (s : string) (lo hi : nat) : string :=
  String.substring lo (hi - lo) s.

Definition str1 (c : byte) : string := String c EmptyString.

(** [strings.Contains(s, string(c))] for a one-byte needle. *)
Fixpoint contains_byte (c : byte) (s : string) : bool :=
  match s with
  | EmptyString => false
  | String d s' => Ascii.eqb c d || contains_byte c s'
  end.

(** [strings.ReplaceAll(s, string(c), by)] for a one-byte pattern. *)
Fixpoint ReplaceAll (s : string) (c : byte) (by_ : string) : string :=
  match s with
  | EmptyString => EmptyString
  | String d s' =>
      if Ascii.eqb d c then by_ ++ ReplaceAll s' c by_
      else String d (ReplaceAll s' c by_)
  end.

(** [strings.Split(s, ",")[0]]: the text before the first comma. *)
Fixpoint before_comma (s : string) : string :=
  match s with
  | EmptyString => EmptyString
  | String c s' => if Ascii.eqb c ","%char then EmptyString
                   else String c (before_comma s')
  end.

(** [strings.Join(xs, sep)]. *)
Fixpoint Join (xs : list string) (sep : string) : string :=
  match xs with
  | [] => ""
  | [x] => x
  | x :: rest => x ++ sep ++ Join rest sep
  end.

(* ----------------------------------------------------------------- *)
(** *** [strconv]: integers *)

Definition digit_val (c : byte) : Z := Z.of_nat (code c) - 48.

(** The value of a non-empty all-digit string, most significant first. *)
Fixpoint digits_acc (s : string) (acc : Z) : option Z :=
  match s with
  | EmptyString => Some acc
  | String c s' =>
      if IsDigit c then digits_acc s' (10 * acc + digit_val c)%Z else None
  end.

Definition digits (s : string) : option Z :=
  match s with
  | EmptyString => None
  | _ => digits_acc s 0
  end.

Definition int64_min : Z := (- 2 ^ 63)%Z.
Definition int64_max : Z := (2 ^ 63 - 1)%Z.

(** [strconv.ParseInt(s, 10, 64)]; [None] is any non-nil error (syntax or
    range), which is all the callers look at. *)
Definition ParseInt (s : string) : option Z :=
  match s with
  | EmptyString => None
  | String c rest =>
      let '(neg, body) :=
        if Ascii.eqb c "+"%char then (false, rest)
        else if Ascii.eqb c "-"%char then (true, rest)
        else (false, s) in
      match digits body with
      | None => None
      | Some un =>
          if neg then (if (un <=? 2 ^ 63)%Z then Some (- un)%Z else None)
          else (if (un <? 2 ^ 63)%Z then Some un else None)
      end
  end.

(** [strconv.FormatInt(z, 10)] and [strconv.FormatUint(z, 10)]. *)
Definition FormatInt (z : Z) : string := NilZero.string_of_int (Z.to_int z).
Definition FormatUint (z : Z) : string := NilZero.string_of_int (Z.to_int z).

Definition FormatBool (b : bool) : string := if b then "true" else "false".

(** Two's-complement wrap-around to [w] bits, signed and unsigned: what
    [reflect.Value.SetInt] and [SetUint] keep of a 64-bit argument. *)
Definition wrap_unsigned (w : Z) (z : Z) : Z := (z mod 2 ^ w)%Z.
Definition wrap_signed (w : Z) (z : Z) : Z :=
  let u := wrap_unsigned w z in
  if (u <? 2 ^ (w - 1))%Z then u else (u - 2 ^ w)%Z.

(* ----------------------------------------------------------------- *)
(** *** [float64] and [strconv]: floating point

    A [float64] is an IEEE 754 binary64 number in the Standard Library's
    specification format ([spec_float], no NaN payload). *)

Definition float64 := spec_float.
Definition prec64 : Z := 53.
Definition emax64 : Z := 1024.

Definition float_zero : float64 := S754_zero false.

(** The nearest binary64 (ties to even) of [m * 10 ^ e10] for [m > 0],
    signed by [neg]; an infinity when the magnitude overflows. *)
Definition round_decimal (neg : bool) (m : positive) (e10 : Z) : float64 :=
  match e10 with
  | Zneg k =>
      let den := Z.pow_pos 10 k in
      let s := Z.max 0 (Zdigits2 den - Zdigits2 (Zpos m) + prec64 + 3) in
      let num := Z.shiftl (Zpos m) s in
      let q := (num / den)%Z in
      let r := (num mod den)%Z in
      let loc := if (r =? 0)%Z then loc_Exact
                 else loc_Inexact (Z.compare (2 * r) den) in
      binary_round_aux prec64 emax64 neg q (- s) loc
  | _ =>
      binary_normalize prec64 emax64
        (if neg then - (Zpos m * 10 ^ e10) else Zpos m * 10 ^ e10)%Z 0 neg
  end.

(** The mantissa of a decimal literal: digits around at most one point.
    Returns the digits read as an integer, the number of them after the
    point, whether any digit was seen, and the unread rest. *)
Fixpoint read_mantissa (s : string) (sawdot sawdigits : bool) (mant frac : Z)
  : Z * Z * bool * string :=
  match s with
  | EmptyString => (mant, frac, sawdigits, s)
  | String c s' =>
      if Ascii.eqb c "."%char then
        if sawdot then (mant, frac, sawdigits, s)
        else read_mantissa s' true sawdigits mant frac
      else if IsDigit c then
        read_mantissa s' sawdot true (10 * mant + digit_val c)%Z
                      (if sawdot then frac + 1 else frac)%Z
      else (mant, frac, sawdigits, s)
  end.

(** The optional exponent part [e], [E] with an optional sign and at
    least one digit; [None] when it is malformed or text is left over. *)
Definition read_exponent (s : string) : option Z :=
  match s with
  | EmptyString => Some 0%Z
  | String c s' =>
      if Ascii.eqb c "e"%char || Ascii.eqb c "E"%char then
        match s' with
        | EmptyString => None
        | String d s'' =>
            if Ascii.eqb d "+"%char then digits s''
            else if Ascii.eqb d "-"%char then option_map Z.opp (digits s'')
            else digits s'
        end
      else None
  end.

(** [strconv.ParseFloat(s, 64)] on decimal literals (the lexers' number
    tokens hold only digits, [.], [-], [+], [e] and [E], so neither the
    hexadecimal nor the [Inf]/[NaN] forms can reach it); [None] is any
    non-nil error: malformed text, or a magnitude that overflows. *)
Definition ParseFloat (s : string) : option float64 :=
  let '(neg, body) :=
    match s with
    | String c rest =>
        if Ascii.eqb c "+"%char then (false, rest)
        else if Ascii.eqb c "-"%char then (true, rest)
        else (false, s)
    | EmptyString => (false, s)
    end in
  let '(mant, frac, sawdigits, rest) := read_mantissa body false false 0%Z 0%Z in
  if negb sawdigits then None
  else
    match read_exponent rest with
    | None => None
    | Some e =>
        match mant with
        | Zpos m =>
            let e10 := (e - frac)%Z in
            let nd := Z.of_nat (String.length (NilZero.string_of_int (Z.to_int mant))) in
            if (310 <? e10 + nd)%Z then None
            else if (e10 + nd <? -330)%Z then Some (S754_zero neg)
            else
              match round_decimal neg m e10 with
              | S754_infinity _ => None
              | f => Some f
              end
        | _ => Some (S754_zero neg)
        end
    end.

(** The integer part of a finite float, rounded toward zero. *)
Definition float_trunc (f : float64) : option Z :=
  match f with
  | S754_zero _ => Some 0%Z
  | S754_finite s m e =>
      let a := match e with
               | Zneg k => (Zpos m / Z.pow_pos 2 k)%Z
               | _ => (Zpos m * 2 ^ e)%Z
               end in
      Some (if s then - a else a)%Z
  | _ => None
  end.

(** The conversion [int64(f)]. The language leaves the result open when
    the truncated value does not fit; amd64 yields the minimum [int64]
    ("integer indefinite"), which is what is modelled. *)
Definition int64_of_float (f : float64) : Z :=
  match float_trunc f with
  | Some t => if (int64_min <=? t)%Z && (t <=? int64_max)%Z then t else int64_min
  | None => int64_min
  end.

(** The conversion [uint64(f)], as compiled for amd64: below [2^63]
    through the signed conversion, above it by an offset of [2^63]. *)
Definition uint64_of_float (f : float64) : Z :=
  match float_trunc f with
  | Some t =>
      if (t <? 2 ^ 63)%Z then wrap_unsigned 64 (int64_of_float f)
      else if (t <? 2 ^ 64)%Z then t
      else (2 ^ 63)%Z
  | None => (2 ^ 63)%Z
  end.

(** [float64(float32(f))]: what a [Float32] destination keeps of [f]. *)
Definition round_float32 (f : float64) : float64 :=
  match f with
  | S754_finite s m e =>
      match binary_round 24 128 s m e with
      | S754_finite s' m' e' => binary_round prec64 emax64 s' m' e'
      | g => g
      end
  | _ => f
  end.

(** The exact value of a positive finite binary float as a fraction. *)
Definition float_fraction (m : positive) (e : Z) : Z * Z :=
  match e with
  | Zneg k => (Zpos m, Z.pow_pos 2 k)
  | _ => (Zpos m * 2 ^ e, 1)%Z
  end.

Definition decimal_length (z : Z) : Z :=
  Z.of_nat (String.length (NilZero.string_of_int (Z.to_int z))).

(** [floor (num / den * 10 ^ (- k))]. *)
Definition scaled_floor (num den k : Z) : Z :=
  match k with
  | Zneg p => (num * Z.pow_pos 10 p / den)%Z
  | _ => (num / (den * 10 ^ k))%Z
  end.

(** Is [num / den * 10 ^ (- k)] an integer? *)
Definition scaled_exact (num den k : Z) : bool :=
  match k with
  | Zneg p => (num * Z.pow_pos 10 p mod den =? 0)%Z
  | _ => (num mod (den * 10 ^ k) =? 0)%Z
  end.

(** The decimal exponent [K] with [10 ^ (K - 1) <= num / den < 10 ^ K]. *)
Definition decimal_exponent (num den : Z) : Z :=
  let k0 := ((Zdigits2 num - Zdigits2 den) * 30103 / 100000)%Z in
  let q := scaled_floor num den (k0 - 20) in
  (decimal_length q + (k0 - 20))%Z.

Definition Zpos_or_one (z : Z) : positive :=
  match z with Zpos p => p | _ => 1%positive end.

(** Does the decimal [c * 10 ^ k] read back as the float [f]? *)
Definition reads_back (f : float64) (c k : Z) : bool :=
  match f, round_decimal false (Zpos_or_one c) k with
  | S754_finite _ m e, S754_finite _ m' e' => Pos.eqb m m' && Z.eqb e e'
  | _, _ => false
  end.

(** The shortest decimal [(c, k)], meaning [c * 10 ^ k], that reads back
    as the positive float [m * 2 ^ e] and, among those of that length,
    the nearest to it: tried with [n], [n+1], ... significant digits. *)
Fixpoint shortest_from (fuel : nat) (n : Z) (m : positive) (e : Z) : Z * Z :=
  let f := S754_finite false m e in
  let '(num, den) := float_fraction m e in
  let k := (decimal_exponent num den - n)%Z in
  let lo := scaled_floor num den k in
  let hi := (lo + 1)%Z in
  let ok_lo := (0 <? lo)%Z && reads_back f lo k in
  let ok_hi := reads_back f hi k in
  (* 2 * (x / 10^k) compared with lo + hi *)
  let twice := scaled_floor (2 * num) den k in
  let exact := scaled_exact (2 * num) den k in
  let nearer_hi :=
    if (lo + hi <? twice)%Z then true
    else if (lo + hi =? twice)%Z then (if exact then Z.odd lo else true)
    else false in
  match fuel with
  | O => (lo, k)
  | S fuel' =>
      if ok_lo && ok_hi then (if nearer_hi then (hi, k) else (lo, k))
      else if ok_lo then (lo, k)
      else if ok_hi then (hi, k)
      else shortest_from fuel' (n + 1)%Z m e
  end.

Definition shortest (m : positive) (e : Z) : Z * Z :=
  shortest_from 17 1%Z m e.

Fixpoint zeros (n : nat) : string :=
  match n with O => "" | S n' => String "0"%char (zeros n') end.

(** Fixed-point notation of [c * 10 ^ k] with no trailing zero after the
    point and no point when nothing follows it. *)
Fixpoint strip_zeros (fuel : nat) (c k : Z) : Z * Z :=
  match fuel with
  | O => (c, k)
  | S fuel' =>
      if (k <? 0)%Z && (c mod 10 =? 0)%Z && negb (c =? 0)%Z
      then strip_zeros fuel' (c / 10)%Z (k + 1)%Z
      else (c, k)
  end.

Definition fixed_point (c k : Z) : string :=
  let '(c, k) := strip_zeros 20 c k in
  let ds := NilZero.string_of_int (Z.to_int c) in
  match k with
  | Zneg p =>
      let nfrac := Pos.to_nat p in
      let nd := String.length ds in
      if nd <=? nfrac
      then "0." ++ zeros (nfrac - nd) ++ ds
      else String.substring 0 (nd - nfrac) ds ++ "."
           ++ String.substring (nd - nfrac) nfrac ds
  | _ => ds ++ zeros (Z.to_nat k)
  end.

(** [strconv.FormatFloat(f, 'f', -1, 64)]. *)
Definition FormatFloat (f : float64) : string :=
  match f with
  | S754_zero s => if s then "-0" else "0"
  | S754_infinity s => if s then "-Inf" else "+Inf"
  | S754_nan => "NaN"
  | S754_finite s m e =>
      let '(c, k) := shortest m e in
      (if s then "-" else "") ++ fixed_point c k
  end.

End Go.

(* ================================================================= *)
(** ** Native data as [reflect] shows it *)

(** [time.Time]: an instant (seconds and nanoseconds since the Unix
    epoch) and the zone offset it is shown in. *)
Record time_Time : Type := mkTime { t_sec : Z; t_nsec : Z; t_offset : Z }.

(** [time.Time{}]: January 1, year 1, 00:00:00 UTC. *)
Definition time_zero : time_Time := mkTime (-62135596800) 0 0.

Inductive int_kind := KInt | KInt8 | KInt16 | KInt32 | KInt64.
Inductive uint_kind := KUint | KUint8 | KUint16 | KUint32 | KUint64.
Inductive float_kind := KFloat32 | KFloat64.

(** Kinds for which neither codec has a rule. *)
Inductive other_kind :=
  KUintptr | KComplex64 | KComplex128 | KChan | KFunc | KUnsafePointer.

(** An interface type: the empty interface holds anything; one with
    methods holds none of the parsers' values except, possibly, a
    [time.Time]. *)
Inductive iface := IEmpty | IMethods (time_implements : bool).

Definition int_bits (k : int_kind) : Z :=
  match k with
  | KInt8 => 8 | KInt16 => 16 | KInt32 => 32 | KInt | KInt64 => 64
  end.
Definition uint_bits (k : uint_kind) : Z :=
  match k with
  | KUint8 => 8 | KUint16 => 16 | KUint32 => 32 | KUint | KUint64 => 64
  end.

(** [reflect.StructField]: the declared name, whether it is exported,
    and the tag as the key/value pairs [Tag.Get] reads. *)
Record StructField : Type := mkField {
  Name : string;
  Exported : bool;
  Tag : list (string * string)
}.

Definition Tag_Get (f : StructField) (key : string) : string :=
  match find (fun kv => String.eqb (fst kv) key) (Tag f) with
  | Some kv => snd kv
  | None => ""
  end.

(** [reflect.Type], structurally. *)
Inductive gtype : Type :=
| TString
| TInt (k : int_kind)
| TUint (k : uint_kind)
| TFloat (k : float_kind)
| TBool
| TSlice (elem : gtype)
| TArray (n : nat) (elem : gtype)
| TMap (key elem : gtype)
| TStruct (fields : list (StructField * gtype))
| TTime
| TPtr (elem : gtype)
| TInterface (i : iface)
| TOther (k : other_kind).

(** Induction on types that reaches the field types of a struct. *)
Section gtype_induction.
Variable P : gtype -> Prop.
Hypothesis HString : P TString.
Hypothesis HInt : forall k, P (TInt k).
Hypothesis HUint : forall k, P (TUint k).
Hypothesis HFloat : forall k, P (TFloat k).
Hypothesis HBool : P TBool.
Hypothesis HSlice : forall elem, P elem -> P (TSlice elem).
Hypothesis HArray : forall n elem, P elem -> P (TArray n elem).
Hypothesis HMap : forall key elem, P key -> P elem -> P (TMap key elem).
Hypothesis HStruct : forall fields,
  Forall (fun ft => P (snd ft)) fields -> P (TStruct fields).
Hypothesis HTime : P TTime.
Hypothesis HPtr : forall elem, P elem -> P (TPtr elem).
Hypothesis HInterface : forall i, P (TInterface i).
Hypothesis HOther : forall k, P (TOther k).

Fixpoint gtype_nested_ind (t : gtype) : P t :=
  match t with
  | TString => HString
  | TInt k => HInt k
  | TUint k => HUint k
  | TFloat k => HFloat k
  | TBool => HBool
  | TSlice elem => HSlice elem (gtype_nested_ind elem)
  | TArray n elem => HArray n elem (gtype_nested_ind elem)
  | TMap key elem => HMap key elem (gtype_nested_ind key) (gtype_nested_ind elem)
  | TStruct fields =>
      HStruct fields
        ((fix each (fs : list (StructField * gtype))
            : Forall (fun ft => P (snd ft)) fs :=
            match fs with
            | [] => Forall_nil _
            | ft :: rest => Forall_cons ft (gtype_nested_ind (snd ft)) (each rest)
            end) fields)
  | TTime => HTime
  | TPtr elem => HPtr elem (gtype_nested_ind elem)
  | TInterface i => HInterface i
  | TOther k => HOther k
  end.
End gtype_induction.

(** The value a [reflect.Value] of some type holds. A nil slice, map,
    pointer or interface is [None]; an interface holds its dynamic type
    with its value. *)
Inductive nval : Type :=
| NString (s : string)
| NInt (z : Z)
| NUint (z : Z)
| NFloat (f : Go.float64)
| NBool (b : bool)
| NSlice (xs : option (list nval))
| NArray (xs : list nval)
| NMap (m : option (list (nval * nval)))
| NStruct (fs : list nval)
| NTime (t : time_Time)
| NPtr (p : option nval)
| NIface (d : option (gtype * nval))
| NOpaque.

(** A Go [any]: nil, or a dynamic type with its value. *)
Definition any : Type := option (gtype * nval).

(** [reflect.Kind]. *)
Inductive Kind :=
| Invalid | Bool | Int (k : int_kind) | Uint (k : uint_kind)
| Float (k : float_kind) | String_ | Slice | Array | Map | Struct
| Ptr | Interface | Other (k : other_kind).

Definition kind_of (t : gtype) : Kind :=
  match t with
  | TString => String_
  | TInt k => Int k
  | TUint k => Uint k
  | TFloat k => Float k
  | TBool => Bool
  | TSlice _ => Slice
  | TArray _ _ => Array
  | TMap _ _ => Map
  | TStruct _ | TTime => Struct
  | TPtr _ => Ptr
  | TInterface _ => Interface
  | TOther k => Other k
  end.

(** [reflect.Zero(t)]. *)
Fixpoint zero (t : gtype) : nval :=
  match t with
  | TString => NString ""
  | TInt _ => NInt 0
  | TUint _ => NUint 0
  | TFloat _ => NFloat Go.float_zero
  | TBool => NBool false
  | TSlice _ => NSlice None
  | TArray n e => NArray (repeat (zero e) n)
  | TMap _ _ => NMap None
  | TStruct fs => NStruct (map (fun ft => zero (snd ft)) fs)
  | TTime => NTime time_zero
  | TPtr _ => NPtr None
  | TInterface _ => NIface None
  | TOther _ => NOpaque
  end.

(* ================================================================= *)
(** ** The generic value tree, errors and outcomes *)

(** What the parsers build: Go's [interface{}] restricted to the dynamic
    types they produce ([nil], [string], [int64], [float64], [bool],
    [[]interface{}], [map[string]interface{}], and [time.Time] for TOML). *)
Inductive Value : Type :=
| VNull
| VString (s : string)
| VInt (z : Z)
| VFloat (f : Go.float64)
| VBool (b : bool)
| VArray (xs : list Value)
| VTable (kvs : list (string * Value))
| VTime (t : time_Time).

Definition table : Type := list (string * Value).

(** [obj[key]] with the comma-ok form. *)
Fixpoint tbl_lookup (key : string) (obj : table) : option Value :=
  match obj with
  | [] => None
  | (k, v) :: rest => if String.eqb k key then Some v else tbl_lookup key rest
  end.

(** [obj[key] = v]. *)
Fixpoint tbl_insert (key : string) (v : Value) (obj : table) : table :=
  match obj with
  | [] => [(key, v)]
  | (k, w) :: rest =>
      if String.eqb k key then (k, v) :: rest
      else (k, w) :: tbl_insert key v rest
  end.

(** The error values the codecs build with [fmt.Errorf] or pass on. *)
Inductive error : Type :=
| SyntaxError (expected got : string)  (* a token where another was required *)
| NumError (text : string)             (* from strconv *)
| TimeError (text : string)            (* from time.Parse *)
| Redefined (path : string)            (* "cannot use %s as table" *)
| TypeMismatch (target : string)       (* "cannot convert %v to ..." *)
| UnsupportedType (k : Kind)           (* "unsupported type: %v" *)
| NotAPointer.                         (* "v must be a pointer" *)

(** Run-time faults that no caller of the codecs recovers from. *)
Inductive panic : Type :=
| SliceBoundsOutOfRange                (* s[:-1] *)
| InterfaceConversion                  (* x.(T) with x of another type, or nil *)
| IsNilOnArray                         (* reflect.Value.IsNil on an array *)
| NotAssignable.                       (* reflect.Value.Set, SetMapIndex *)

Inductive result (A : Type) : Type :=
| Ok (a : A)
| Err (e : error)
| Panic (p : panic)
| OutOfFuel.
Arguments Ok {A} a.
Arguments Err {A} e.
Arguments Panic {A} p.
Arguments OutOfFuel {A}.

Definition bind {A B} (r : result A) (k : A -> result B) : result B :=
  match r with
  | Ok a => k a
  | Err e => Err e
  | Panic p => Panic p
  | OutOfFuel => OutOfFuel
  end.

Notation "'do' x <- r ; k" := (bind r (fun x => k))
  (at level 10, x pattern, r at level 100, k at level 200).

(** How a decode ends: the destination as the call left it together with
    the returned error ([None] for nil), a panic, or no fuel. Decoding
    works in place, so a failed call can leave a half-written value. *)
Inductive decoded : Type :=
| Decoded (dst : nval) (err : option error)
| Panicked (p : panic)
| Diverged.

(** Continue with the destination a successful step left. *)
Definition and_then (d : decoded) (k : nval -> decoded) : decoded :=
  match d with
  | Decoded v None => k v
  | other => other
  end.

(** Rebuild the enclosing value around whatever a step left. *)
Definition inside (wrap : nval -> nval) (d : decoded) : decoded :=
  match d with
  | Decoded v e => Decoded (wrap v) e
  | other => other
  end.

(* ================================================================= *)
(** ** The decoder: [setValue]

    [JSONSerializer.setValue] and [TOMLSerializer.setValue] are the same
    function but for the struct tag they read, so they are embedded once,
    with the format as a parameter. *)

Inductive format := JSONf | TOMLf.

Definition tag_key (fmt : format) : string :=
  match fmt with JSONf => "json" | TOMLf => "toml" end.

(** How a struct field takes part: [None] when it is skipped (unexported,
    or tagged [-]), else its wire name (the tag up to its first comma, or
    the declared name when there is no tag). *)
Definition wire_name (fmt : format) (f : StructField) : option string :=
  if negb (Exported f) then None
  else
    let tag := Tag_Get f (tag_key fmt) in
    if String.eqb tag "-" then None
    else Some (if String.eqb tag "" then Name f else Go.before_comma tag).

(** [reflect.ValueOf(value)] for a parsed value: its dynamic type and
    value; nil for [VNull]. *)
Fixpoint dyn_of (value : Value) : any :=
  match value with
  | VNull => None
  | VString s => Some (TString, NString s)
  | VInt z => Some (TInt KInt64, NInt z)
  | VFloat f => Some (TFloat KFloat64, NFloat f)
  | VBool b => Some (TBool, NBool b)
  | VArray xs =>
      Some (TSlice (TInterface IEmpty),
            NSlice (Some (map (fun x => NIface (dyn_of x)) xs)))
  | VTable kvs =>
      Some (TMap TString (TInterface IEmpty),
            NMap (Some (map (fun kv => (NString (fst kv), NIface (dyn_of (snd kv)))) kvs)))
  | VTime t => Some (TTime, NTime t)
  end.

(** Can [reflect.Value.Set] store a parsed value in an interface of this
    type? *)
Definition assignable (i : iface) (value : Value) : bool :=
  match i, value with
  | IEmpty, _ => true
  | IMethods ok, VTime _ => ok
  | IMethods _, _ => false
  end.

(** The loop [for i, v := range arr] over a slice made by
    [reflect.MakeSlice]: [dec] decodes one element into a zero element
    [z]; the first failure ends the loop, the elements after it staying
    zero. *)
Fixpoint set_elems (dec : nval -> Value -> decoded) (z : nval) (arr : list Value)
  : decoded :=
  match arr with
  | [] => Decoded (NSlice (Some [])) None
  | v :: rest =>
      match dec z v with
      | Decoded x None =>
          inside (fun s => match s with
                           | NSlice (Some xs) => NSlice (Some (x :: xs))
                           | other => other
                           end)
                 (set_elems dec z rest)
      | Decoded x (Some e) =>
          Decoded (NSlice (Some (x :: repeat z (List.length rest)))) (Some e)
      | other => other
      end
  end.

(** A [string] key as a value of the map's key type: [SetMapIndex]
    accepts it when the key type is [string] or an interface that a
    string implements (the empty one), and panics otherwise. *)
Definition map_key (key : gtype) (k : string) : option nval :=
  match key with
  | TString => Some (NString k)
  | TInterface IEmpty => Some (NIface (Some (TString, NString k)))
  | _ => None
  end.

Definition is_key (k : string) (x : nval) : bool :=
  match x with
  | NString s => String.eqb s k
  | NIface (Some (TString, NString s)) => String.eqb s k
  | _ => false
  end.

(** [rv.SetMapIndex(key, elem)] on the entries gathered so far. *)
Fixpoint map_store (k : string) (key elem : nval) (m : list (nval * nval))
  : list (nval * nval) :=
  match m with
  | [] => [(key, elem)]
  | (k', x) :: rest =>
      if is_key k k' then (k', elem) :: rest
      else (k', x) :: map_store k key elem rest
  end.

(** The loop [for k, v := range obj] filling a map made by
    [reflect.MakeMap]: [dec] decodes one element into a zero element
    [z]. *)
Fixpoint set_entries (dec : nval -> Value -> decoded) (z : nval) (key : gtype)
  (obj : table) (acc : list (nval * nval)) : decoded :=
  match obj with
  | [] => Decoded (NMap (Some acc)) None
  | (k, v) :: rest =>
      match dec z v with
      | Decoded x None =>
          match map_key key k with
          | Some kv => set_entries dec z key rest (map_store k kv x acc)
          | None => Panicked NotAssignable
          end
      | Decoded _ (Some e) => Decoded (NMap (Some acc)) (Some e)
      | other => other
      end
  end.

(** Put a field's value back in front of the fields after it. *)
Definition cons_field (x : nval) (s : nval) : nval :=
  match s with
  | NStruct vs => NStruct (x :: vs)
  | other => other
  end.

(** [setValue(rv, value)], [rv] being the destination of type [t] that
    holds [cur] when the call is made. The destination is a tree: no
    pointer refers into it from elsewhere, so that writing through
    [rv.Elem()] and [rv.Field(i)] in place is rebuilding the tree around
    what was written. [setValue_at], further down, is the decoder on
    destinations that pointers refer into. *)
Fixpoint setValue (fmt : format) (t : gtype) (cur : nval) (value : Value)
  {struct t} : decoded :=
  match t with
  | TString =>
      match value with
      | VString str => Decoded (NString str) None
      | _ => Decoded cur (Some (TypeMismatch "string"))
      end
  | TInt k =>
      match value with
      | VFloat v => Decoded (NInt (Go.wrap_signed (int_bits k) (Go.int64_of_float v))) None
      | VInt v => Decoded (NInt (Go.wrap_signed (int_bits k) v)) None
      | _ => Decoded cur (Some (TypeMismatch "int"))
      end
  | TUint k =>
      match value with
      | VFloat v => Decoded (NUint (Go.wrap_unsigned (uint_bits k) (Go.uint64_of_float v))) None
      | VInt v => Decoded (NUint (Go.wrap_unsigned (uint_bits k) (Go.wrap_unsigned 64 v))) None
      | _ => Decoded cur (Some (TypeMismatch "uint"))
      end
  | TFloat k =>
      match value with
      | VFloat f =>
          Decoded (NFloat (match k with
                           | KFloat32 => Go.round_float32 f
                           | KFloat64 => f
                           end)) None
      | _ => Decoded cur (Some (TypeMismatch "float"))
      end
  | TBool =>
      match value with
      | VBool b => Decoded (NBool b) None
      | _ => Decoded cur (Some (TypeMismatch "bool"))
      end
  | TSlice elem =>
      match value with
      | VNull => Decoded (zero t) None
      | VArray arr => set_elems (setValue fmt elem) (zero elem) arr
      | _ => Decoded cur (Some (TypeMismatch "slice"))
      end
  | TMap key elem =>
      match value with
      | VNull => Decoded (zero t) None
      | VTable obj =>
          set_entries (setValue fmt elem) (zero elem) key obj []
      | _ => Decoded cur (Some (TypeMismatch "map"))
      end
  | TStruct fields =>
      match value with
      | VNull => Decoded (zero t) None
      | VTable obj =>
          let fix set_fields (fs : list (StructField * gtype)) (vs : list nval)
            {struct fs} : decoded :=
            match fs, vs with
            | (field, ft) :: fs', v :: vs' =>
                let keep x := inside (cons_field x) (set_fields fs' vs') in
                match wire_name fmt field with
                | None => keep v                       (* continue *)
                | Some name =>
                    match tbl_lookup name obj with
                    | Some x =>
                        match setValue fmt ft v x with
                        | Decoded v' None => keep v'
                        | Decoded v' (Some e) => Decoded (NStruct (v' :: vs')) (Some e)
                        | other => other
                        end
                    | None => keep v
                    end
                end
            | _, _ => Decoded (NStruct vs) None
            end in
          set_fields fields (match cur with NStruct vs => vs | _ => [] end)
      | _ => Decoded cur (Some (TypeMismatch "struct"))
      end
  | TTime =>
      (* a struct whose three fields are all unexported *)
      match value with
      | VNull => Decoded (zero t) None
      | VTable _ => Decoded cur None
      | _ => Decoded cur (Some (TypeMismatch "struct"))
      end
  | TPtr elem =>
      match value with
      | VNull => Decoded (zero t) None
      | _ =>
          let pointee := match cur with
                         | NPtr (Some x) => x
                         | _ => zero elem          (* reflect.New *)
                         end in
          inside (fun x => NPtr (Some x)) (setValue fmt elem pointee value)
      end
  | TInterface i =>
      match value with
      | VNull => Decoded (zero t) None
      | _ => if assignable i value then Decoded (NIface (dyn_of value)) None
             else Panicked NotAssignable
      end
  | TArray _ _ | TOther _ => Decoded cur (Some (UnsupportedType (kind_of t)))
  end.

(** The field loop of the [Struct] case, on its own for the proofs
    ([setValue_struct] shows it is the loop above). *)
Fixpoint set_fields (fmt : format) (obj : table)
  (fs : list (StructField * gtype)) (vs : list nval) {struct fs} : decoded :=
  match fs, vs with
  | (field, ft) :: fs', v :: vs' =>
      let keep x := inside (cons_field x) (set_fields fmt obj fs' vs') in
      match wire_name fmt field with
      | None => keep v
      | Some name =>
          match tbl_lookup name obj with
          | Some x =>
              match setValue fmt ft v x with
              | Decoded v' None => keep v'
              | Decoded v' (Some e) => Decoded (NStruct (v' :: vs')) (Some e)
              | other => other
              end
          | None => keep v
          end
      end
  | _, _ => Decoded (NStruct vs) None
  end.

(** A field that a decode of [obj] does not touch: it has no wire name,
    or the table has no such key. *)
Definition untouched (fmt : format) (obj : table) (f : StructField) : bool :=
  match wire_name fmt f with
  | None => true
  | Some name =>
      match tbl_lookup name obj with
      | None => true
      | Some _ => false
      end
  end.

(** The kinds for which [setValue] has an [if value == nil] guard. *)
Definition nullable (t : gtype) : bool :=
  match kind_of t with
  | Slice | Map | Struct | Ptr | Interface => true
  | _ => false
  end.

(** The error a [nil] value meets where there is no such guard. *)
Definition null_error (t : gtype) : error :=
  match kind_of t with
  | String_ => TypeMismatch "string"
  | Int _ => TypeMismatch "int"
  | Uint _ => TypeMismatch "uint"
  | Float _ => TypeMismatch "float"
  | Bool => TypeMismatch "bool"
  | k => UnsupportedType k
  end.

Definition scalar (t : gtype) : bool :=
  match kind_of t with
  | String_ | Int _ | Uint _ | Float _ | Bool => true
  | _ => false
  end.

(** The end of [Unmarshal], after the parse: [v] must be a pointer, and
    the value is decoded into what it points to. A nil pointer has no
    pointee: [rv.Elem()] is the invalid Value, for which [setValue] has
    no case. The result is [v] as the call leaves it. *)
Definition decode_into (fmt : format) (v : any) (value : Value) : decoded :=
  match v with
  | Some (TPtr elem, NPtr (Some cur)) =>
      inside (fun x => NPtr (Some x)) (setValue fmt elem cur value)
  | Some (TPtr elem, p) => Decoded p (Some (UnsupportedType Invalid))
  | Some (_, x) => Decoded x (Some NotAPointer)
  | None => Decoded NOpaque (Some NotAPointer)
  end.

(** The value [v] holds: the outcome of a call that failed before it
    reached the destination. *)
Definition held (v : any) : nval :=
  match v with
  | Some (_, x) => x
  | None => NOpaque
  end.

(** A pointer to a variable of type [t] that holds [cur]. *)
Definition ptr_to (t : gtype) (cur : nval) : any :=
  Some (TPtr t, NPtr (Some cur)).

(* ================================================================= *)
(** ** The JSON codec ([json/serializer.go]) *)

Module JSON.

Definition quoted (s : string) : string :=
  String Go.c_quote (s ++ String Go.c_quote "").

Definition escapeString (s : string) : string :=
  let s := Go.ReplaceAll s Go.c_backslash "\\" in
  let s := Go.ReplaceAll s Go.c_quote (String Go.c_backslash (Go.str1 Go.c_quote)) in
  let s := Go.ReplaceAll s Go.c_newline "\n" in
  let s := Go.ReplaceAll s Go.c_return "\r" in
  let s := Go.ReplaceAll s Go.c_tab "\t" in
  s.

(* ----------------------------------------------------------------- *)
(** *** Encoding *)

(** [marshalValue(v)], [v] being the value [x] of type [t]. A pair whose
    value is not of its type is no [reflect.Value]; it is answered like
    the invalid Value's kind in the [default] case. *)
Fixpoint marshalValue (t : gtype) (x : nval) {struct x} : result string :=
  match t, x with
  | TString, NString s => Ok (quoted (escapeString s))
  | TInt _, NInt z => Ok (Go.FormatInt z)
  | TUint _, NUint z => Ok (Go.FormatUint z)
  | TFloat _, NFloat f => Ok (Go.FormatFloat f)
  | TBool, NBool b => Ok (Go.FormatBool b)
  (* marshalArray *)
  | TSlice _, NSlice None => Ok "null"
  | TSlice elem, NSlice (Some xs) =>
      let fix each (xs : list nval) : result (list string) :=
        match xs with
        | [] => Ok []
        | y :: rest =>
            do element <- marshalValue elem y;
            do elements <- each rest;
            Ok (element :: elements)
        end in
      do elements <- each xs;
      Ok ("[" ++ Go.Join elements "," ++ "]")
  | TArray _ _, NArray _ => Panic IsNilOnArray          (* v.IsNil() *)
  (* marshalMap *)
  | TMap _ _, NMap None => Ok "null"
  | TMap key elem, NMap (Some m) =>
      let fix each (m : list (nval * nval)) : result (list string) :=
        match m with
        | [] => Ok []
        | (k, y) :: rest =>
            do keyBytes <- marshalValue key k;
            do valueBytes <- marshalValue elem y;
            do pairs <- each rest;
            Ok ((keyBytes ++ ":" ++ valueBytes) :: pairs)
        end in
      do pairs <- each m;
      Ok ("{" ++ Go.Join pairs "," ++ "}")
  (* marshalStruct *)
  | TStruct fields, NStruct vs =>
      let fix each (fs : list (StructField * gtype)) (vs : list nval)
        {struct vs} : result (list string) :=
        match fs, vs with
        | (field, ft) :: fs', y :: vs' =>
            match wire_name JSONf field with
            | None => each fs' vs'
            | Some name =>
                do valueBytes <- marshalValue ft y;
                do pairs <- each fs' vs';
                Ok ((quoted name ++ ":" ++ valueBytes) :: pairs)
            end
        | _, _ => Ok []
        end in
      do pairs <- each fields vs;
      Ok ("{" ++ Go.Join pairs "," ++ "}")
  | TTime, NTime _ => Ok "{}"            (* a struct of unexported fields *)
  | TPtr _, NPtr None => Ok "null"
  | TPtr elem, NPtr (Some y) => marshalValue elem y
  | TInterface _, NIface None => Ok "null"
  | TInterface _, NIface (Some (t', y)) => marshalValue t' y
  | TOther k, _ => Err (UnsupportedType (Other k))
  | _, _ => Err (UnsupportedType Invalid)
  end.

(** [Marshal(v)]: [reflect.ValueOf(nil)] is the invalid Value. *)
Definition Marshal (v : any) : result string :=
  match v with
  | None => Ok "null"
  | Some (t, x) => marshalValue t x
  end.

(* ----------------------------------------------------------------- *)
(** *** The lexer *)

Inductive tokenType :=
| tokenEOF | tokenString | tokenNumber | tokenTrue | tokenFalse | tokenNull
| tokenLeftBrace | tokenRightBrace | tokenLeftBracket | tokenRightBracket
| tokenComma | tokenColon.

Record token : Type := mkToken { typ : tokenType; value : string }.

Record lexer : Type := mkLexer { input : string; pos : nat }.

Definition newLexer (input : string) : lexer := mkLexer input 0.

Definition advance (l : lexer) (n : nat) : lexer :=
  mkLexer (input l) (pos l + n).

Definition eof : token := mkToken tokenEOF "".

Fixpoint skipWhitespace_loop (fuel : nat) (l : lexer) : lexer :=
  match fuel with
  | O => l
  | S fuel' =>
      match Go.at_ (input l) (pos l) with
      | Some c => if Go.IsSpace c then skipWhitespace_loop fuel' (advance l 1)
                  else l
      | None => l
      end
  end.

Definition skipWhitespace (l : lexer) : lexer :=
  skipWhitespace_loop (Go.len (input l) - pos l) l.

(** The loop of [readString], entered after the opening quote at
    [start]: a quote ends the string unless the byte before it is a
    backslash. *)
Fixpoint readString_loop (fuel : nat) (start : nat) (l : lexer) : token * lexer :=
  match fuel with
  | O => (eof, l)
  | S fuel' =>
      match Go.at_ (input l) (pos l) with
      | Some c =>
          if Ascii.eqb c Go.c_quote
             && negb (match Go.at_ (input l) (pos l - 1) with
                      | Some b => Ascii.eqb b Go.c_backslash
                      | None => false
                      end)
          then
            let l' := advance l 1 in
            (mkToken tokenString (Go.slice (input l) (start + 1) (pos l' - 1)), l')
          else readString_loop fuel' start (advance l 1)
      | None => (eof, l)
      end
  end.

Definition readString (l : lexer) : token * lexer :=
  let start := pos l in
  let l := advance l 1 in
  readString_loop (Go.len (input l) - pos l) start l.

Definition number_byte (c : Go.byte) : bool :=
  Go.IsDigit c || Ascii.eqb c "."%char || Ascii.eqb c "-"%char
  || Ascii.eqb c "e"%char || Ascii.eqb c "E"%char || Ascii.eqb c "+"%char.

Fixpoint readNumber_loop (fuel : nat) (l : lexer) : lexer :=
  match fuel with
  | O => l
  | S fuel' =>
      match Go.at_ (input l) (pos l) with
      | Some c => if number_byte c then readNumber_loop fuel' (advance l 1)
                  else l
      | None => l
      end
  end.

Definition readNumber (l : lexer) : token * lexer :=
  let start := pos l in
  let l := readNumber_loop (Go.len (input l) - pos l) l in
  (mkToken tokenNumber (Go.slice (input l) start (pos l)), l).

(** [l.pos+n-1 < len(l.input) && l.input[l.pos:l.pos+n] == word]. *)
Definition looking_at (l : lexer) (word : string) : bool :=
  let n := Go.len word in
  (pos l + (n - 1) <? Go.len (input l))
  && String.eqb (Go.slice (input l) (pos l) (pos l + n)) word.

(** What [next] does when no [case] returned: a number, or the EOF token
    for any other byte. *)
Definition number_or_eof (l : lexer) (c : Go.byte) : token * lexer :=
  if Ascii.eqb c "-"%char || Go.IsDigit c then readNumber l else (eof, l).

Definition keyword (l : lexer) (c : Go.byte) (ty : tokenType) (word : string)
  : token * lexer :=
  if looking_at l word then (mkToken ty word, advance l (Go.len word))
  else number_or_eof l c.

Definition next (l : lexer) : token * lexer :=
  let l := skipWhitespace l in
  match Go.at_ (input l) (pos l) with
  | None => (eof, l)
  | Some c =>
      if Ascii.eqb c "{"%char then (mkToken tokenLeftBrace "{", advance l 1)
      else if Ascii.eqb c "}"%char then (mkToken tokenRightBrace "}", advance l 1)
      else if Ascii.eqb c "["%char then (mkToken tokenLeftBracket "[", advance l 1)
      else if Ascii.eqb c "]"%char then (mkToken tokenRightBracket "]", advance l 1)
      else if Ascii.eqb c ","%char then (mkToken tokenComma ",", advance l 1)
      else if Ascii.eqb c ":"%char then (mkToken tokenColon ":", advance l 1)
      else if Ascii.eqb c Go.c_quote then readString l
      else if Ascii.eqb c "t"%char then keyword l c tokenTrue "true"
      else if Ascii.eqb c "f"%char then keyword l c tokenFalse "false"
      else if Ascii.eqb c "n"%char then keyword l c tokenNull "null"
      else number_or_eof l c
  end.

(* ----------------------------------------------------------------- *)
(** *** The parser *)

Record parser : Type := mkParser { p_lexer : lexer; p_token : token }.

Definition newParser (input : string) : parser :=
  let '(t, l) := next (newLexer input) in mkParser l t.

(** [p.next()]. *)
Definition advance_token (p : parser) : parser :=
  let '(t, l) := next (p_lexer p) in mkParser l t.

Definition unexpected (expected : string) (p : parser) : error :=
  SyntaxError expected (value (p_token p)).

(** A number token's value: Float when it has a point, else Integer. *)
Definition number_value (val : string) : result Value :=
  if Go.contains_byte "."%char val then
    match Go.ParseFloat val with
    | Some f => Ok (VFloat f)
    | None => Err (NumError val)
    end
  else
    match Go.ParseInt val with
    | Some i => Ok (VInt i)
    | None => Err (NumError val)
    end.

Section Descent.
(** [parseValue] one nesting level down. *)
Variable parseValue : parser -> result (Value * parser).

(** The [for] loop of [parseObject]. *)
Fixpoint parseObject_loop (fuel : nat) (obj : table) (p : parser)
  : result (table * parser) :=
  match fuel with
  | O => OutOfFuel
  | S fuel' =>
      match typ (p_token p) with
      | tokenString =>
          let key := value (p_token p) in
          let p := advance_token p in
          match typ (p_token p) with
          | tokenColon =>
              let p := advance_token p in
              do vp <- parseValue p;
              let '(v, p) := vp in
              let obj := tbl_insert key v obj in
              match typ (p_token p) with
              | tokenRightBrace => Ok (obj, advance_token p)
              | tokenComma => parseObject_loop fuel' obj (advance_token p)
              | _ => Err (unexpected "comma or }" p)
              end
          | _ => Err (unexpected "colon" p)
          end
      | _ => Err (unexpected "string key" p)
      end
  end.

Definition parseObject (fuel : nat) (p : parser) : result (table * parser) :=
  let p := advance_token p in                               (* skip { *)
  match typ (p_token p) with
  | tokenRightBrace => Ok ([], advance_token p)
  | _ => parseObject_loop fuel [] p
  end.

(** The [for] loop of [parseArray]; [arr] is kept in reverse. *)
Fixpoint parseArray_loop (fuel : nat) (arr : list Value) (p : parser)
  : result (list Value * parser) :=
  match fuel with
  | O => OutOfFuel
  | S fuel' =>
      do vp <- parseValue p;
      let '(v, p) := vp in
      let arr := v :: arr in
      match typ (p_token p) with
      | tokenRightBracket => Ok (rev arr, advance_token p)
      | tokenComma => parseArray_loop fuel' arr (advance_token p)
      | _ => Err (unexpected "comma or ]" p)
      end
  end.

Definition parseArray (fuel : nat) (p : parser) : result (list Value * parser) :=
  let p := advance_token p in                               (* skip [ *)
  match typ (p_token p) with
  | tokenRightBracket => Ok ([], advance_token p)
  | _ => parseArray_loop fuel [] p
  end.
End Descent.

Fixpoint parseValue (fuel : nat) (p : parser) : result (Value * parser) :=
  match fuel with
  | O => OutOfFuel
  | S fuel' =>
      match typ (p_token p) with
      | tokenString => Ok (VString (value (p_token p)), advance_token p)
      | tokenNumber =>
          let val := value (p_token p) in
          let p := advance_token p in
          do v <- number_value val; Ok (v, p)
      | tokenTrue => Ok (VBool true, advance_token p)
      | tokenFalse => Ok (VBool false, advance_token p)
      | tokenNull => Ok (VNull, advance_token p)
      | tokenLeftBrace =>
          do op <- parseObject (parseValue fuel') fuel' p;
          Ok (VTable (fst op), snd op)
      | tokenLeftBracket =>
          do ap <- parseArray (parseValue fuel') fuel' p;
          Ok (VArray (fst ap), snd ap)
      | _ => Err (unexpected "value" p)
      end
  end.

(** Enough fuel for any input: see [JSON_parseValue_returns]. *)
Definition fuel_for (data : string) : nat := 2 * Go.len data + 2.

(** [Unmarshal(data, v)]. *)
Definition Unmarshal (data : string) (v : any) : decoded :=
  match parseValue (fuel_for data) (newParser data) with
  | Ok (value, _) => decode_into JSONf v value
  | Err e => Decoded (held v) (Some e)
  | Panic p => Panicked p
  | OutOfFuel => Diverged
  end.

Definition Format : string := "JSON".

End JSON.

(* ================================================================= *)
(** ** The TOML codec *)

Module TOML.

Section Codec.
(** Library functions the codec calls and whose results no property
    below depends on: [time.Parse(time.RFC3339, s)] ([None] for an
    error), [t.Format(time.RFC3339)], and [reflect.Type.String()],
    which shows declared type names that [gtype] does not record. *)
Variable time_Parse : string -> option time_Time.
Variable time_Format : time_Time -> string.
Variable type_String : gtype -> string.

Definition escapeString : string -> string := JSON.escapeString.

(* --------------------------------------------------------------- *)
(** *** Encoding *)

(** [key.String()]: the string itself for a string, else a
    placeholder naming the type. *)
Definition key_String (t : gtype) (k : nval) : string :=
  match k with
  | NString s => s
  | _ => "<" ++ type_String t ++ " Value>"
  end.

Definition prefixed (prefix name : string) : string :=
  if String.eqb prefix "" then name else prefix ++ "." ++ name.

(** [marshalValue(v, prefix)]. *)
Fixpoint marshalValue (t : gtype) (x : nval) (prefix : string) {struct x}
  : result string :=
  match t, x with
  | TString, NString s => Ok (JSON.quoted (escapeString s))
  | TInt _, NInt z => Ok (Go.FormatInt z)
  | TUint _, NUint z => Ok (Go.FormatUint z)
  | TFloat _, NFloat f => Ok (Go.FormatFloat f)
  | TBool, NBool b => Ok (Go.FormatBool b)
  (* marshalArray *)
  | TSlice _, NSlice None => Ok "[]"
  | TSlice elem, NSlice (Some xs) =>
      let fix each (xs : list nval) : result (list string) :=
        match xs with
        | [] => Ok []
        | y :: rest =>
            do element <- marshalValue elem y "";
            do elements <- each rest;
            Ok (element :: elements)
        end in
      do elements <- each xs;
      Ok ("[" ++ Go.Join elements ", " ++ "]")
  | TArray _ _, NArray _ => Panic IsNilOnArray        (* v.IsNil() *)
  (* marshalMap *)
  | TMap _ _, NMap None => Ok "{}"
  | TMap key elem, NMap (Some m) =>
      let fix each (m : list (nval * nval)) : result (list string) :=
        match m with
        | [] => Ok []
        | (k, y) :: rest =>
            let keyStr := prefixed prefix (key_String key k) in
            do valueBytes <- marshalValue elem y keyStr;
            do pairs <- each rest;
            Ok ((keyStr ++ " = " ++ valueBytes) :: pairs)
        end in
      do pairs <- each m;
      Ok (Go.Join pairs (Go.str1 Go.c_newline))
  (* marshalStruct *)
  | TStruct fields, NStruct vs =>
      let fix each (fs : list (StructField * gtype)) (vs : list nval)
        {struct vs} : result (list string) :=
        match fs, vs with
        | (field, ft) :: fs', y :: vs' =>
            match wire_name TOMLf field with
            | None => each fs' vs'
            | Some name =>
                let name := prefixed prefix name in
                do valueBytes <- marshalValue ft y name;
                do pairs <- each fs' vs';
                Ok ((name ++ " = " ++ valueBytes) :: pairs)
            end
        | _, _ => Ok []
        end in
      do pairs <- each fields vs;
      Ok (Go.Join pairs (Go.str1 Go.c_newline))
  | TTime, NTime tm => Ok (time_Format tm)
  | TPtr _, NPtr None => Ok "null"
  | TPtr elem, NPtr (Some y) => marshalValue elem y prefix
  | TInterface _, NIface None => Ok "null"
  | TInterface _, NIface (Some (t', y)) => marshalValue t' y prefix
  | TOther k, _ => Err (UnsupportedType (Other k))
  | _, _ => Err (UnsupportedType Invalid)
  end.

Definition Marshal (v : any) : result string :=
  match v with
  | None => Ok "null"
  | Some (t, x) => marshalValue t x ""
  end.

(* --------------------------------------------------------------- *)
(** *** The lexer *)

Inductive tokenType :=
| tokenEOF | tokenString | tokenNumber | tokenTrue | tokenFalse | tokenDate
| tokenLeftBracket | tokenRightBracket | tokenDot | tokenEquals
| tokenComma | tokenNewline.

Record token : Type := mkToken { typ : tokenType; value : string }.

Record lexer : Type := mkLexer {
  input : string; pos : nat; line : nat; col : nat
}.

Definition newLexer (input : string) : lexer := mkLexer input 0 1 1.

(** [l.pos += n; l.col += n]. *)
Definition advance (l : lexer) (n : nat) : lexer :=
  mkLexer (input l) (pos l + n) (line l) (col l + n).

(** [l.line++; l.col = 1]. *)
Definition newline (l : lexer) : lexer :=
  mkLexer (input l) (pos l) (line l + 1) 1.

Definition eof : token := mkToken tokenEOF "".

Fixpoint skipWhitespace_loop (fuel : nat) (l : lexer) : lexer :=
  match fuel with
  | O => l
  | S fuel' =>
      match Go.at_ (input l) (pos l) with
      | Some c =>
          if Ascii.eqb c Go.c_newline
          then skipWhitespace_loop fuel' (advance (newline l) 1)
          else if negb (Go.IsSpace c) then l                    (* break *)
          else skipWhitespace_loop fuel' (advance l 1)
      | None => l
      end
  end.

Definition skipWhitespace (l : lexer) : lexer :=
  skipWhitespace_loop (Go.len (input l) - pos l) l.

Fixpoint readString_loop (fuel : nat) (start : nat) (l : lexer) : token * lexer :=
  match fuel with
  | O => (eof, l)
  | S fuel' =>
      match Go.at_ (input l) (pos l) with
      | Some c =>
          if Ascii.eqb c Go.c_quote
             && negb (match Go.at_ (input l) (pos l - 1) with
                      | Some b => Ascii.eqb b Go.c_backslash
                      | None => false
                      end)
          then
            let l' := advance l 1 in
            (mkToken tokenString (Go.slice (input l) (start + 1) (pos l' - 1)), l')
          else
            let l := if Ascii.eqb c Go.c_newline then newline l
                     else mkLexer (input l) (pos l) (line l) (col l + 1) in
            readString_loop fuel' start
              (mkLexer (input l) (pos l + 1) (line l) (col l))
      | None => (eof, l)
      end
  end.

Definition readString (l : lexer) : token * lexer :=
  let start := pos l in
  let l := advance l 1 in
  readString_loop (Go.len (input l) - pos l) start l.

Definition date_byte (c : Go.byte) : bool :=
  Ascii.eqb c "T"%char || Ascii.eqb c "Z"%char || Ascii.eqb c "-"%char
  || Ascii.eqb c ":"%char.

Definition number_byte (c : Go.byte) : bool :=
  Go.IsDigit c || Ascii.eqb c "."%char || Ascii.eqb c "+"%char
  || Ascii.eqb c "e"%char || Ascii.eqb c "E"%char.

Fixpoint readNumberOrDate_loop (fuel : nat) (isDate : bool) (l : lexer)
  : bool * lexer :=
  match fuel with
  | O => (isDate, l)
  | S fuel' =>
      match Go.at_ (input l) (pos l) with
      | Some c =>
          if date_byte c then readNumberOrDate_loop fuel' true (advance l 1)
          else if negb (number_byte c) then (isDate, l)         (* break *)
          else readNumberOrDate_loop fuel' isDate (advance l 1)
      | None => (isDate, l)
      end
  end.

Definition readNumberOrDate (l : lexer) : token * lexer :=
  let start := pos l in
  let '(isDate, l) :=
    readNumberOrDate_loop (Go.len (input l) - pos l) false l in
  let value := Go.slice (input l) start (pos l) in
  (mkToken (if isDate then tokenDate else tokenNumber) value, l).

Definition looking_at (l : lexer) (word : string) : bool :=
  let n := Go.len word in
  (pos l + (n - 1) <? Go.len (input l))
  && String.eqb (Go.slice (input l) (pos l) (pos l + n)) word.

Definition number_or_eof (l : lexer) (c : Go.byte) : token * lexer :=
  if Ascii.eqb c "-"%char || Go.IsDigit c then readNumberOrDate l
  else (eof, l).

Definition keyword (l : lexer) (c : Go.byte) (ty : tokenType) (word : string)
  : token * lexer :=
  if looking_at l word then (mkToken ty word, advance l (Go.len word))
  else number_or_eof l c.

Definition next (l : lexer) : token * lexer :=
  let l := skipWhitespace l in
  match Go.at_ (input l) (pos l) with
  | None => (eof, l)
  | Some c =>
      if Ascii.eqb c "["%char then (mkToken tokenLeftBracket "[", advance l 1)
      else if Ascii.eqb c "]"%char then (mkToken tokenRightBracket "]", advance l 1)
      else if Ascii.eqb c "."%char then (mkToken tokenDot ".", advance l 1)
      else if Ascii.eqb c "="%char then (mkToken tokenEquals "=", advance l 1)
      else if Ascii.eqb c ","%char then (mkToken tokenComma ",", advance l 1)
      else if Ascii.eqb c Go.c_newline then
        (mkToken tokenNewline (Go.str1 Go.c_newline),
         mkLexer (input l) (pos l + 1) (line l + 1) 1)
      else if Ascii.eqb c Go.c_quote then readString l
      else if Ascii.eqb c "t"%char then keyword l c tokenTrue "true"
      else if Ascii.eqb c "f"%char then keyword l c tokenFalse "false"
      else number_or_eof l c
  end.

(* --------------------------------------------------------------- *)
(** *** The parser *)

Record parser : Type := mkParser { p_lexer : lexer; p_token : token }.

Definition newParser (input : string) : parser :=
  let '(t, l) := next (newLexer input) in mkParser l t.

Definition advance_token (p : parser) : parser :=
  let '(t, l) := next (p_lexer p) in mkParser l t.

Definition unexpected (expected : string) (p : parser) : error :=
  SyntaxError expected (value (p_token p)).

Definition number_value (val : string) : result Value :=
  if Go.contains_byte "."%char val then
    match Go.ParseFloat val with
    | Some f => Ok (VFloat f)
    | None => Err (NumError val)
    end
  else
    match Go.ParseInt val with
    | Some i => Ok (VInt i)
    | None => Err (NumError val)
    end.

Section Descent.
Variable parseValue : parser -> result (Value * parser).

Fixpoint parseArray_loop (fuel : nat) (arr : list Value) (p : parser)
  : result (list Value * parser) :=
  match fuel with
  | O => OutOfFuel
  | S fuel' =>
      do vp <- parseValue p;
      let '(v, p) := vp in
      let arr := v :: arr in
      match typ (p_token p) with
      | tokenRightBracket => Ok (rev arr, advance_token p)
      | tokenComma => parseArray_loop fuel' arr (advance_token p)
      | _ => Err (unexpected "comma or ]" p)
      end
  end.

Definition parseArray (fuel : nat) (p : parser) : result (list Value * parser) :=
  let p := advance_token p in                             (* skip [ *)
  match typ (p_token p) with
  | tokenRightBracket => Ok ([], advance_token p)
  | _ => parseArray_loop fuel [] p
  end.
End Descent.

Fixpoint parseValue (fuel : nat) (p : parser) : result (Value * parser) :=
  match fuel with
  | O => OutOfFuel
  | S fuel' =>
      match typ (p_token p) with
      | tokenString => Ok (VString (value (p_token p)), advance_token p)
      | tokenNumber =>
          let val := value (p_token p) in
          let p := advance_token p in
          do v <- number_value val; Ok (v, p)
      | tokenDate =>
          let val := value (p_token p) in
          let p := advance_token p in
          match time_Parse val with
          | Some t => Ok (VTime t, p)
          | None => Err (TimeError val)
          end
      | tokenTrue => Ok (VBool true, advance_token p)
      | tokenFalse => Ok (VBool false, advance_token p)
      | tokenLeftBracket =>
          do ap <- parseArray (parseValue fuel') fuel' p;
          Ok (VArray (fst ap), snd ap)
      | _ => Err (unexpected "value" p)
      end
  end.

(** [parseTablePath]: keys separated by dots; [path] is kept in
    reverse. *)
Fixpoint parseTablePath_loop (fuel : nat) (path : list string) (p : parser)
  : result (list string * parser) :=
  match fuel with
  | O => OutOfFuel
  | S fuel' =>
      match typ (p_token p) with
      | tokenString =>
          let path := value (p_token p) :: path in
          let p := advance_token p in
          match typ (p_token p) with
          | tokenDot => parseTablePath_loop fuel' path (advance_token p)
          | _ => Ok (rev path, p)
          end
      | _ => Ok (rev path, p)
      end
  end.

(** Enough fuel for any input: see [TOML_parseTable_returns]. *)
Definition fuel_for (data : string) : nat := 2 * Go.len data + 2.

Definition parseTablePath (p : parser) : result (list string * parser) :=
  parseTablePath_loop (fuel_for (input (p_lexer p))) [] p.

(** The parser's [current] variable refers to a map inside the tree
    that [table] is the root of; it is kept as the path of keys that
    leads there. [sub_table] reads the map, [update_at] writes it. *)
Fixpoint sub_table (root : table) (cursor : list string) : option table :=
  match cursor with
  | [] => Some root
  | k :: rest =>
      match tbl_lookup k root with
      | Some (VTable t) => sub_table t rest
      | _ => None
      end
  end.

Fixpoint update_at (root : table) (cursor : list string) (f : table -> table)
  : table :=
  match cursor with
  | [] => f root
  | k :: rest =>
      match tbl_lookup k root with
      | Some (VTable t) => tbl_insert k (VTable (update_at t rest f)) root
      | _ => root
      end
  end.

Definition lookup_at (root : table) (cursor : list string) (key : string)
  : option Value :=
  match sub_table root cursor with
  | Some t => tbl_lookup key t
  | None => None
  end.

(** [for i, key := range path[:len(path)-1]]: make the missing maps
    and step into each; [seen] is [path[:i]]. *)
Fixpoint navigate (root : table) (cursor seen keys : list string)
  : result (table * list string) :=
  match keys with
  | [] => Ok (root, cursor)
  | key :: rest =>
      let root :=
        match lookup_at root cursor key with
        | None => update_at root cursor (tbl_insert key (VTable []))
        | Some _ => root
        end in
      match lookup_at root cursor key with
      | Some (VTable _) => navigate root (cursor ++ [key]) (seen ++ [key]) rest
      | _ => Err (Redefined (Go.Join (seen ++ [key]) "."))
      end
  end.

(** The loop of [parseTable]. *)
Fixpoint parseTable_loop (fuel : nat) (root : table) (current : list string)
  (p : parser) : result table :=
  match fuel with
  | O => OutOfFuel
  | S fuel' =>
      match typ (p_token p) with
      | tokenEOF => Ok root
      | tokenLeftBracket =>
          let p := advance_token p in
          do pp <- parseTablePath p;
          let '(path, p) := pp in
          match typ (p_token p) with
          | tokenRightBracket =>
              let p := advance_token p in
              match path with
              | [] => Panic SliceBoundsOutOfRange      (* path[:len(path)-1] *)
              | _ :: _ =>
                  do rc <- navigate root [] [] (removelast path);
                  let '(root, current) := rc in
                  (* current[path[len(path)-1]].(map[string]interface{}) *)
                  match lookup_at root current (last path "") with
                  | Some (VTable _) =>
                      parseTable_loop fuel' root (current ++ [last path ""]) p
                  | _ => Panic InterfaceConversion
                  end
              end
          | _ => Err (unexpected "]" p)
          end
      | tokenString =>
          let key := value (p_token p) in
          let p := advance_token p in
          match typ (p_token p) with
          | tokenEquals =>
              let p := advance_token p in
              do vp <- parseValue (fuel_for (input (p_lexer p))) p;
              let '(v, p) := vp in
              let root := update_at root current (tbl_insert key v) in
              match typ (p_token p) with
              | tokenNewline | tokenEOF =>
                  parseTable_loop fuel' root current (advance_token p)
              | _ => Err (unexpected "newline or EOF" p)
              end
          | _ => Err (unexpected "=" p)
          end
      | _ => Err (unexpected "statement" p)
      end
  end.

Definition parseTable (p : parser) : result table :=
  parseTable_loop (fuel_for (input (p_lexer p))) [] [] p.

(** [Unmarshal(data, v)]. *)
Definition Unmarshal (data : string) (v : any) : decoded :=
  match parseTable (newParser data) with
  | Ok value => decode_into TOMLf v (VTable value)
  | Err e => Decoded (held v) (Some e)
  | Panic p => Panicked p
  | OutOfFuel => Diverged
  end.

Definition Format : string := "TOML".

End Codec.

End TOML.

(* ================================================================= *)
(** ** Predicates and sample data for the properties *)

(** A record with a field that is present in the table ([a]), one that
    is absent ([B]), an unexported one and one tagged [-], both of which
    have entries in the table. *)
Definition sample_fields : list (StructField * gtype) :=
  [ (mkField "A" true [("json", "a,omitempty")], TString);
    (mkField "B" true [], TInt KInt);
    (mkField "c" false [], TInt KInt);
    (mkField "D" true [("json", "-")], TBool) ].
Definition sample_values : list nval :=
  [NString "old"; NInt 7; NInt 1; NBool true].
Definition sample_table : table :=
  [("a", VString "new"); ("c", VInt 2); ("D", VBool false); ("-", VBool false)].

(** The float 3.0. *)
Definition float_three : Go.float64 := S754_finite false 6755399441055744 (-51).

(** A line feed, and a quoted key or string as it stands in a document. *)
Definition nl : string := Go.str1 Go.c_newline.
Definition q (s : string) : string := JSON.quoted s.

Definition is_newline (t : TOML.tokenType) : bool :=
  match t with TOML.tokenNewline => true | _ => false end.

(** A table none of whose values is a table. *)
Definition no_table (v : Value) : bool :=
  match v with VTable _ => false | _ => true end.
Definition flat (t : table) : bool :=
  forallb (fun kv => no_table (snd kv)) t.

(** While a header is walked, the cursor is at the root of a flat table
    or at a table that the walk has just made, which is empty. *)
Definition header_state (root : table) (cursor : list string) : Prop :=
  (cursor = [] /\ flat root = true) \/ TOML.sub_table root cursor = Some [].

(** The record of the packages' own round-trip tests. *)
Definition test_fields (key : string) : list (StructField * gtype) :=
  [ (mkField "String" true [(key, "string")], TString);
    (mkField "Integer" true [(key, "integer")], TInt KInt);
    (mkField "Float" true [(key, "float")], TFloat KFloat64);
    (mkField "Boolean" true [(key, "boolean")], TBool);
    (mkField "Array" true [(key, "array")], TSlice TString);
    (mkField "Nested" true [(key, "nested")],
       TStruct [(mkField "Field" true [(key, "field")], TString)]) ].
Definition test_value : nval :=
  NStruct [ NString "test"; NInt 42;
            NFloat (S754_finite false 7070651414971679 (-51)) (* 3.14 *);
            NBool true;
            NSlice (Some [NString "one"; NString "two"; NString "three"]);
            NStruct [NString "nested field"] ].

(** A record with one string field, one float field, one integer field. *)
Definition one_string : gtype := TStruct [(mkField "S" true [], TString)].
Definition one_float : gtype := TStruct [(mkField "F" true [], TFloat KFloat64)].
Definition one_int : gtype := TStruct [(mkField "A" true [], TInt KInt)].

(** Would the text [t], put after [s], continue a number token that
    ends [s]? Both the last byte of [s] and the first byte of [t] are
    bytes that [readNumber] reads on. *)
Definition number_tail (s t : string) : bool :=
  match Go.at_ s (Go.len s - 1), Go.at_ t 0 with
  | Some a, Some b => JSON.number_byte a && JSON.number_byte b
  | _, _ => false
  end.

(** The input is a complete JSON value: [parseValue] returns one. *)
Definition parses (s : string) (value : Value) : Prop :=
  exists rest, JSON.parseValue (JSON.fuel_for s) (JSON.newParser s) = Ok (value, rest).

Definition is_eof (ty : JSON.tokenType) : bool :=
  match ty with JSON.tokenEOF => true | _ => false end.

(** The same cursor, and the same parser state, over a longer input
    [u], and when a state over [u] follows one over [s]: always, unless
    the current token over [s] is the EOF token (over [u] the lexer may
    have found more). *)
Definition relex_to (u : string) (l : JSON.lexer) : JSON.lexer :=
  JSON.mkLexer u (JSON.pos l).
Definition lift_to (u : string) (p : JSON.parser) : JSON.parser :=
  JSON.mkParser (relex_to u (JSON.p_lexer p)) (JSON.p_token p).
Definition follows_on (s u : string) (p p' : JSON.parser) : Prop :=
  JSON.input (JSON.p_lexer p) = s
  /\ (is_eof (JSON.typ (JSON.p_token p)) = false -> p' = lift_to u p).

(** The first byte of [t], if any, is not one [readNumber] reads on. *)
Definition stops_at (t : string) : Prop :=
  match Go.at_ t 0 with
  | Some b => JSON.number_byte b = false
  | None => True
  end.

(** [pv'], over the longer input [u], does what [pv] does over [s]. *)
Definition simulates_on (s u : string)
  (pv pv' : JSON.parser -> result (Value * JSON.parser)) : Prop :=
  forall p p' v p1,
    follows_on s u p p' -> pv p = Ok (v, p1) ->
    exists p1', pv' p' = Ok (v, p1') /\ follows_on s u p1 p1'.

(** Outcomes that only a fuelled model can have. *)
Definition out_of_fuel {A : Type} (r : result A) : bool :=
  match r with OutOfFuel => true | _ => false end.
Definition diverges (d : decoded) : bool :=
  match d with Diverged => true | _ => false end.

(** What is left of the input, and a measure that every [p.next()]
    past a token other than EOF decreases. *)
Definition JSON_left (l : JSON.lexer) : nat :=
  Go.len (JSON.input l) - JSON.pos l.
Definition JSON_weight (p : JSON.parser) : nat :=
  2 * JSON_left (JSON.p_lexer p)
  + (if is_eof (JSON.typ (JSON.p_token p)) then 0 else 1).

Definition TOML_is_eof (ty : TOML.tokenType) : bool :=
  match ty with TOML.tokenEOF => true | _ => false end.
Definition TOML_left (l : TOML.lexer) : nat :=
  Go.len (TOML.input l) - TOML.pos l.
Definition TOML_weight (p : TOML.parser) : nat :=
  2 * TOML_left (TOML.p_lexer p)
  + (if TOML_is_eof (TOML.typ (TOML.p_token p)) then 0 else 1).

(* ================================================================= *)
(** ** Predicates for the properties of the lexers, parsers and codecs *)

(** Does a token of the TOML lexer start at byte [i] of [data]? The
    bytes that [next] has a [case] for, with the words [true] and
    [false] in full, and the start of a number or date. *)
Definition TOML_starts_token (data : string) (i : nat) : bool :=
  match Go.at_ data i with
  | None => false
  | Some c =>
      Ascii.eqb c "["%char || Ascii.eqb c "]"%char || Ascii.eqb c "."%char
      || Ascii.eqb c "="%char || Ascii.eqb c ","%char
      || Ascii.eqb c Go.c_quote
      || String.eqb (Go.slice data i (i + 4)) "true"
      || String.eqb (Go.slice data i (i + 5)) "false"
      || Ascii.eqb c "-"%char || Go.IsDigit c
  end.

(** A call that came back with a value or an error. *)
Definition returned {A : Type} (r : result A) : bool :=
  match r with Ok _ | Err _ => true | _ => false end.

(** [reflect.ValueOf(v).Kind() == reflect.Ptr]. *)
Definition is_pointer (v : any) : bool :=
  match v with
  | Some (TPtr _, _) => true
  | _ => false
  end.

(** The fields of a record that take part in the encoding, each with
    its value: those that are exported and not tagged [-]. *)
Fixpoint visible (fmt : format) (fs : list (StructField * gtype))
  (vs : list nval) : list ((StructField * gtype) * nval) :=
  match fs, vs with
  | (f, ft) :: fs', v :: vs' =>
      match wire_name fmt f with
      | None => visible fmt fs' vs'
      | Some _ => ((f, ft), v) :: visible fmt fs' vs'
      end
  | _, _ => []
  end.

(** What [escapeString] writes for one byte. *)
Definition escaped_byte (c : Go.byte) : string :=
  if Ascii.eqb c Go.c_backslash then "\\"
  else if Ascii.eqb c Go.c_quote then String Go.c_backslash (Go.str1 Go.c_quote)
  else if Ascii.eqb c Go.c_newline then "\n"
  else if Ascii.eqb c Go.c_return then "\r"
  else if Ascii.eqb c Go.c_tab then "\t"
  else Go.str1 c.

(** A string with none of the five bytes that [escapeString] rewrites. *)
Fixpoint plain (s : string) : bool :=
  match s with
  | EmptyString => true
  | String c s' =>
      negb (Ascii.eqb c Go.c_backslash || Ascii.eqb c Go.c_quote
            || Ascii.eqb c Go.c_newline || Ascii.eqb c Go.c_return
            || Ascii.eqb c Go.c_tab)
      && plain s'
  end.

(** The test of [readString], over a text: every double quote in [e]
    follows a backslash ([esc]: the byte before [e] is a backslash), and
    whether the text ends in a backslash. *)
Fixpoint quotes_escaped (esc : bool) (e : string) : bool :=
  match e with
  | EmptyString => true
  | String c e' =>
      (negb (Ascii.eqb c Go.c_quote) || esc)
      && quotes_escaped (Ascii.eqb c Go.c_backslash) e'
  end.
Fixpoint ends_in_backslash (esc : bool) (e : string) : bool :=
  match e with
  | EmptyString => esc
  | String c e' => ends_in_backslash (Ascii.eqb c Go.c_backslash) e'
  end.

(** Is the last byte of [pre] a backslash? The byte [readString] looks
    back at when the cursor is just past [pre]. *)
Definition backslash_before (pre : string) : bool :=
  match Go.at_ pre (Go.len pre - 1) with
  | Some b => Ascii.eqb b Go.c_backslash
  | None => false
  end.

(** No Integer in the value is negative. *)
Fixpoint no_negative (v : Value) : bool :=
  match v with
  | VInt z => (0 <=? z)%Z
  | VArray xs => forallb no_negative xs
  | VTable kvs => forallb (fun kv => no_negative (snd kv)) kvs
  | _ => true
  end.

(** A text of digits and minus signs, as [FormatInt] writes. *)
Fixpoint int_text (s : string) : bool :=
  match s with
  | EmptyString => true
  | String c s' => (Ascii.eqb c "-"%char || Go.IsDigit c) && int_text s'
  end.

(** The first byte of a bare key as a record's field gives it: a letter
    or an underscore, other than the [t] and the [f] that start a
    keyword of the lexer. *)
Definition key_letter (c : Go.byte) : bool :=
  let n := Go.code c in
  (((65 <=? n) && (n <=? 90)) || ((97 <=? n) && (n <=? 122)) || (n =? 95))
  && negb (Ascii.eqb c "t"%char) && negb (Ascii.eqb c "f"%char).

(* ================================================================= *)
(** ** Values that survive the JSON round trip *)

(** The value fits the width of the integer kind. *)
Definition in_width (k : int_kind) (z : Z) : bool :=
  ((- 2 ^ (int_bits k - 1) <=? z) && (z <? 2 ^ (int_bits k - 1)))%Z.

(** The wire names of the fields that take part, in order. *)
Fixpoint wire_names (fmt : format) (fs : list (StructField * gtype))
  : list string :=
  match fs with
  | [] => []
  | (f, _) :: fs' =>
      match wire_name fmt f with
      | Some name => name :: wire_names fmt fs'
      | None => wire_names fmt fs'
      end
  end.

Fixpoint distinct (names : list string) : bool :=
  match names with
  | [] => true
  | n :: rest => negb (existsb (String.eqb n) rest) && distinct rest
  end.

(** Values made of plain strings, signed integers that fit their width,
    booleans, slices and records all of whose fields take part under
    plain, pairwise distinct names. *)
Fixpoint faithful (t : gtype) (x : nval) {struct x} : bool :=
  match t, x with
  | TString, NString s => plain s
  | TInt k, NInt z => in_width k z
  | TBool, NBool _ => true
  | TSlice _, NSlice None => true
  | TSlice elem, NSlice (Some xs) => forallb (faithful elem) xs
  | TStruct fields, NStruct vs =>
      distinct (wire_names JSONf fields)
      && (fix each (fs : list (StructField * gtype)) (vs : list nval)
            {struct vs} : bool :=
            match fs, vs with
            | [], [] => true
            | (f, ft) :: fs', v :: vs' =>
                match wire_name JSONf f with
                | Some name => plain name && faithful ft v && each fs' vs'
                | None => false
                end
            | _, _ => false
            end) fields vs
  | _, _ => false
  end.

(** The field loop of [faithful], on its own. *)
Fixpoint faithful_fields (fs : list (StructField * gtype)) (vs : list nval)
  {struct vs} : bool :=
  match fs, vs with
  | [], [] => true
  | (f, ft) :: fs', v :: vs' =>
      match wire_name JSONf f with
      | Some name => plain name && faithful ft v && faithful_fields fs' vs'
      | None => false
      end
  | _, _ => false
  end.

(** What the parser makes of the text [Marshal] writes for such a
    value. *)
Fixpoint value_of (t : gtype) (x : nval) {struct x} : Value :=
  match t, x with
  | TString, NString s => VString s
  | TInt _, NInt z => VInt z
  | TBool, NBool b => VBool b
  | TSlice elem, NSlice (Some xs) => VArray (map (value_of elem) xs)
  | TStruct fields, NStruct vs =>
      VTable
        ((fix each (fs : list (StructField * gtype)) (vs : list nval)
            (obj : table) {struct vs} : table :=
            match fs, vs with
            | (f, ft) :: fs', v :: vs' =>
                match wire_name JSONf f with
                | Some name => each fs' vs' (tbl_insert name (value_of ft v) obj)
                | None => each fs' vs' obj
                end
            | _, _ => obj
            end) fields vs [])
  | _, _ => VNull
  end.

Fixpoint value_fields (fs : list (StructField * gtype)) (vs : list nval)
  (obj : table) {struct vs} : table :=
  match fs, vs with
  | (f, ft) :: fs', v :: vs' =>
      match wire_name JSONf f with
      | Some name => value_fields fs' vs' (tbl_insert name (value_of ft v) obj)
      | None => value_fields fs' vs' obj
      end
  | _, _ => obj
  end.

(** The loops of [marshalArray] and [marshalStruct], on their own. *)
Fixpoint JSON_marshal_elems (elem : gtype) (xs : list nval)
  : result (list string) :=
  match xs with
  | [] => Ok []
  | y :: rest =>
      do element <- JSON.marshalValue elem y;
      do elements <- JSON_marshal_elems elem rest;
      Ok (element :: elements)
  end.

Fixpoint JSON_marshal_fields (fs : list (StructField * gtype)) (vs : list nval)
  {struct vs} : result (list string) :=
  match fs, vs with
  | (field, ft) :: fs', y :: vs' =>
      match wire_name JSONf field with
      | None => JSON_marshal_fields fs' vs'
      | Some name =>
          do valueBytes <- JSON.marshalValue ft y;
          do pairs <- JSON_marshal_fields fs' vs';
          Ok ((JSON.quoted name ++ ":" ++ valueBytes) :: pairs)
      end
  | _, _ => Ok []
  end.

(** The parser over [data] whose current token is the one that starts
    at byte [i]: the state after [p.next()] with the cursor at [i]. *)
Definition parser_at (data : string) (i : nat) : JSON.parser :=
  let '(t, l) := JSON.next (JSON.mkLexer data i) in JSON.mkParser l t.

(** The text [s], wherever it stands in a document and whatever follows
    it that does not continue a number, is parsed as the value of [x],
    the parser being left on the token that follows the text. *)
Definition parses_at (t : gtype) (x : nval) (s : string) : Prop :=
  forall pre rest fuel,
    stops_at rest -> Go.len s < fuel ->
    JSON.parseValue fuel (parser_at (pre ++ s ++ rest) (Go.len pre))
    = Ok (value_of t x,
          parser_at (pre ++ s ++ rest) (Go.len pre + Go.len s)).

(** The pairs [marshalStruct] writes for the fields of a record all of
    which take part under plain names, each value's text being parsed
    as the value. *)
Inductive fields_at
  : list (StructField * gtype) -> list nval -> list string -> Prop :=
| fields_at_nil : fields_at [] [] []
| fields_at_cons f ft v name e fs vs ps :
    wire_name JSONf f = Some name -> plain name = true ->
    parses_at ft v e -> fields_at fs vs ps ->
    fields_at ((f, ft) :: fs) (v :: vs)
      ((JSON.quoted name ++ ":" ++ e) :: ps).

(** Each field's wire name is a key of [obj], with the value of the
    field. *)
Fixpoint looked_up (obj : table) (fs : list (StructField * gtype))
  (vs : list nval) : Prop :=
  match fs, vs with
  | (f, ft) :: fs', v :: vs' =>
      (forall name, wire_name JSONf f = Some name ->
         tbl_lookup name obj = Some (value_of ft v))
      /\ looked_up obj fs' vs'
  | _, _ => True
  end.

(** A record for the round trip: a name, a list of tags, a small
    integer and a nested record. *)
Definition trip_type : gtype :=
  TStruct [ (mkField "Name" true [("json", "name")], TString);
            (mkField "Tags" true [("json", "tags,omitempty")], TSlice TString);
            (mkField "Level" true [], TInt KInt8);
            (mkField "On" true [], TBool);
            (mkField "Inner" true [("json", "in")],
               TStruct [(mkField "Ids" true [], TSlice (TInt KInt64))]) ].
Definition trip_value : nval :=
  NStruct [ NString "a b"; NSlice (Some [NString "x"; NString ""]);
            NInt (-128); NBool true;
            NStruct [NSlice (Some [NInt 0; NInt (-9223372036854775808)])] ].

(* ================================================================= *)
(** ** Destinations that pointers refer into

    [setValue] above takes its destination as a tree, in which a pointer
    owns its pointee. That is the destination of the source when no
    pointer holds the address of a variable that is also reached another
    way: for such a variable, writing in place and rebuilding the tree
    are the same. The source itself writes in place, through
    [rv.Field(i)] and [rv.Elem()]; where a pointer of the destination
    holds the address of a variable of the destination ([d.P = &d.B]),
    what is decoded through the pointer is written to that variable.

    For these destinations the variables are kept in a store, and
    [setValue_at] is [setValue] on a variable of the store. A variable is
    - [HOwn x]: a variable that holds the tree [x]; a pointer of the
      store may hold the address of the variable as a whole, none holds
      the address of a part of it, and a pointer inside [x] owns its
      pointee;
    - [HRef target]: a pointer variable that holds the address of the
      variable at [target];
    - [HStruct fs]: a record variable whose fields are variables of the
      store, so that pointers can hold their addresses.
    The store is one such variable, the root, whose fields are the
    variables of the destination: the one decoded into and those its
    pointers lead to. A path gives the field indices that lead from the
    root to a variable. *)

Definition path := list nat.

Inductive hval : Type :=
| HOwn (x : nval)
| HRef (target : path)
| HStruct (fs : list hval).

Definition store := hval.

(** The variable at a path. Only the fields of [HStruct] records are
    variables of the store. *)
Fixpoint sget (s : hval) (p : path) : option hval :=
  match p with
  | [] => Some s
  | i :: rest =>
      match s with
      | HStruct fs =>
          match nth_error fs i with
          | Some v => sget v rest
          | None => None
          end
      | _ => None
      end
  end.

Fixpoint list_update {A : Type} (l : list A) (i : nat) (f : A -> A) : list A :=
  match l, i with
  | [], _ => []
  | x :: rest, O => f x :: rest
  | x :: rest, S j => x :: list_update rest j f
  end.

(** Assign to the variable at a path. *)
Fixpoint sset (s : hval) (p : path) (v : hval) : hval :=
  match p with
  | [] => v
  | i :: rest =>
      match s with
      | HStruct fs => HStruct (list_update fs i (fun x => sset x rest v))
      | other => other
      end
  end.

(** [rv.Set(reflect.Zero(rv.Type()))] on a variable of the store: a
    record is zeroed field by field, where it is; a nil pointer refers to
    nothing. *)
Fixpoint zero_at (t : gtype) (v : hval) {struct t} : hval :=
  match t, v with
  | TStruct fields, HStruct fs =>
      HStruct
        ((fix each (fields : list (StructField * gtype)) (fs : list hval)
            {struct fields} : list hval :=
            match fields, fs with
            | (_, ft) :: fields', v :: fs' => zero_at ft v :: each fields' fs'
            | _, rest => rest
            end) fields fs)
  | _, _ => HOwn (zero t)
  end.

Fixpoint zero_fields_at (fields : list (StructField * gtype)) (fs : list hval)
  {struct fields} : list hval :=
  match fields, fs with
  | (_, ft) :: fields', v :: fs' => zero_at ft v :: zero_fields_at fields' fs'
  | _, rest => rest
  end.

(** How a decode into a variable of the store ends: the store as the
    call left it with the returned error, or a panic. *)
Inductive stored : Type :=
| Stored (s : store) (err : option error)
| StorePanicked (p : panic)
| StoreDiverged.

(** The outcome of [setValue] on a variable that holds a tree, put back
    in the store. *)
Definition store_at (s : store) (p : path) (d : decoded) : stored :=
  match d with
  | Decoded x e => Stored (sset s p (HOwn x)) e
  | Panicked k => StorePanicked k
  | Diverged => StoreDiverged
  end.

(** [setValue(rv, value)], [rv] being the variable of type [t] at [p].
    - On a variable that holds a tree, it is [setValue], the variable
      taking the tree that [setValue] leaves.
    - [case reflect.Ptr] on a pointer that holds an address: a nil value
      sets the pointer to nil; otherwise [rv.IsNil()] is false and the
      value is decoded by [s.setValue(rv.Elem(), value)], that is into
      the variable the pointer refers to, where it is.
    - [case reflect.Struct] on a record of variables: a nil value zeroes
      it; a table is decoded field by field into [rv.Field(i)], the
      store going from one field to the next, up to the first error.
    A variable that does not have the type [t], or a path to no variable,
    is not a [reflect.Value] of Go: the call returns the error of an
    invalid Value and writes nothing. *)
Fixpoint setValue_at (fmt : format) (t : gtype) (p : path) (value : Value)
  (s : store) {struct t} : stored :=
  match sget s p with
  | Some (HOwn x) => store_at s p (setValue fmt t x value)
  | Some (HRef target) =>
      match t with
      | TPtr elem =>
          match value with
          | VNull => Stored (sset s p (HOwn (zero t))) None
          | _ => setValue_at fmt elem target value s
          end
      | _ => Stored s (Some (UnsupportedType Invalid))
      end
  | Some (HStruct fs) =>
      match t with
      | TStruct fields =>
          match value with
          | VNull => Stored (sset s p (zero_at t (HStruct fs))) None
          | VTable obj =>
              let fix set_fields_at (fs : list (StructField * gtype)) (i : nat)
                (s : store) {struct fs} : stored :=
                match fs with
                | [] => Stored s None
                | (field, ft) :: fs' =>
                    match wire_name fmt field with
                    | None => set_fields_at fs' (S i) s         (* continue *)
                    | Some name =>
                        match tbl_lookup name obj with
                        | Some x =>
                            match setValue_at fmt ft (p ++ [i])%list x s with
                            | Stored s' None => set_fields_at fs' (S i) s'
                            | other => other
                            end
                        | None => set_fields_at fs' (S i) s
                        end
                    end
                end in
              set_fields_at fields 0 s
          | _ => Stored s (Some (TypeMismatch "struct"))
          end
      | _ => Stored s (Some (UnsupportedType Invalid))
      end
  | None => Stored s (Some (UnsupportedType Invalid))
  end.

(** The field loop of the [Struct] case of [setValue_at], from field
    [i] on, on its own for the proofs. *)
Fixpoint set_fields_at (fmt : format) (obj : table) (p : path)
  (fs : list (StructField * gtype)) (i : nat) (s : store) {struct fs} : stored :=
  match fs with
  | [] => Stored s None
  | (field, ft) :: fs' =>
      match wire_name fmt field with
      | None => set_fields_at fmt obj p fs' (S i) s
      | Some name =>
          match tbl_lookup name obj with
          | Some x =>
              match setValue_at fmt ft (p ++ [i])%list x s with
              | Stored s' None => set_fields_at fmt obj p fs' (S i) s'
              | other => other
              end
          | None => set_fields_at fmt obj p fs' (S i) s
          end
      end
  end.

(** [p] leads to [q] or to a variable inside it. *)
Fixpoint prefix (q p : path) : bool :=
  match q, p with
  | [], _ => true
  | i :: q', j :: p' => Nat.eqb i j && prefix q' p'
  | _ :: _, [] => false
  end.

(** Two variables neither of which is a part of the other. *)
Definition apart (p r : path) : bool :=
  negb (prefix p r) && negb (prefix r p).

(** No pointer of [v] holds the address of the variable at [r], of a
    part of it, or of a record it is a part of. *)
Fixpoint no_ref_into (r : path) (v : hval) : bool :=
  match v with
  | HOwn _ => true
  | HRef target => apart target r
  | HStruct fs => forallb (no_ref_into r) fs
  end.

(** The record with the fields [vs] as a record of variables, none of
    them a pointer that holds an address. *)
Definition record_of (vs : list nval) : hval := HStruct (map HOwn vs).

(** [type T struct { B int; P *int }], and a store whose one variable
    is a [d] of that type with [d.P = &d.B]. *)
Definition aliased_fields : list (StructField * gtype) :=
  [ (mkField "B" true [], TInt KInt);
    (mkField "P" true [], TPtr (TInt KInt)) ].
Definition aliased_store (b : Z) : store :=
  HStruct [ HStruct [ HOwn (NInt b); HRef [0; 0] ] ].

(** The same type, [d.P] holding the address of another variable [n]. *)
Definition pointing_out_store (b n : Z) : store :=
  HStruct [ HStruct [ HOwn (NInt b); HRef [1] ]; HOwn (NInt n) ].

(* ================================================================= *)
(** * Properties *)

(** ** The models of the library functions, on known values *)

Example FormatInt_negative : Go.FormatInt (-42) = "-42".
Proof. reflexivity. Qed.

Example ParseInt_bounds :
  Go.ParseInt "-9223372036854775808" = Some Go.int64_min
  /\ Go.ParseInt "9223372036854775808" = None
  /\ Go.ParseInt "1e" = None.
Proof. repeat split; reflexivity. Qed.

(** 3.14 is [0x40091EB851EB851F]. *)
Example ParseFloat_3_14 :
  Go.ParseFloat "3.14" = Some (S754_finite false 7070651414971679 (-51)).
Proof. vm_compute. reflexivity. Qed.

Example FormatFloat_shortest :
  option_map Go.FormatFloat (Go.ParseFloat "0.30000000000000004")
    = Some "0.30000000000000004"
  /\ option_map Go.FormatFloat (Go.ParseFloat "3.0") = Some "3"
  /\ option_map Go.FormatFloat (Go.ParseFloat "1.e21")
    = Some "1000000000000000000000".
Proof. repeat split; vm_compute; reflexivity. Qed.

(* ================================================================= *)
(** ** The decoder *)

Lemma setValue_struct fmt fields cur obj :
  setValue fmt (TStruct fields) cur (VTable obj)
  = set_fields fmt obj fields (match cur with NStruct vs => vs | _ => [] end).
Proof.
  cbn [setValue].
  generalize (match cur with NStruct vs => vs | _ => [] end).
  induction fields as [|[field ft] fs IH]; intros vs.
  - reflexivity.
  - destruct vs as [|v vs']; [reflexivity|].
    cbn [set_fields]. rewrite <- IH. reflexivity.
Qed.

Lemma inside_cons_length x d :
  forall dst err, inside (cons_field x) d = Decoded dst err ->
  exists dst', d = Decoded dst' err /\ dst = cons_field x dst'.
Proof.
  destruct d; cbn; intros dst' err' H; try discriminate.
  inversion H; subst. eauto.
Qed.

(** The struct loop returns a struct of the same number of fields, and a
    field it does not touch keeps its value, whether or not a later
    field fails. *)
Lemma set_fields_frame fmt obj :
  forall fs vs dst err,
    set_fields fmt obj fs vs = Decoded dst err ->
    exists vs', dst = NStruct vs' /\ List.length vs' = List.length vs
      /\ forall i f ft, nth_error fs i = Some (f, ft) ->
           untouched fmt obj f = true -> nth_error vs' i = nth_error vs i.
Proof.
  induction fs as [|[field ft] fs IH]; intros vs dst err H.
  - cbn in H. inversion H; subst. exists vs. auto.
  - destruct vs as [|v vs].
    { cbn in H. inversion H; subst. exists []. auto. }
    cbn [set_fields] in H.
    assert (Hkeep : forall x dst err,
      inside (cons_field x) (set_fields fmt obj fs vs) = Decoded dst err ->
      exists vs', dst = NStruct (x :: vs')
        /\ List.length vs' = List.length vs
        /\ forall i f ft', nth_error fs i = Some (f, ft') ->
             untouched fmt obj f = true -> nth_error vs' i = nth_error vs i).
    { intros x dst0 err0 H0.
      apply inside_cons_length in H0 as (dst' & Hd & ->).
      apply IH in Hd as (vs' & -> & Hlen & Hfr).
      exists vs'. auto. }
    assert (Hdone : forall x vs',
      List.length vs' = List.length vs ->
      (forall i f ft', nth_error fs i = Some (f, ft') ->
         untouched fmt obj f = true -> nth_error vs' i = nth_error vs i) ->
      (untouched fmt obj field = true -> x = v) ->
      exists ws, NStruct (x :: vs') = NStruct ws
        /\ List.length ws = List.length (v :: vs)
        /\ forall i f ft', nth_error ((field, ft) :: fs) i = Some (f, ft') ->
             untouched fmt obj f = true -> nth_error ws i = nth_error (v :: vs) i).
    { intros x vs' Hlen Hfr Hx. exists (x :: vs').
      split; [reflexivity|]. split; [cbn; congruence|].
      intros [|i] f ft' Hn Hu; cbn in Hn |- *.
      - inversion Hn; subst. rewrite Hx; auto.
      - eapply Hfr; eauto. }
    assert (Hpresent : forall name x, wire_name fmt field = Some name ->
              tbl_lookup name obj = Some x -> untouched fmt obj field = false).
    { intros name x Hw Hl. unfold untouched. rewrite Hw, Hl. reflexivity. }
    destruct (wire_name fmt field) as [name|] eqn:Hw.
    + destruct (tbl_lookup name obj) as [x|] eqn:Hl.
      * specialize (Hpresent name x eq_refl Hl).
        destruct (setValue fmt ft v x) as [v' [e|]| |] eqn:Hs; try discriminate.
        -- inversion H; subst. apply Hdone; auto; congruence.
        -- apply Hkeep in H as (vs' & -> & Hlen & Hfr).
           apply Hdone; auto; congruence.
      * apply Hkeep in H as (vs' & -> & Hlen & Hfr). apply Hdone; auto.
    + apply Hkeep in H as (vs' & -> & Hlen & Hfr). apply Hdone; auto.
Qed.

(** When the table has none of the record's keys the loop changes
    nothing and returns no error. *)
Lemma set_fields_absent fmt obj :
  forall fs vs,
    (forall f ft, In (f, ft) fs -> untouched fmt obj f = true) ->
    set_fields fmt obj fs vs = Decoded (NStruct vs) None.
Proof.
  induction fs as [|[field ft] fs IH]; intros vs Hall.
  - reflexivity.
  - destruct vs as [|v vs]; [reflexivity|].
    cbn [set_fields].
    assert (Hu := Hall field ft (or_introl eq_refl)). unfold untouched in Hu.
    rewrite IH by (intros; eapply Hall; right; eauto).
    destruct (wire_name fmt field) as [name|]; [|reflexivity].
    destruct (tbl_lookup name obj); [discriminate|reflexivity].
Qed.

(** An error of the struct loop is the error of decoding one field whose
    key the table has. *)
Lemma set_fields_error fmt obj :
  forall fs vs dst e,
    set_fields fmt obj fs vs = Decoded dst (Some e) ->
    exists i f ft name x v v',
      nth_error fs i = Some (f, ft) /\ nth_error vs i = Some v
      /\ wire_name fmt f = Some name /\ tbl_lookup name obj = Some x
      /\ setValue fmt ft v x = Decoded v' (Some e).
Proof.
  induction fs as [|[field ft] fs IH]; intros vs dst e H.
  - cbn in H. discriminate.
  - destruct vs as [|v vs]; [cbn in H; discriminate|].
    cbn [set_fields] in H.
    assert (Hkeep : forall y dst,
      inside (cons_field y) (set_fields fmt obj fs vs) = Decoded dst (Some e) ->
      exists i f ft' name x w w',
        nth_error ((field, ft) :: fs) i = Some (f, ft')
        /\ nth_error (v :: vs) i = Some w
        /\ wire_name fmt f = Some name /\ tbl_lookup name obj = Some x
        /\ setValue fmt ft' w x = Decoded w' (Some e)).
    { intros y dst0 H0.
      apply inside_cons_length in H0 as (dst' & Hd & _).
      apply IH in Hd as (i & f & ft' & name & x & w & w' & Hd).
      exists (S i), f, ft', name, x, w, w'. exact Hd. }
    destruct (wire_name fmt field) as [name|] eqn:Hw; [|eapply Hkeep; eassumption].
    destruct (tbl_lookup name obj) as [x|] eqn:Hl; [|eapply Hkeep; eassumption].
    destruct (setValue fmt ft v x) as [v' [e'|]| |] eqn:Hs;
      try discriminate; [|eapply Hkeep; eassumption].
    inversion H; subst.
    exists 0, field, ft, name, x, v, v'. auto.
Qed.

(** C4, as the code has it. Decoding a source Null: a pointer, sequence,
    mapping, record or interface target is reset to its zero value and
    no error is returned; any other target (the scalars: string,
    integer, float, boolean) is left as it was and a type-mismatch error
    is returned. The reset also happens to an already-populated field of
    an enclosing record. *)
Theorem null_decoding (fmt : format) (t : gtype) (cur : nval) :
  setValue fmt t cur VNull
  = (if nullable t then Decoded (zero t) None
     else Decoded cur (Some (null_error t)))
  /\ forall f name v,
       wire_name fmt f = Some name -> nullable t = true ->
       setValue fmt (TStruct [(f, t)]) (NStruct [v]) (VTable [(name, VNull)])
       = Decoded (NStruct [zero t]) None.
Proof.
  assert (H : setValue fmt t cur VNull
              = (if nullable t then Decoded (zero t) None
                 else Decoded cur (Some (null_error t)))).
  { destruct t; reflexivity. }
  split; [exact H|].
  intros f name v Hw Hn.
  rewrite setValue_struct. cbn [set_fields].
  rewrite Hw. cbn [tbl_lookup]. rewrite String.eqb_refl.
  clear H.
  assert (H : setValue fmt t v VNull = Decoded (zero t) None).
  { destruct t; try discriminate; reflexivity. }
  rewrite H. reflexivity.
Qed.

(** The nested record of an already-populated destination is reset to
    all-zero by a null under its key; the other fields stay. *)
Example null_resets_populated_field :
  JSON.Unmarshal ("{" ++ q "nested" ++ ":null}")
    (ptr_to (TStruct (test_fields "json")) test_value)
  = Decoded
      (NPtr (Some (NStruct
         [ NString "test"; NInt 42;
           NFloat (S754_finite false 7070651414971679 (-51)); NBool true;
           NSlice (Some [NString "one"; NString "two"; NString "three"]);
           NStruct [NString ""] ])))
      None.
Proof. vm_compute. reflexivity. Qed.

(** Against C4 as the specification states it: Null into a scalar
    target is a type mismatch that leaves the target as it was, at
    [setValue] and through [Unmarshal]. *)
Lemma null_into_scalar_fails :
  setValue JSONf TString (NString "x") VNull
    = Decoded (NString "x") (Some (TypeMismatch "string"))
  /\ JSON.Unmarshal "null" (ptr_to (TInt KInt) (NInt 5))
    = Decoded (NPtr (Some (NInt 5))) (Some (TypeMismatch "int"))
  /\ JSON.Unmarshal "null" (ptr_to TBool (NBool true))
    = Decoded (NPtr (Some (NBool true))) (Some (TypeMismatch "bool")).
Proof. repeat split; vm_compute; reflexivity. Qed.

(** C7, as the code has it. The literal [3.0] is parsed as a Float and
    the literal [3] as an Integer, by both parsers; a Float source value
    decoded into an integer-kind target, signed or unsigned, is not
    refused: it is converted to a 64-bit integer (3.0 gives 3) and
    stored, wrapped to the width of the target. *)
Theorem float_into_integer_target :
  JSON.number_value "3.0" = Ok (VFloat float_three)
  /\ JSON.number_value "3" = Ok (VInt 3)
  /\ TOML.number_value "3.0" = Ok (VFloat float_three)
  /\ TOML.number_value "3" = Ok (VInt 3)
  /\ Go.int64_of_float float_three = 3%Z
  /\ Go.uint64_of_float float_three = 3%Z
  /\ (forall fmt k cur f,
        setValue fmt (TInt k) cur (VFloat f)
        = Decoded (NInt (Go.wrap_signed (int_bits k) (Go.int64_of_float f))) None)
  /\ (forall fmt k cur f,
        setValue fmt (TUint k) cur (VFloat f)
        = Decoded (NUint (Go.wrap_unsigned (uint_bits k) (Go.uint64_of_float f))) None).
Proof.
  repeat split; try (vm_compute; reflexivity).
Qed.

(** Against C7 as the specification states it: [3.0] decodes into an
    integer variable, and into an [int8] field, with no error. *)
Lemma float_literal_into_int :
  JSON.Unmarshal "3.0" (ptr_to (TInt KInt64) (NInt 0))
    = Decoded (NPtr (Some (NInt 3))) None
  /\ JSON.Unmarshal ("{" ++ JSON.quoted "n" ++ ":3.0}")
       (ptr_to (TStruct [(mkField "N" true [("json", "n")], TInt KInt8)])
               (NStruct [NInt 0]))
    = Decoded (NPtr (Some (NStruct [NInt 3]))) None.
Proof. split; vm_compute; reflexivity. Qed.

(** C9. A nil slice, of any element type, encodes as [null] in JSON and
    as [[]] in TOML, on its own ([Marshal]) and wherever [marshalValue]
    meets it (for TOML under any key prefix). *)
Theorem nil_sequence_encoding
  (time_Format : time_Time -> string) (type_String : gtype -> string)
  (elem : gtype) (prefix : string) :
  JSON.marshalValue (TSlice elem) (NSlice None) = Ok "null"
  /\ TOML.marshalValue time_Format type_String (TSlice elem) (NSlice None) prefix
     = Ok "[]"
  /\ JSON.Marshal (Some (TSlice elem, NSlice None)) = Ok "null"
  /\ TOML.Marshal time_Format type_String (Some (TSlice elem, NSlice None))
     = Ok "[]".
Proof. repeat split. Qed.

(* ================================================================= *)
(** ** Strings *)

Lemma get_beyond : forall s n, String.length s <= n -> String.get n s = None.
Proof.
  induction s as [|c s IH]; intros n Hn; [reflexivity|].
  destruct n as [|n]; cbn in *; [lia|]. apply IH. lia.
Qed.

Lemma get_within : forall s n c, String.get n s = Some c -> n < String.length s.
Proof.
  intros s n c H. destruct (Nat.lt_ge_cases n (String.length s)) as [|Hge]; auto.
  rewrite (get_beyond s n Hge) in H. discriminate.
Qed.

(* ================================================================= *)
(** ** The TOML lexer *)

(** [skipWhitespace] stops at the end of the input or on a byte that is
    not white space; a line feed is white space to it and is passed. *)
Lemma TOML_skipWhitespace_stops : forall fuel l,
  Go.len (TOML.input l) - TOML.pos l <= fuel ->
  match Go.at_ (TOML.input (TOML.skipWhitespace_loop fuel l))
               (TOML.pos (TOML.skipWhitespace_loop fuel l)) with
  | Some c => Ascii.eqb c Go.c_newline = false /\ Go.IsSpace c = false
  | None => True
  end.
Proof.
  induction fuel as [|fuel IH]; intros l Hle; cbn [TOML.skipWhitespace_loop].
  - unfold Go.at_. rewrite get_beyond; [exact I|]. unfold Go.len in Hle. lia.
  - destruct (Go.at_ (TOML.input l) (TOML.pos l)) as [c|] eqn:Hc.
    + apply get_within in Hc as Hlt.
      destruct (Ascii.eqb c Go.c_newline) eqn:Hnl.
      * apply IH. cbn. unfold Go.len in *. lia.
      * destruct (Go.IsSpace c) eqn:Hsp; cbn [negb].
        -- apply IH. cbn. unfold Go.len in *. lia.
        -- rewrite Hc. auto.
    + rewrite Hc. exact I.
Qed.

Lemma TOML_readString_typ : forall fuel start l,
  is_newline (TOML.typ (fst (TOML.readString_loop fuel start l))) = false.
Proof.
  induction fuel as [|fuel IH]; intros start l; cbn [TOML.readString_loop];
    [reflexivity|].
  destruct (Go.at_ (TOML.input l) (TOML.pos l)) as [c|]; [|reflexivity].
  match goal with |- context [if ?b then _ else _] => destruct b end;
    [reflexivity|apply IH].
Qed.

Lemma TOML_number_or_eof_typ l c :
  is_newline (TOML.typ (fst (TOML.number_or_eof l c))) = false.
Proof.
  unfold TOML.number_or_eof, TOML.readNumberOrDate.
  destruct (Ascii.eqb c "-" || Go.IsDigit c); [|reflexivity].
  destruct (TOML.readNumberOrDate_loop _ _ _) as [[|] l']; reflexivity.
Qed.

Lemma TOML_keyword_typ l c ty word :
  is_newline ty = false ->
  is_newline (TOML.typ (fst (TOML.keyword l c ty word))) = false.
Proof.
  intros Hty. unfold TOML.keyword.
  destruct (TOML.looking_at l word); [exact Hty|apply TOML_number_or_eof_typ].
Qed.

(** C3. For every state of the TOML lexer, [next] does not return the
    newline token: [skipWhitespace] has consumed every line feed before
    the token is scanned. On the input of one line feed [next] returns
    the EOF token with the cursor past the line feed, and a second
    statement on a second line is therefore a syntax error. *)
Theorem newline_is_never_a_token (time_Parse : string -> option time_Time) :
  (forall l, is_newline (TOML.typ (fst (TOML.next l))) = false)
  /\ TOML.next (TOML.newLexer nl) = (TOML.eof, TOML.mkLexer nl 1 2 2)
  /\ TOML.parseTable time_Parse
       (TOML.newParser (q "a" ++ " = 1" ++ nl ++ q "b" ++ " = 2"))
     = Err (SyntaxError "newline or EOF" "b").
Proof.
  split; [|split; vm_compute; reflexivity].
  intros l. unfold TOML.next.
  pose proof (TOML_skipWhitespace_stops
                (Go.len (TOML.input l) - TOML.pos l) l (Nat.le_refl _)) as Hstop.
  fold (TOML.skipWhitespace l) in Hstop.
  destruct (Go.at_ (TOML.input (TOML.skipWhitespace l))
                   (TOML.pos (TOML.skipWhitespace l))) as [c|]; [|reflexivity].
  destruct Hstop as [Hnl _]. rewrite Hnl.
  repeat match goal with
         | |- context [if Ascii.eqb c ?x then _ else _] =>
             destruct (Ascii.eqb c x); [try reflexivity|]
         end;
    try apply TOML_number_or_eof_typ;
    try (apply TOML_keyword_typ; reflexivity).
  apply TOML_readString_typ.
Qed.

(* ================================================================= *)
(** ** The TOML parser: table headers *)

Lemma tbl_lookup_insert key v : forall t, tbl_lookup key (tbl_insert key v t) = Some v.
Proof.
  induction t as [|[k w] t IH]; cbn.
  - rewrite String.eqb_refl. reflexivity.
  - destruct (String.eqb k key) eqn:Hk; cbn; rewrite Hk; auto.
Qed.

Lemma tbl_lookup_insert_other key k v : forall t,
  String.eqb key k = false ->
  tbl_lookup k (tbl_insert key v t) = tbl_lookup k t.
Proof.
  intros t Hne. induction t as [|[k' w] t IH]; cbn.
  - rewrite Hne. reflexivity.
  - destruct (String.eqb k' key) eqn:Hk; cbn.
    + apply String.eqb_eq in Hk. subst k'. rewrite Hne. reflexivity.
    + destruct (String.eqb k' k); auto.
Qed.

Lemma flat_lookup : forall t k v,
  flat t = true -> tbl_lookup k t = Some v -> no_table v = true.
Proof.
  induction t as [|[k' w] t IH]; intros k v Hf Hl; cbn in *; [discriminate|].
  apply andb_true_iff in Hf as [Hw Hf].
  destruct (String.eqb k' k); [inversion Hl; subst; exact Hw|eauto].
Qed.

Lemma flat_insert key v : forall t,
  flat t = true -> no_table v = true -> flat (tbl_insert key v t) = true.
Proof.
  induction t as [|[k w] t IH]; intros Hf Hv; cbn in *.
  - rewrite Hv. reflexivity.
  - apply andb_true_iff in Hf as [Hw Hf].
    destruct (String.eqb k key); cbn; rewrite ?Hv, ?Hw, ?Hf, ?IH; auto.
Qed.

(** Writing through the cursor, then reading through it. *)
Lemma sub_table_update : forall cursor root t f,
  TOML.sub_table root cursor = Some t ->
  TOML.sub_table (TOML.update_at root cursor f) cursor = Some (f t).
Proof.
  induction cursor as [|k rest IH]; intros root t f H; cbn in *.
  - inversion H; reflexivity.
  - destruct (tbl_lookup k root) as [[]|] eqn:Hk; try discriminate.
    rewrite tbl_lookup_insert. eauto.
Qed.

Lemma sub_table_snoc : forall cursor root t key,
  TOML.sub_table root cursor = Some t ->
  TOML.sub_table root (cursor ++ [key])
  = match tbl_lookup key t with
    | Some (VTable t') => Some t'
    | _ => None
    end.
Proof.
  induction cursor as [|k rest IH]; intros root t key H; cbn in *.
  - inversion H; subst. destruct (tbl_lookup key t) as [[]|]; reflexivity.
  - destruct (tbl_lookup k root) as [[]|] eqn:Hk; try discriminate. eauto.
Qed.

Lemma header_state_lookup root cursor key :
  header_state root cursor ->
  match TOML.lookup_at root cursor key with
  | Some (VTable _) => False
  | _ => True
  end.
Proof.
  unfold TOML.lookup_at. intros [[-> Hf]|Hs].
  - cbn. destruct (tbl_lookup key root) as [v|] eqn:Hl; [|exact I].
    apply (flat_lookup _ _ _ Hf) in Hl. destruct v; try exact I. discriminate.
  - rewrite Hs. exact I.
Qed.

Lemma navigate_state : forall keys root cursor seen root' cursor',
  header_state root cursor ->
  TOML.navigate root cursor seen keys = Ok (root', cursor') ->
  header_state root' cursor'.
Proof.
  induction keys as [|key rest IH]; intros root cursor seen root' cursor' Hst H;
    cbn [TOML.navigate] in H.
  - inversion H; subst. exact Hst.
  - pose proof (header_state_lookup root cursor key Hst) as Hno.
    destruct (TOML.lookup_at root cursor key) as [v|] eqn:Hl.
    + rewrite Hl in H. destruct v; try discriminate. contradiction.
    + assert (Hsub : exists t, TOML.sub_table root cursor = Some t
                               /\ tbl_lookup key t = None).
      { unfold TOML.lookup_at in Hl.
        destruct Hst as [[-> _]|Hs].
        - cbn in *. eauto.
        - rewrite Hs in *. eauto. }
      destruct Hsub as (t & Hs & Hk).
      pose proof (sub_table_update cursor root t
                    (tbl_insert key (VTable [])) Hs) as Hup.
      unfold TOML.lookup_at in H. rewrite Hup, tbl_lookup_insert in H.
      eapply IH; [|exact H].
      right. rewrite (sub_table_snoc _ _ _ key Hup), tbl_lookup_insert.
      reflexivity.
Qed.

Lemma TOML_parseValue_no_table time_Parse : forall fuel p v p',
  TOML.parseValue time_Parse fuel p = Ok (v, p') -> no_table v = true.
Proof.
  intros [|fuel] p v p' H; cbn [TOML.parseValue] in H; [discriminate|].
  destruct (TOML.typ (TOML.p_token p)); try discriminate.
  - inversion H; reflexivity.
  - unfold TOML.number_value in H.
    destruct (Go.contains_byte _ _).
    + destruct (Go.ParseFloat _); cbn in H; [inversion H; reflexivity|discriminate].
    + destruct (Go.ParseInt _); cbn in H; [inversion H; reflexivity|discriminate].
  - inversion H; reflexivity.
  - inversion H; reflexivity.
  - destruct (time_Parse _); [inversion H; reflexivity|discriminate].
  - destruct (TOML.parseArray _ _ _) as [[arr p1]| | |]; cbn in H;
      [inversion H; reflexivity|discriminate..].
Qed.

(** No run of the statement loop that starts at the root of a flat
    table gets past a table header: the last path segment is looked up
    where nothing can be, so the header ends in an error or a panic, and
    a table that is returned is flat. *)
Lemma parseTable_loop_flat time_Parse : forall fuel root p tbl,
  flat root = true ->
  TOML.parseTable_loop time_Parse fuel root [] p = Ok tbl ->
  flat tbl = true.
Proof.
  induction fuel as [|fuel IH]; intros root p tbl Hf H;
    cbn [TOML.parseTable_loop] in H; [discriminate|].
  destruct (TOML.typ (TOML.p_token p)); try discriminate.
  - inversion H; subst; exact Hf.
  - (* key = value *)
    destruct (TOML.typ (TOML.p_token (TOML.advance_token p))); try discriminate.
    destruct (TOML.parseValue _ _ _) as [[v p1]| | |] eqn:Hv; cbn in H;
      try discriminate.
    apply TOML_parseValue_no_table in Hv.
    destruct (TOML.typ (TOML.p_token p1)); try discriminate;
      (eapply IH; [|exact H]; apply flat_insert; assumption).
  - (* [ header ] *)
    destruct (TOML.parseTablePath _) as [[path p1]| | |]; cbn [bind] in H;
      try discriminate.
    destruct (TOML.typ (TOML.p_token p1)); try discriminate.
    destruct path as [|k path]; [discriminate|].
    destruct (TOML.navigate root [] [] (removelast (k :: path)))
      as [[root' cursor]| | |] eqn:Hn; cbn [bind] in H; try discriminate.
    apply navigate_state in Hn; [|left; auto].
    pose proof (header_state_lookup root' cursor (last (k :: path) "") Hn) as Hno.
    destruct (TOML.lookup_at root' cursor (last (k :: path) "")) as [[]|];
      try discriminate.
    contradiction.
Qed.

(* ================================================================= *)
(** ** Where the code departs from the specification *)

(** C1. Round trip. It holds for the record of the JSON package's own
    test. It fails in JSON for a string with a double quote (the encoder
    escapes it, the lexer keeps the escape) and for the float 3.0
    (encoded as [3], read as an Integer, refused by a float target); and
    in TOML for any record with a non-zero field, such as the package's
    own test record: the encoder writes bare keys, the lexer answers a
    bare key with the EOF token, and the decode returns without an error
    and without writing anything. *)
Theorem round_trip_fails
  (time_Parse : string -> option time_Time)
  (time_Format : time_Time -> string) (type_String : gtype -> string) :
  (* JSON, the test record: the round trip holds *)
  (exists data,
      JSON.Marshal (Some (TStruct (test_fields "json"), test_value)) = Ok data
      /\ JSON.Unmarshal data
           (ptr_to (TStruct (test_fields "json")) (zero (TStruct (test_fields "json"))))
         = Decoded (NPtr (Some test_value)) None)
  (* JSON, a string that is one double quote *)
  /\ JSON.Marshal (Some (one_string, NStruct [NString (Go.str1 Go.c_quote)]))
     = Ok ("{" ++ q "S" ++ ":" ++ q (String "\" (Go.str1 Go.c_quote)) ++ "}")
  /\ JSON.Unmarshal ("{" ++ q "S" ++ ":" ++ q (String "\" (Go.str1 Go.c_quote)) ++ "}")
       (ptr_to one_string (zero one_string))
     = Decoded (NPtr (Some (NStruct [NString (String "\" (Go.str1 Go.c_quote))]))) None
  (* JSON, the float 3.0 *)
  /\ JSON.Marshal (Some (one_float, NStruct [NFloat float_three]))
     = Ok ("{" ++ q "F" ++ ":3}")
  /\ JSON.Unmarshal ("{" ++ q "F" ++ ":3}") (ptr_to one_float (zero one_float))
     = Decoded (NPtr (Some (zero one_float))) (Some (TypeMismatch "float"))
  (* TOML, a record with one integer field *)
  /\ TOML.Marshal time_Format type_String (Some (one_int, NStruct [NInt 1]))
     = Ok "A = 1"
  /\ TOML.Unmarshal time_Parse "A = 1" (ptr_to one_int (zero one_int))
     = Decoded (NPtr (Some (NStruct [NInt 0]))) None
  (* TOML, the test record *)
  /\ (exists data,
        TOML.Marshal time_Format type_String
          (Some (TStruct (test_fields "toml"), test_value)) = Ok data
        /\ TOML.Unmarshal time_Parse data
             (ptr_to (TStruct (test_fields "toml")) (zero (TStruct (test_fields "toml"))))
           = Decoded (NPtr (Some (zero (TStruct (test_fields "toml"))))) None).
Proof.
  split; [eexists; split; [vm_compute; reflexivity|vm_compute; reflexivity]|].
  do 6 (split; [vm_compute; reflexivity|]).
  eexists; split; [vm_compute; reflexivity|vm_compute; reflexivity].
Qed.

(** C2. Calls that end in a panic, not in a returned error: TOML
    [Unmarshal] of an empty table header (the slice [path[:len(path)-1]]
    with an empty path) and of a header with a quoted key (the unchecked
    type assertion on a key that is not there), whatever the
    destination; [Marshal] of a fixed-size array in both codecs
    ([IsNil] on an array); JSON [Unmarshal] of an object into a map
    whose keys are not strings ([SetMapIndex]). *)
Theorem calls_that_panic
  (time_Parse : string -> option time_Time)
  (time_Format : time_Time -> string) (type_String : gtype -> string) :
  (forall v, TOML.Unmarshal time_Parse "[]" v = Panicked SliceBoundsOutOfRange)
  /\ (forall v, TOML.Unmarshal time_Parse ("[" ++ q "a" ++ "]") v
                = Panicked InterfaceConversion)
  /\ (forall n elem xs,
        JSON.Marshal (Some (TArray n elem, NArray xs)) = Panic IsNilOnArray)
  /\ (forall n elem xs,
        TOML.Marshal time_Format type_String (Some (TArray n elem, NArray xs))
        = Panic IsNilOnArray)
  /\ JSON.Unmarshal ("{" ++ q "1" ++ ":2}")
       (ptr_to (TMap (TInt KInt) (TInt KInt)) (NMap None))
     = Panicked NotAssignable.
Proof.
  repeat split; intros; vm_compute; reflexivity.
Qed.

(** C5. The input [[a.b]], line feed, [k = 1] is refused with a syntax
    error at the header (a bare key is no token of this lexer); with the
    keys quoted the header panics; and no input at all is parsed into a
    root table that holds a table, so [root.a.b.k] is out of reach. *)
Theorem nested_table_header_fails (time_Parse : string -> option time_Time) :
  (forall v, TOML.Unmarshal time_Parse ("[a.b]" ++ nl ++ "k = 1") v
             = Decoded (held v) (Some (SyntaxError "]" "")))
  /\ TOML.parseTable time_Parse
       (TOML.newParser ("[" ++ q "a" ++ "." ++ q "b" ++ "]" ++ nl ++ q "k" ++ " = 1"))
     = Panic InterfaceConversion
  /\ (forall data tbl,
        TOML.parseTable time_Parse (TOML.newParser data) = Ok tbl ->
        flat tbl = true).
Proof.
  split; [intros v; vm_compute; reflexivity|].
  split; [vm_compute; reflexivity|].
  intros data tbl H. unfold TOML.parseTable in H.
  eapply parseTable_loop_flat; [|exact H]. reflexivity.
Qed.

(** C6. JSON [Unmarshal] of [{invalid json}] returns a syntax error and
    leaves the destination as it was. TOML [Unmarshal] of
    [invalid = toml]] returns no error: the first byte starts no token,
    the lexer answers EOF, the parser returns the empty table, and a
    record destination is left as it was. *)
Theorem malformed_toml_is_accepted (time_Parse : string -> option time_Time) :
  (forall v, JSON.Unmarshal "{invalid json}" v
             = Decoded (held v) (Some (SyntaxError "string key" "")))
  /\ TOML.parseTable time_Parse (TOML.newParser "invalid = toml]") = Ok []
  /\ (forall fields vs,
        TOML.Unmarshal time_Parse "invalid = toml]"
          (ptr_to (TStruct fields) (NStruct vs))
        = Decoded (NPtr (Some (NStruct vs))) None).
Proof.
  split; [intros v; vm_compute; reflexivity|].
  split; [vm_compute; reflexivity|].
  intros fields vs. unfold TOML.Unmarshal.
  replace (TOML.parseTable time_Parse (TOML.newParser "invalid = toml]"))
    with (@Ok table []) by (vm_compute; reflexivity).
  unfold ptr_to, decode_into.
  rewrite setValue_struct, set_fields_absent; [reflexivity|].
  intros f ft _. unfold untouched.
  destruct (wire_name TOMLf f); reflexivity.
Qed.

(* ================================================================= *)
(** ** The JSON lexer and parser on an input with text after it *)

Lemma get_some : forall s n, n < String.length s -> exists c, String.get n s = Some c.
Proof.
  induction s as [|c s IH]; intros n Hn; cbn in *; [lia|].
  destruct n as [|n]; [eauto|]. apply IH. lia.
Qed.

Lemma substring_nothing : forall s n, String.substring n 0 s = "".
Proof.
  induction s as [|c s IH]; intros [|n]; cbn; auto.
Qed.

Lemma substring_app : forall s t n m,
  n + m <= String.length s ->
  String.substring n m (s ++ t) = String.substring n m s.
Proof.
  induction s as [|c s IH]; intros t n m H; cbn in H.
  - assert (n = 0) by lia. assert (m = 0) by lia. subst.
    cbn. destruct t; reflexivity.
  - destruct n as [|n]; cbn.
    + destruct m as [|m]; [reflexivity|]. f_equal. apply IH. lia.
    + apply IH. lia.
Qed.

Lemma slice_app s t lo hi :
  hi <= Go.len s -> Go.slice (s ++ t) lo hi = Go.slice s lo hi.
Proof.
  intros H. unfold Go.slice, Go.len in *.
  destruct (Nat.le_gt_cases lo hi) as [Hle|Hgt].
  - apply substring_app. lia.
  - replace (hi - lo) with 0 by lia. rewrite !substring_nothing. reflexivity.
Qed.

Lemma at_app s t n : n < Go.len s -> Go.at_ (s ++ t) n = Go.at_ s n.
Proof.
  intros H. unfold Go.at_. symmetry. apply String.append_correct1. exact H.
Qed.

Lemma at_app_end s t : Go.at_ (s ++ t) (Go.len s) = Go.at_ t 0.
Proof.
  unfold Go.at_, Go.len.
  pose proof (String.append_correct2 s t 0) as H. cbn in H.
  symmetry. exact H.
Qed.

Lemma len_app s t : Go.len (s ++ t) = Go.len s + Go.len t.
Proof.
  unfold Go.len. induction s as [|c s IH]; cbn; auto.
Qed.

Section Trailing.
Variables s t : string.
Hypothesis Htail : number_tail s t = false.

Local Abbreviation relex := (relex_to (s ++ t)).
Local Abbreviation lift := (lift_to (s ++ t)).
Local Abbreviation stops_at_end := (stops_at t).
Local Abbreviation follows := (follows_on s (s ++ t)).

Lemma skipWhitespace_loop_input : forall fuel l,
  JSON.input (JSON.skipWhitespace_loop fuel l) = JSON.input l.
Proof.
  induction fuel as [|fuel IH]; intros l; cbn; [reflexivity|].
  destruct (Go.at_ _ _) as [c|]; [|reflexivity].
  destruct (Go.IsSpace c); [rewrite IH|]; reflexivity.
Qed.

Lemma skipWhitespace_loop_app : forall fuel fuel' l,
  JSON.input l = s ->
  Go.len s - JSON.pos l <= fuel ->
  Go.len (s ++ t) - JSON.pos l <= fuel' ->
  JSON.pos (JSON.skipWhitespace_loop fuel l) < Go.len s ->
  JSON.skipWhitespace_loop fuel' (relex l)
  = relex (JSON.skipWhitespace_loop fuel l).
Proof.
  induction fuel as [|fuel IH]; intros fuel' l Hin Hf Hf' Hlt; cbn in Hlt |- *.
  - lia.
  - rewrite Hin in *.
    destruct (Go.at_ s (JSON.pos l)) as [c|] eqn:Hc.
    + apply get_within in Hc as Hpos. fold (Go.len s) in Hpos.
      rewrite len_app in Hf'.
      destruct fuel' as [|fuel']; [lia|].
      cbn [JSON.skipWhitespace_loop relex_to JSON.input JSON.pos].
      rewrite at_app, Hc by exact Hpos.
      destruct (Go.IsSpace c); [|reflexivity].
      apply (IH fuel' (JSON.advance l 1)); cbn; auto; try lia.
      rewrite len_app. lia.
    + unfold Go.at_ in Hc.
      destruct (get_some s (JSON.pos l) Hlt) as [c Hc']. congruence.
Qed.

Lemma readString_loop_app : forall fuel fuel' start l tok l1,
  JSON.input l = s ->
  Go.len (s ++ t) - JSON.pos l <= fuel' ->
  JSON.readString_loop fuel start l = (tok, l1) ->
  is_eof (JSON.typ tok) = false ->
  JSON.readString_loop fuel' start (relex l) = (tok, relex l1)
  /\ JSON.input l1 = s /\ JSON.pos l1 <= Go.len s /\ JSON.pos l < JSON.pos l1.
Proof.
  induction fuel as [|fuel IH]; intros fuel' start l tok l1 Hin Hf' H Hty;
    cbn in H.
  - inversion H; subst. discriminate.
  - rewrite Hin in H.
    destruct (Go.at_ s (JSON.pos l)) as [c|] eqn:Hc;
      [|inversion H; subst; discriminate].
    apply get_within in Hc as Hpos. fold (Go.len s) in Hpos.
    rewrite len_app in Hf'.
    destruct fuel' as [|fuel']; [lia|].
    cbn [JSON.readString_loop relex_to JSON.input JSON.pos].
    rewrite at_app, Hc by exact Hpos.
    rewrite at_app by lia.
    destruct (Ascii.eqb c Go.c_quote
              && negb match Go.at_ s (JSON.pos l - 1) with
                      | Some b => Ascii.eqb b Go.c_backslash
                      | None => false
                      end).
    + inversion H; subst. cbn [JSON.advance JSON.input JSON.pos relex_to].
      rewrite slice_app by lia.
      repeat split; auto; lia.
    + destruct (IH fuel' start (JSON.advance l 1) tok l1) as (E & Hi & Hp & Hq);
        cbn; auto.
      * rewrite len_app. lia.
      * repeat split; auto. cbn in Hq. lia.
Qed.

Lemma number_byte_last c n :
  Go.at_ s n = Some c -> JSON.number_byte c = true -> n + 1 = Go.len s ->
  stops_at_end.
Proof.
  intros Hc Hnb Hn. unfold stops_at.
  unfold number_tail in Htail.
  replace (Go.len s - 1) with n in Htail by lia.
  rewrite Hc in Htail.
  destruct (Go.at_ t 0) as [b|]; [|exact I].
  rewrite Hnb in Htail. exact Htail.
Qed.

Lemma readNumber_loop_app : forall fuel fuel' l,
  JSON.input l = s ->
  JSON.pos l <= Go.len s ->
  Go.len s - JSON.pos l <= fuel ->
  Go.len (s ++ t) - JSON.pos l <= fuel' ->
  (JSON.pos l = Go.len s -> stops_at_end) ->
  JSON.readNumber_loop fuel' (relex l) = relex (JSON.readNumber_loop fuel l)
  /\ JSON.input (JSON.readNumber_loop fuel l) = s
  /\ JSON.pos (JSON.readNumber_loop fuel l) <= Go.len s
  /\ JSON.pos l <= JSON.pos (JSON.readNumber_loop fuel l).
Proof.
  assert (Hend : forall fuel' l, JSON.pos l = Go.len s -> stops_at_end ->
            JSON.readNumber_loop fuel' (relex l) = relex l).
  { intros [|fuel'] l Hp He;
      cbn [JSON.readNumber_loop relex_to JSON.input JSON.pos]; [reflexivity|].
    rewrite Hp, at_app_end. unfold stops_at in He.
    destruct (Go.at_ t 0) as [b|]; [rewrite He|]; reflexivity. }
  induction fuel as [|fuel IH]; intros fuel' l Hin Hle Hf Hf' Hstop;
    cbn [JSON.readNumber_loop].
  - split; [apply Hend; [lia|apply Hstop; lia]|]. auto.
  - rewrite Hin.
    destruct (Go.at_ s (JSON.pos l)) as [c|] eqn:Hc.
    + apply get_within in Hc as Hpos. fold (Go.len s) in Hpos.
      rewrite len_app in Hf'.
      destruct fuel' as [|fuel']; [lia|].
      cbn [JSON.readNumber_loop relex_to JSON.input JSON.pos].
      rewrite at_app, Hc by exact Hpos.
      destruct (JSON.number_byte c) eqn:Hnb; [|auto].
      destruct (IH fuel' (JSON.advance l 1)) as (E & Hi & Hp & Hq);
        cbn; auto; try lia.
      * rewrite len_app. lia.
      * intros Hl. eapply number_byte_last; eauto.
      * cbn in Hq. repeat split; auto. lia.
    + assert (JSON.pos l = Go.len s).
      { destruct (Nat.eq_dec (JSON.pos l) (Go.len s)) as [|Hne]; auto.
        destruct (get_some s (JSON.pos l)) as [c Hc'];
          [unfold Go.len in *; lia|].
        unfold Go.at_ in Hc. congruence. }
      split; [apply Hend; auto|]. auto.
Qed.

Lemma readNumber_app l tok l1 :
  JSON.input l = s -> JSON.pos l < Go.len s ->
  JSON.readNumber l = (tok, l1) ->
  JSON.readNumber (relex l) = (tok, relex l1)
  /\ JSON.input l1 = s /\ JSON.pos l1 <= Go.len s /\ JSON.pos l <= JSON.pos l1.
Proof.
  intros Hin Hlt H. unfold JSON.readNumber in *. cbn [JSON.input JSON.pos relex_to].
  rewrite Hin in H.
  destruct (readNumber_loop_app (Go.len s - JSON.pos l)
              (Go.len (s ++ t) - JSON.pos l) l) as (E & Hi & Hp & Hq);
    auto; try lia.
  fold (relex l). rewrite E. inversion H; subst. cbn [relex_to JSON.input JSON.pos].
  rewrite Hi, slice_app by exact Hp. auto.
Qed.

Lemma number_or_eof_app l c tok l1 :
  JSON.input l = s -> JSON.pos l < Go.len s ->
  JSON.number_or_eof l c = (tok, l1) ->
  is_eof (JSON.typ tok) = false ->
  JSON.number_or_eof (relex l) c = (tok, relex l1)
  /\ JSON.input l1 = s /\ JSON.pos l1 <= Go.len s /\ JSON.pos l <= JSON.pos l1.
Proof.
  intros Hin Hlt H Hty. unfold JSON.number_or_eof in *.
  destruct (Ascii.eqb c "-" || Go.IsDigit c).
  - apply readNumber_app; auto.
  - inversion H; subst. discriminate.
Qed.

Lemma keyword_app l c ty word tok l1 :
  JSON.input l = s -> JSON.pos l < Go.len s -> 0 < Go.len word ->
  Ascii.eqb c "-" || Go.IsDigit c = false ->
  JSON.keyword l c ty word = (tok, l1) ->
  is_eof (JSON.typ tok) = false ->
  JSON.keyword (relex l) c ty word = (tok, relex l1)
  /\ JSON.input l1 = s /\ JSON.pos l1 <= Go.len s /\ JSON.pos l <= JSON.pos l1.
Proof.
  intros Hin Hlt Hw Hc H Hty. unfold JSON.keyword in *.
  assert (Heof : JSON.number_or_eof l c = (tok, l1) -> False).
  { unfold JSON.number_or_eof. rewrite Hc. intros E.
    inversion E; subst. discriminate. }
  unfold JSON.looking_at in *. cbn [relex_to JSON.input JSON.pos].
  rewrite Hin in H.
  destruct (JSON.pos l + (Go.len word - 1) <? Go.len s) eqn:Hb; cbn [andb] in H;
    [|contradiction].
  apply Nat.ltb_lt in Hb.
  assert (Hb' : (JSON.pos l + (Go.len word - 1) <? Go.len (s ++ t)) = true).
  { apply Nat.ltb_lt. rewrite len_app. lia. }
  rewrite Hb', slice_app by lia. cbn [andb].
  destruct (String.eqb _ word); [|contradiction].
  inversion H; subst. cbn. repeat split; auto; lia.
Qed.


Lemma next_app l tok l1 :
  JSON.input l = s ->
  JSON.next l = (tok, l1) ->
  is_eof (JSON.typ tok) = false ->
  JSON.next (relex l) = (tok, relex l1) /\ JSON.input l1 = s.
Proof.
  intros Hin H Hty. unfold JSON.next, JSON.skipWhitespace in *.
  cbn [relex_to JSON.input JSON.pos]. rewrite Hin in H.
  set (l0 := JSON.skipWhitespace_loop (Go.len s - JSON.pos l) l) in *.
  assert (Hin0 : JSON.input l0 = s)
    by (unfold l0; rewrite skipWhitespace_loop_input; exact Hin).
  rewrite Hin0 in H.
  destruct (Go.at_ s (JSON.pos l0)) as [c|] eqn:Hc;
    [|inversion H; subst; discriminate].
  apply get_within in Hc as Hpos. fold (Go.len s) in Hpos.
  fold (relex l).
  rewrite (skipWhitespace_loop_app (Go.len s - JSON.pos l) _ l Hin)
    by (fold l0; lia).
  fold l0. cbn [relex_to JSON.input JSON.pos].
  rewrite at_app, Hc by exact Hpos.
  assert (Hpunct : forall ty text,
            (JSON.mkToken ty text, JSON.advance l0 1) = (tok, l1) ->
            (JSON.mkToken ty text, JSON.advance (relex l0) 1) = (tok, relex l1)
            /\ JSON.input l1 = s).
  { intros ty text E. inversion E; subst. auto. }
  repeat match type of H with
         | (if Ascii.eqb c ?x then _ else _) = _ =>
             destruct (Ascii.eqb c x) eqn:?; [try (apply Hpunct; exact H)|]
         end.
  - (* a string *)
    unfold JSON.readString in *. cbn [JSON.advance JSON.input JSON.pos relex_to] in *.
    rewrite Hin0 in H.
    destruct (readString_loop_app (Go.len s - (JSON.pos l0 + 1))
                (Go.len (s ++ t) - (JSON.pos l0 + 1))
                (JSON.pos l0) (JSON.advance l0 1) tok l1) as (E & Hi & _);
      auto.
  - apply Ascii.eqb_eq in Heqb6. subst c.
    destruct (keyword_app l0 "t" JSON.tokenTrue "true" tok l1) as (E & Hi & _);
      auto. cbn. lia.
  - apply Ascii.eqb_eq in Heqb7. subst c.
    destruct (keyword_app l0 "f" JSON.tokenFalse "false" tok l1) as (E & Hi & _);
      auto. cbn. lia.
  - apply Ascii.eqb_eq in Heqb8. subst c.
    destruct (keyword_app l0 "n" JSON.tokenNull "null" tok l1) as (E & Hi & _);
      auto. cbn. lia.
  - destruct (number_or_eof_app l0 c tok l1) as (E & Hi & _); auto.
Qed.


Lemma readString_loop_input : forall fuel start l,
  JSON.input (snd (JSON.readString_loop fuel start l)) = JSON.input l.
Proof.
  induction fuel as [|fuel IH]; intros start l; cbn; [reflexivity|].
  destruct (Go.at_ _ _) as [c|]; [|reflexivity].
  match goal with |- context [if ?b then _ else _] => destruct b end;
    [reflexivity|rewrite IH; reflexivity].
Qed.

Lemma readNumber_loop_input : forall fuel l,
  JSON.input (JSON.readNumber_loop fuel l) = JSON.input l.
Proof.
  induction fuel as [|fuel IH]; intros l; cbn; [reflexivity|].
  destruct (Go.at_ _ _) as [c|]; [|reflexivity].
  destruct (JSON.number_byte c); [rewrite IH|]; reflexivity.
Qed.

Lemma number_or_eof_input l c :
  JSON.input (snd (JSON.number_or_eof l c)) = JSON.input l.
Proof.
  unfold JSON.number_or_eof, JSON.readNumber.
  destruct (_ || _); cbn; [apply readNumber_loop_input|reflexivity].
Qed.

Lemma keyword_input l c ty word :
  JSON.input (snd (JSON.keyword l c ty word)) = JSON.input l.
Proof.
  unfold JSON.keyword.
  destruct (JSON.looking_at l word); [reflexivity|apply number_or_eof_input].
Qed.

(** The lexer never changes its input. *)
Lemma next_input l : JSON.input (snd (JSON.next l)) = JSON.input l.
Proof.
  unfold JSON.next, JSON.skipWhitespace.
  set (l0 := JSON.skipWhitespace_loop _ l).
  assert (Hin0 : JSON.input l0 = JSON.input l)
    by apply skipWhitespace_loop_input.
  rewrite <- Hin0.
  destruct (Go.at_ _ _) as [c|]; [|reflexivity].
  repeat match goal with
         | |- context [if Ascii.eqb c ?x then _ else _] =>
             destruct (Ascii.eqb c x); [try reflexivity|]
         end;
    try apply keyword_input; try apply number_or_eof_input.
  unfold JSON.readString. rewrite readString_loop_input. reflexivity.
Qed.

Lemma advance_token_follows p :
  JSON.input (JSON.p_lexer p) = s ->
  follows (JSON.advance_token p) (JSON.advance_token (lift p)).
Proof.
  intros Hin. unfold JSON.advance_token, follows_on.
  pose proof (next_input (JSON.p_lexer p)) as Hi.
  destruct (JSON.next (JSON.p_lexer p)) as [tok l1] eqn:E.
  cbn [snd JSON.p_lexer JSON.p_token lift_to] in *.
  split; [congruence|].
  intros Hty. destruct (next_app _ _ _ Hin E Hty) as [E' _].
  rewrite E'. reflexivity.
Qed.

Lemma follows_token p p' :
  follows p p' -> is_eof (JSON.typ (JSON.p_token p)) = false ->
  p' = lift p /\ JSON.input (JSON.p_lexer p) = s.
Proof. intros [Hin Hl] Hty. auto. Qed.

Local Abbreviation simulates := (simulates_on s (s ++ t)).

Section Loops.
Variables pv pv' : JSON.parser -> result (Value * JSON.parser).
Hypothesis Hsim : simulates pv pv'.
Hypothesis Heof : forall p v p1,
  pv p = Ok (v, p1) -> is_eof (JSON.typ (JSON.p_token p)) = false.

Lemma parseObject_loop_follows : forall fuel fuel' obj p p' r p1,
  fuel <= fuel' -> follows p p' ->
  JSON.parseObject_loop pv fuel obj p = Ok (r, p1) ->
  exists p1', JSON.parseObject_loop pv' fuel' obj p' = Ok (r, p1')
              /\ follows p1 p1'.
Proof.
  induction fuel as [|fuel IH]; intros fuel' obj p p' r p1 Hle Hfol H;
    cbn [JSON.parseObject_loop] in H; [discriminate|].
  destruct fuel' as [|fuel']; [lia|]. cbn [JSON.parseObject_loop].
  destruct (JSON.typ (JSON.p_token p)) eqn:Hty; try discriminate.
  destruct (follows_token p p' Hfol) as [-> Hin]; [rewrite Hty; reflexivity|].
  cbn [lift_to JSON.p_token]. rewrite Hty.
  pose proof (advance_token_follows p Hin) as Hf2.
  set (p2 := JSON.advance_token p) in *.
  destruct (JSON.typ (JSON.p_token p2)) eqn:Hty2; try discriminate.
  destruct (follows_token _ _ Hf2) as [E2 Hin2]; [rewrite Hty2; reflexivity|].
  fold (lift p). rewrite E2. cbn [lift_to JSON.p_token]. rewrite Hty2.
  pose proof (advance_token_follows p2 Hin2) as Hf3.
  destruct (pv (JSON.advance_token p2)) as [[v p4]| | |] eqn:Hpv;
    cbn [bind] in H; try discriminate.
  destruct (Hsim _ _ _ _ Hf3 Hpv) as (p4' & Hpv' & Hf4).
  fold (lift p2). rewrite Hpv'. cbn [bind].
  destruct (JSON.typ (JSON.p_token p4)) eqn:Hty4; try discriminate;
    (destruct (follows_token _ _ Hf4) as [E4 Hin4]; [rewrite Hty4; reflexivity|]);
    rewrite E4; cbn [lift_to JSON.p_token]; rewrite Hty4;
    fold (lift p4).
  - injection H as <- <-. eexists; split; [reflexivity|].
    apply advance_token_follows; exact Hin4.
  - eapply IH; [lia| |exact H]. apply advance_token_follows; exact Hin4.
Qed.

Lemma parseObject_follows fuel fuel' p r p1 :
  fuel <= fuel' -> JSON.input (JSON.p_lexer p) = s ->
  JSON.parseObject pv fuel p = Ok (r, p1) ->
  exists p1', JSON.parseObject pv' fuel' (lift p) = Ok (r, p1')
              /\ follows p1 p1'.
Proof.
  intros Hle Hin H. unfold JSON.parseObject in *.
  pose proof (advance_token_follows p Hin) as Hf2.
  set (p2 := JSON.advance_token p) in *.
  destruct (JSON.typ (JSON.p_token p2)) eqn:Hty2;
    try (destruct (follows_token _ _ Hf2) as [E2 Hin2];
         [rewrite Hty2; reflexivity|];
         rewrite E2; cbn [lift_to JSON.p_token]; rewrite Hty2; fold (lift p2)).
  all: try (eapply parseObject_loop_follows; [exact Hle| |exact H];
            split; [exact Hin2|reflexivity]).
  - (* the token after the brace is the end of the input *)
    destruct fuel; cbn [JSON.parseObject_loop] in H; [discriminate|].
    rewrite Hty2 in H. discriminate.
  - injection H as <- <-. eexists; split; [reflexivity|].
    apply advance_token_follows; exact Hin2.
Qed.

Lemma parseArray_loop_follows : forall fuel fuel' arr p p' r p1,
  fuel <= fuel' -> follows p p' ->
  JSON.parseArray_loop pv fuel arr p = Ok (r, p1) ->
  exists p1', JSON.parseArray_loop pv' fuel' arr p' = Ok (r, p1')
              /\ follows p1 p1'.
Proof.
  induction fuel as [|fuel IH]; intros fuel' arr p p' r p1 Hle Hfol H;
    cbn [JSON.parseArray_loop] in H; [discriminate|].
  destruct fuel' as [|fuel']; [lia|]. cbn [JSON.parseArray_loop].
  destruct (pv p) as [[v p4]| | |] eqn:Hpv; cbn [bind] in H; try discriminate.
  destruct (Hsim _ _ _ _ Hfol Hpv) as (p4' & Hpv' & Hf4).
  rewrite Hpv'. cbn [bind].
  destruct (JSON.typ (JSON.p_token p4)) eqn:Hty4; try discriminate;
    (destruct (follows_token _ _ Hf4) as [E4 Hin4]; [rewrite Hty4; reflexivity|]);
    rewrite E4; cbn [lift_to JSON.p_token]; rewrite Hty4;
    fold (lift p4).
  - injection H as <- <-. eexists; split; [reflexivity|].
    apply advance_token_follows; exact Hin4.
  - eapply IH; [lia| |exact H]. apply advance_token_follows; exact Hin4.
Qed.

Lemma parseArray_follows fuel fuel' p r p1 :
  fuel <= fuel' -> JSON.input (JSON.p_lexer p) = s ->
  JSON.parseArray pv fuel p = Ok (r, p1) ->
  exists p1', JSON.parseArray pv' fuel' (lift p) = Ok (r, p1')
              /\ follows p1 p1'.
Proof.
  intros Hle Hin H. unfold JSON.parseArray in *.
  pose proof (advance_token_follows p Hin) as Hf2.
  set (p2 := JSON.advance_token p) in *.
  destruct (JSON.typ (JSON.p_token p2)) eqn:Hty2;
    try (destruct (follows_token _ _ Hf2) as [E2 Hin2];
         [rewrite Hty2; reflexivity|];
         rewrite E2; cbn [lift_to JSON.p_token]; rewrite Hty2; fold (lift p2)).
  all: try (eapply parseArray_loop_follows; [exact Hle| |exact H];
            split; [exact Hin2|reflexivity]).
  - (* the token after the bracket is the end of the input *)
    destruct fuel; cbn [JSON.parseArray_loop] in H; [discriminate|].
    destruct (pv p2) as [[v p4]| | |] eqn:Hpv; cbn [bind] in H; try discriminate.
    apply Heof in Hpv. rewrite Hty2 in Hpv. discriminate.
  - injection H as <- <-. eexists; split; [reflexivity|].
    apply advance_token_follows; exact Hin2.
Qed.

End Loops.

Lemma parseValue_not_eof fuel p v p1 :
  JSON.parseValue fuel p = Ok (v, p1) ->
  is_eof (JSON.typ (JSON.p_token p)) = false.
Proof.
  destruct fuel; cbn [JSON.parseValue]; [discriminate|].
  destruct (JSON.typ (JSON.p_token p)); try discriminate; reflexivity.
Qed.

Lemma parseValue_follows : forall fuel fuel',
  fuel <= fuel' -> simulates (JSON.parseValue fuel) (JSON.parseValue fuel').
Proof.
  induction fuel as [|fuel IH]; intros fuel' Hle p p' v p1 Hfol H;
    cbn [JSON.parseValue] in H; [discriminate|].
  destruct fuel' as [|fuel']; [lia|]. cbn [JSON.parseValue].
  destruct (JSON.typ (JSON.p_token p)) eqn:Hty; try discriminate;
    (destruct (follows_token _ _ Hfol) as [-> Hin]; [rewrite Hty; reflexivity|]);
    cbn [lift_to JSON.p_token]; rewrite Hty; fold (lift p).
  - injection H as <- <-. eexists; split; [reflexivity|].
    apply advance_token_follows; exact Hin.
  - destruct (JSON.number_value _) as [x| | |]; cbn [bind] in *; try discriminate.
    injection H as <- <-. eexists; split; [reflexivity|].
    apply advance_token_follows; exact Hin.
  - injection H as <- <-. eexists; split; [reflexivity|].
    apply advance_token_follows; exact Hin.
  - injection H as <- <-. eexists; split; [reflexivity|].
    apply advance_token_follows; exact Hin.
  - injection H as <- <-. eexists; split; [reflexivity|].
    apply advance_token_follows; exact Hin.
  - destruct (JSON.parseObject _ _ _) as [[obj p2]| | |] eqn:Hobj;
      cbn [bind] in H; try discriminate.
    cbn [fst snd] in H. injection H as <- <-.
    destruct (parseObject_follows _ _ (IH fuel' ltac:(lia)) fuel fuel' p obj p2)
      as (p1' & E & Hf); auto; try lia.
    rewrite E. cbn. eauto.
  - destruct (JSON.parseArray _ _ _) as [[arr p2]| | |] eqn:Harr;
      cbn [bind] in H; try discriminate.
    cbn [fst snd] in H. injection H as <- <-.
    destruct (parseArray_follows _ _ (IH fuel' ltac:(lia))
                (parseValue_not_eof fuel) fuel fuel' p arr p2)
      as (p1' & E & Hf); auto; try lia.
    rewrite E. cbn. eauto.
Qed.

(** A value that is parsed from [s] is parsed from [s ++ t]. *)
Lemma parse_with_trailing value :
  parses s value -> parses (s ++ t) value.
Proof.
  intros [rest H]. unfold parses.
  assert (Hfol : follows (JSON.newParser s) (JSON.newParser (s ++ t))).
  { unfold JSON.newParser.
    pose proof (next_input (JSON.newLexer s)) as Hi.
    destruct (JSON.next (JSON.newLexer s)) as [tok l1] eqn:E.
    split; [exact Hi|]. intros Hty. cbn in Hty.
    destruct (next_app (JSON.newLexer s) tok l1 eq_refl E Hty) as [E' _].
    change (relex (JSON.newLexer s)) with (JSON.newLexer (s ++ t)) in E'.
    rewrite E'. reflexivity. }
  assert (Hle : JSON.fuel_for s <= JSON.fuel_for (s ++ t)).
  { unfold JSON.fuel_for. rewrite len_app. lia. }
  destruct (parseValue_follows _ _ Hle _ _ _ _ Hfol H) as (p1' & E & _).
  eauto.
Qed.

End Trailing.
(** C10, as the code has it. JSON [Unmarshal] parses one top-level value
    and never looks at what follows it: when the input [s] is a complete
    JSON value then, for every text [t] that does not continue a number
    token at the end of [s] (the last byte of [s] or the first byte of
    [t] is not a digit, [.], [-], [+], [e] or [E]), [s ++ t] parses to
    the same value, and [Unmarshal] of [s ++ t] decodes that value and
    returns exactly what [Unmarshal] of [s] returns: no error is raised
    for the trailing text. *)
Theorem trailing_content_is_ignored (s t : string) (v : any) (value : Value) :
  parses s value ->
  number_tail s t = false ->
  parses (s ++ t) value
  /\ JSON.Unmarshal (s ++ t) v = decode_into JSONf v value
  /\ JSON.Unmarshal (s ++ t) v = JSON.Unmarshal s v.
Proof.
  intros Hs Htail.
  pose proof (parse_with_trailing s t Htail value Hs) as Hst.
  split; [exact Hst|].
  destruct Hs as [rest Hs]. destruct Hst as [rest' Hst].
  unfold JSON.Unmarshal. rewrite Hs, Hst. auto.
Qed.

Lemma trailing_content_is_ignored_witness :
  parses "[1, 2]" (VArray [VInt 1; VInt 2])
  /\ number_tail "[1, 2]" "] , trailing {" = false
  /\ JSON.Unmarshal ("[1, 2]" ++ "] , trailing {")
       (ptr_to (TSlice (TInt KInt)) (NSlice None))
     = Decoded (NPtr (Some (NSlice (Some [NInt 1; NInt 2])))) None.
Proof.
  assert (Hs : parses "[1, 2]" (VArray [VInt 1; VInt 2])).
  { eexists. vm_compute. reflexivity. }
  assert (Ht : number_tail "[1, 2]" "] , trailing {" = false) by reflexivity.
  split; [exact Hs|]. split; [exact Ht|].
  destruct (trailing_content_is_ignored "[1, 2]" "] , trailing {"
              (ptr_to (TSlice (TInt KInt)) (NSlice None)) _ Hs Ht)
    as (_ & E & _).
  rewrite E. reflexivity.
Defined.

(** Against C10 as the specification states it, when the trailing
    text continues a number: [1] is a complete value and decodes; [1e] is refused by
    [strconv.ParseInt]; [12] decodes to another value; [1.] followed by
    [5.] is refused by [strconv.ParseFloat]. *)
Lemma trailing_text_after_a_number :
  parses "1" (VInt 1)
  /\ JSON.Unmarshal "1" (ptr_to (TInt KInt) (NInt 0))
     = Decoded (NPtr (Some (NInt 1))) None
  /\ JSON.Unmarshal ("1" ++ "e") (ptr_to (TInt KInt) (NInt 0))
     = Decoded (NPtr (Some (NInt 0))) (Some (NumError "1e"))
  /\ JSON.Unmarshal ("1" ++ "2") (ptr_to (TInt KInt) (NInt 0))
     = Decoded (NPtr (Some (NInt 12))) None
  /\ JSON.Unmarshal ("1." ++ "5.") (ptr_to (TInt KInt) (NInt 0))
     = Decoded (NPtr (Some (NInt 0))) (Some (NumError "1.5.")).
Proof.
  split; [eexists; vm_compute; reflexivity|].
  repeat split; vm_compute; reflexivity.
Qed.

(* ================================================================= *)
(** ** Every call returns: the fuel is enough *)

(** *** The decoder *)

Lemma inside_returns wrap d : diverges (inside wrap d) = diverges d.
Proof. destruct d; reflexivity. Qed.

Lemma set_elems_returns dec z :
  (forall v, diverges (dec z v) = false) ->
  forall arr, diverges (set_elems dec z arr) = false.
Proof.
  intros Hdec. induction arr as [|v arr IH]; cbn; [reflexivity|].
  specialize (Hdec v).
  destruct (dec z v) as [x [e|]| |]; try reflexivity; try discriminate.
  rewrite inside_returns. exact IH.
Qed.

Lemma set_entries_returns dec z key :
  (forall v, diverges (dec z v) = false) ->
  forall obj acc, diverges (set_entries dec z key obj acc) = false.
Proof.
  intros Hdec. induction obj as [|[k v] obj IH]; intros acc; cbn;
    [reflexivity|].
  specialize (Hdec v).
  destruct (dec z v) as [x [e|]| |]; try reflexivity; try discriminate.
  destruct (map_key key k); [apply IH|reflexivity].
Qed.

Lemma set_fields_returns fmt obj : forall fs,
  Forall (fun ft => forall cur v, diverges (setValue fmt (snd ft) cur v) = false) fs ->
  forall vs, diverges (set_fields fmt obj fs vs) = false.
Proof.
  induction 1 as [|[field ft] fs Hft _ IH]; intros vs; [reflexivity|].
  destruct vs as [|v vs]; [reflexivity|]. cbn [set_fields].
  destruct (wire_name fmt field) as [name|];
    [|rewrite inside_returns; apply IH].
  destruct (tbl_lookup name obj) as [x|];
    [|rewrite inside_returns; apply IH].
  specialize (Hft v x). cbn [snd] in Hft.
  destruct (setValue fmt ft v x) as [v' [e|]| |]; try reflexivity;
    try discriminate.
  rewrite inside_returns; apply IH.
Qed.

(** [setValue] is total: it recurses on the type of the destination. *)
Lemma setValue_returns fmt : forall t cur v,
  diverges (setValue fmt t cur v) = false.
Proof.
  induction t using gtype_nested_ind; intros cur v;
    try (destruct v; reflexivity).
  - destruct v; try reflexivity. cbn [setValue].
    apply set_elems_returns. intros; apply IHt.
  - destruct v; try reflexivity. cbn [setValue].
    apply set_entries_returns. intros; apply IHt2.
  - destruct v; try reflexivity.
    rewrite setValue_struct. apply set_fields_returns. exact H.
  - destruct v; try reflexivity; cbn [setValue];
      rewrite inside_returns; apply IHt.
  - destruct v; cbn [setValue]; try reflexivity;
      destruct (assignable i _); reflexivity.
Qed.

Lemma decode_into_returns fmt v value :
  diverges (decode_into fmt v value) = false.
Proof.
  destruct v as [[t x]|]; [|reflexivity].
  destruct t; try reflexivity. cbn.
  destruct x; try reflexivity. destruct p; [|reflexivity].
  rewrite inside_returns. apply setValue_returns.
Qed.

(** *** The JSON lexer moves forward *)

Lemma JSON_skipWhitespace_loop_pos : forall fuel l,
  JSON.pos l <= JSON.pos (JSON.skipWhitespace_loop fuel l).
Proof.
  induction fuel as [|fuel IH]; intros l; cbn; [lia|].
  destruct (Go.at_ _ _) as [c|]; [|lia].
  destruct (Go.IsSpace c); [|lia].
  specialize (IH (JSON.advance l 1)). cbn in IH. lia.
Qed.

Lemma JSON_readString_loop_pos : forall fuel start l tok l1,
  JSON.readString_loop fuel start l = (tok, l1) ->
  JSON.pos l <= JSON.pos l1
  /\ (is_eof (JSON.typ tok) = false -> JSON.pos l < JSON.pos l1).
Proof.
  induction fuel as [|fuel IH]; intros start l tok l1 H; cbn in H.
  - inversion H; subst. split; [lia|discriminate].
  - destruct (Go.at_ _ _) as [c|]; [|inversion H; subst; split; [lia|discriminate]].
    match type of H with (if ?b then _ else _) = _ => destruct b end.
    + inversion H; subst. cbn. split; lia.
    + apply IH in H. cbn in H. split; [lia|]. intros Hty. apply H in Hty. lia.
Qed.

Lemma JSON_readNumber_loop_pos : forall fuel l,
  JSON.pos l <= JSON.pos (JSON.readNumber_loop fuel l).
Proof.
  induction fuel as [|fuel IH]; intros l; cbn; [lia|].
  destruct (Go.at_ _ _) as [c|]; [|lia].
  destruct (JSON.number_byte c); [|lia].
  specialize (IH (JSON.advance l 1)). cbn in IH. lia.
Qed.

Lemma JSON_number_or_eof_pos l c tok l1 :
  Go.at_ (JSON.input l) (JSON.pos l) = Some c ->
  JSON.number_or_eof l c = (tok, l1) ->
  JSON.pos l <= JSON.pos l1
  /\ (is_eof (JSON.typ tok) = false -> JSON.pos l < JSON.pos l1).
Proof.
  intros Hc H. unfold JSON.number_or_eof, JSON.readNumber in H.
  destruct (Ascii.eqb c "-" || Go.IsDigit c) eqn:Hd;
    [|inversion H; subst; split; [lia|discriminate]].
  inversion H; subst. clear H.
  apply get_within in Hc as Hlt.
  assert (Hnb : JSON.number_byte c = true).
  { unfold JSON.number_byte. apply orb_true_iff in Hd as [Hd|Hd].
    - rewrite Hd. repeat rewrite orb_true_r. reflexivity.
    - rewrite Hd. reflexivity. }
  unfold Go.len.
  destruct (String.length (JSON.input l) - JSON.pos l) as [|n] eqn:Hn; [lia|].
  cbn [JSON.readNumber_loop]. rewrite Hc, Hnb.
  pose proof (JSON_readNumber_loop_pos n (JSON.advance l 1)) as Hp.
  cbn in Hp. split; intros; lia.
Qed.

Lemma JSON_keyword_pos l c ty word tok l1 :
  Go.at_ (JSON.input l) (JSON.pos l) = Some c -> 0 < Go.len word ->
  JSON.keyword l c ty word = (tok, l1) ->
  JSON.pos l <= JSON.pos l1
  /\ (is_eof (JSON.typ tok) = false -> JSON.pos l < JSON.pos l1).
Proof.
  intros Hc Hw H. unfold JSON.keyword in H.
  destruct (JSON.looking_at l word).
  - inversion H; subst. cbn. split; intros; lia.
  - eapply JSON_number_or_eof_pos; eauto.
Qed.

(** [next] never moves back, and a token other than EOF takes at least
    one byte of the input. *)
Lemma JSON_next_progress l tok l1 :
  JSON.next l = (tok, l1) ->
  JSON.input l1 = JSON.input l
  /\ JSON_left l1 <= JSON_left l
  /\ (is_eof (JSON.typ tok) = false -> JSON_left l1 < JSON_left l).
Proof.
  intros H. split.
  { pose proof (next_input l) as Hi. rewrite H in Hi. exact Hi. }
  assert (Hi : JSON.input l1 = JSON.input l).
  { pose proof (next_input l) as Hi. rewrite H in Hi. exact Hi. }
  unfold JSON_left. rewrite Hi.
  unfold JSON.next, JSON.skipWhitespace in H.
  pose proof (JSON_skipWhitespace_loop_pos
                (Go.len (JSON.input l) - JSON.pos l) l) as Hskip.
  pose proof (skipWhitespace_loop_input
                (Go.len (JSON.input l) - JSON.pos l) l) as Hin0.
  set (l0 := JSON.skipWhitespace_loop _ l) in *.
  destruct (Go.at_ (JSON.input l0) (JSON.pos l0)) as [c|] eqn:Hc;
    [|inversion H; subst; split; [lia|discriminate]].
  apply get_within in Hc as Hlt. rewrite Hin0 in Hlt. fold (Go.len (JSON.input l)) in Hlt.
  assert (Hgoal : JSON.pos l0 <= JSON.pos l1
                  /\ (is_eof (JSON.typ tok) = false -> JSON.pos l0 < JSON.pos l1)).
  { repeat match type of H with
           | (if Ascii.eqb c ?x then _ else _) = _ =>
               destruct (Ascii.eqb c x) eqn:?;
               [try (inversion H; subst; cbn; split; intros; lia)|]
           end.
    - unfold JSON.readString in H. apply JSON_readString_loop_pos in H.
      cbn in H. split; [lia|]. intros Hty. apply H in Hty. lia.
    - eapply JSON_keyword_pos; eauto. cbn; lia.
    - eapply JSON_keyword_pos; eauto. cbn; lia.
    - eapply JSON_keyword_pos; eauto. cbn; lia.
    - eapply JSON_number_or_eof_pos; eauto. }
  destruct Hgoal as [Hle Hst]. split; [lia|].
  intros Hty. apply Hst in Hty. lia.
Qed.

Lemma JSON_advance_token_weight p :
  JSON.input (JSON.p_lexer (JSON.advance_token p)) = JSON.input (JSON.p_lexer p)
  /\ JSON_weight (JSON.advance_token p) <= JSON_weight p
  /\ (is_eof (JSON.typ (JSON.p_token p)) = false ->
      JSON_weight (JSON.advance_token p) < JSON_weight p).
Proof.
  unfold JSON.advance_token, JSON_weight.
  destruct (JSON.next (JSON.p_lexer p)) as [tok l1] eqn:E.
  apply JSON_next_progress in E as (Hi & Hle & Hst).
  cbn [JSON.p_lexer JSON.p_token].
  split; [exact Hi|].
  destruct (is_eof (JSON.typ tok)).
  - split; [destruct (is_eof _); lia|]. intros ->. lia.
  - specialize (Hst eq_refl). split; [destruct (is_eof _); lia|]. intros ->. lia.
Qed.

(** *** The JSON parser *)

Ltac json_step p Hw :=
  pose proof (JSON_advance_token_weight p) as Hw;
  destruct Hw as (_ & ? & Hw).

Section JSON_loops.
Variable pv : JSON.parser -> result (Value * JSON.parser).
Variable f : nat.
Hypothesis Hdec : forall p v p1, pv p = Ok (v, p1) -> JSON_weight p1 < JSON_weight p.
Hypothesis Hret : forall p, JSON_weight p < f -> out_of_fuel (pv p) = false.

Lemma JSON_parseObject_loop_weight : forall fuel obj p r p1,
  JSON.parseObject_loop pv fuel obj p = Ok (r, p1) ->
  JSON_weight p1 < JSON_weight p.
Proof.
  induction fuel as [|fuel IH]; intros obj p r p1 H;
    cbn [JSON.parseObject_loop] in H; [discriminate|].
  destruct (JSON.typ (JSON.p_token p)) eqn:Hty; try discriminate.
  json_step p Hw1. specialize (Hw1 ltac:(rewrite Hty; reflexivity)).
  set (p2 := JSON.advance_token p) in *.
  destruct (JSON.typ (JSON.p_token p2)) eqn:Hty2; try discriminate.
  json_step p2 Hw2.
  destruct (pv (JSON.advance_token p2)) as [[v p4]| | |] eqn:Hpv;
    cbn [bind] in H; try discriminate.
  apply Hdec in Hpv.
  json_step p4 Hw4.
  destruct (JSON.typ (JSON.p_token p4)) eqn:Hty4; try discriminate.
  - injection H as <- <-. lia.
  - apply IH in H. lia.
Qed.

Lemma JSON_parseObject_loop_returns : forall fuel obj p,
  JSON_weight p < fuel -> JSON_weight p < f ->
  out_of_fuel (JSON.parseObject_loop pv fuel obj p) = false.
Proof.
  induction fuel as [|fuel IH]; intros obj p Hlt Hf; [lia|].
  cbn [JSON.parseObject_loop].
  destruct (JSON.typ (JSON.p_token p)) eqn:Hty; try reflexivity.
  json_step p Hw1. specialize (Hw1 ltac:(rewrite Hty; reflexivity)).
  set (p2 := JSON.advance_token p) in *.
  destruct (JSON.typ (JSON.p_token p2)) eqn:Hty2; try reflexivity.
  json_step p2 Hw2.
  pose proof (Hret (JSON.advance_token p2) ltac:(lia)) as Hr.
  destruct (pv (JSON.advance_token p2)) as [[v p4]| | |] eqn:Hpv;
    cbn [bind]; try reflexivity; try discriminate.
  apply Hdec in Hpv.
  json_step p4 Hw4.
  destruct (JSON.typ (JSON.p_token p4)) eqn:Hty4; try reflexivity.
  apply IH; lia.
Qed.

Lemma JSON_parseArray_loop_weight : forall fuel arr p r p1,
  JSON.parseArray_loop pv fuel arr p = Ok (r, p1) ->
  JSON_weight p1 < JSON_weight p.
Proof.
  induction fuel as [|fuel IH]; intros arr p r p1 H;
    cbn [JSON.parseArray_loop] in H; [discriminate|].
  destruct (pv p) as [[v p4]| | |] eqn:Hpv; cbn [bind] in H; try discriminate.
  apply Hdec in Hpv.
  json_step p4 Hw4.
  destruct (JSON.typ (JSON.p_token p4)) eqn:Hty4; try discriminate.
  - injection H as <- <-. lia.
  - apply IH in H. lia.
Qed.

Lemma JSON_parseArray_loop_returns : forall fuel arr p,
  JSON_weight p < fuel -> JSON_weight p < f ->
  out_of_fuel (JSON.parseArray_loop pv fuel arr p) = false.
Proof.
  induction fuel as [|fuel IH]; intros arr p Hlt Hf; [lia|].
  cbn [JSON.parseArray_loop].
  pose proof (Hret p Hf) as Hr.
  destruct (pv p) as [[v p4]| | |] eqn:Hpv;
    cbn [bind]; try reflexivity; try discriminate.
  apply Hdec in Hpv.
  json_step p4 Hw4.
  destruct (JSON.typ (JSON.p_token p4)) eqn:Hty4; try reflexivity.
  apply IH; lia.
Qed.

End JSON_loops.

(** A value that is parsed takes at least one token. *)
Lemma JSON_parseValue_weight : forall fuel p v p1,
  JSON.parseValue fuel p = Ok (v, p1) -> JSON_weight p1 < JSON_weight p.
Proof.
  induction fuel as [|fuel IH]; intros p v p1 H; cbn [JSON.parseValue] in H;
    [discriminate|].
  json_step p Hw. 
  destruct (JSON.typ (JSON.p_token p)) eqn:Hty; try discriminate;
    specialize (Hw eq_refl).
  - injection H as <- <-. exact Hw.
  - destruct (JSON.number_value _); cbn [bind] in H; try discriminate.
    injection H as <- <-. exact Hw.
  - injection H as <- <-. exact Hw.
  - injection H as <- <-. exact Hw.
  - injection H as <- <-. exact Hw.
  - destruct (JSON.parseObject _ _ _) as [[obj p2]| | |] eqn:Hobj;
      cbn [bind fst snd] in H; try discriminate.
    injection H as <- <-. unfold JSON.parseObject in Hobj.
    json_step (JSON.advance_token p) Hw2.
    destruct (JSON.typ (JSON.p_token (JSON.advance_token p)));
      try (apply (JSON_parseObject_loop_weight _ IH) in Hobj; lia).
    injection Hobj as <- <-. lia.
  - destruct (JSON.parseArray _ _ _) as [[arr p2]| | |] eqn:Harr;
      cbn [bind fst snd] in H; try discriminate.
    injection H as <- <-. unfold JSON.parseArray in Harr.
    json_step (JSON.advance_token p) Hw2.
    destruct (JSON.typ (JSON.p_token (JSON.advance_token p)));
      try (apply (JSON_parseArray_loop_weight _ IH) in Harr; lia).
    injection Harr as <- <-. lia.
Qed.

(** With more fuel than the weight of the state, [parseValue] returns. *)
Lemma JSON_parseValue_returns : forall fuel p,
  JSON_weight p < fuel -> out_of_fuel (JSON.parseValue fuel p) = false.
Proof.
  induction fuel as [|fuel IH]; intros p Hlt; [lia|].
  cbn [JSON.parseValue].
  json_step p Hw.
  destruct (JSON.typ (JSON.p_token p)) eqn:Hty; try reflexivity;
    specialize (Hw eq_refl).
  - unfold JSON.number_value.
    destruct (Go.contains_byte _ _);
      [destruct (Go.ParseFloat _)|destruct (Go.ParseInt _)]; reflexivity.
  - unfold JSON.parseObject.
    json_step (JSON.advance_token p) Hw2.
    assert (Hloop : out_of_fuel (JSON.parseObject_loop (JSON.parseValue fuel)
                       fuel [] (JSON.advance_token p)) = false).
    { apply (JSON_parseObject_loop_returns _ fuel (JSON_parseValue_weight fuel) IH);
        lia. }
    destruct (JSON.typ (JSON.p_token (JSON.advance_token p)));
      try reflexivity;
      destruct (JSON.parseObject_loop _ _ _ _) as [[? ?]| | |];
      try reflexivity; discriminate.
  - unfold JSON.parseArray.
    json_step (JSON.advance_token p) Hw2.
    assert (Hloop : out_of_fuel (JSON.parseArray_loop (JSON.parseValue fuel)
                       fuel [] (JSON.advance_token p)) = false).
    { apply (JSON_parseArray_loop_returns _ fuel (JSON_parseValue_weight fuel) IH);
        lia. }
    destruct (JSON.typ (JSON.p_token (JSON.advance_token p)));
      try reflexivity;
      destruct (JSON.parseArray_loop _ _ _ _) as [[? ?]| | |];
      try reflexivity; discriminate.
Qed.

(** JSON [Unmarshal] returns, for every input and destination: with a
    decoded destination and an error or nil, or with a panic. *)
Lemma JSON_Unmarshal_returns data v : diverges (JSON.Unmarshal data v) = false.
Proof.
  unfold JSON.Unmarshal.
  assert (Hw : JSON_weight (JSON.newParser data) < JSON.fuel_for data).
  { unfold JSON.newParser, JSON_weight, JSON.fuel_for.
    destruct (JSON.next (JSON.newLexer data)) as [tok l1] eqn:E.
    apply JSON_next_progress in E as (Hi & Hle & _).
    unfold JSON_left in *. cbn [JSON.p_lexer JSON.p_token JSON.newLexer
                                JSON.input JSON.pos] in *.
    rewrite Hi in *. destruct (is_eof _); lia. }
  apply JSON_parseValue_returns in Hw.
  destruct (JSON.parseValue _ _) as [[value rest]| | |];
    try reflexivity; [apply decode_into_returns|discriminate].
Qed.

(** *** The TOML lexer moves forward *)

Lemma TOML_skipWhitespace_loop_pos : forall fuel l,
  TOML.input (TOML.skipWhitespace_loop fuel l) = TOML.input l
  /\ TOML.pos l <= TOML.pos (TOML.skipWhitespace_loop fuel l).
Proof.
  induction fuel as [|fuel IH]; intros l; cbn [TOML.skipWhitespace_loop];
    [split; [reflexivity|lia]|].
  destruct (Go.at_ _ _) as [c|]; [|split; [reflexivity|lia]].
  destruct (Ascii.eqb c Go.c_newline).
  - destruct (IH (TOML.advance (TOML.newline l) 1)) as [Hi Hp].
    cbn in Hi, Hp. split; [exact Hi|lia].
  - destruct (Go.IsSpace c); cbn [negb]; [|split; [reflexivity|lia]].
    destruct (IH (TOML.advance l 1)) as [Hi Hp].
    cbn in Hi, Hp. split; [exact Hi|lia].
Qed.

Lemma TOML_readString_loop_pos : forall fuel start l tok l1,
  TOML.readString_loop fuel start l = (tok, l1) ->
  TOML.input l1 = TOML.input l
  /\ TOML.pos l <= TOML.pos l1
  /\ (TOML_is_eof (TOML.typ tok) = false -> TOML.pos l < TOML.pos l1).
Proof.
  induction fuel as [|fuel IH]; intros start l tok l1 H;
    cbn [TOML.readString_loop] in H.
  - inversion H; subst. repeat split; [lia|discriminate].
  - destruct (Go.at_ _ _) as [c|];
      [|inversion H; subst; repeat split; [lia|discriminate]].
    match type of H with (if ?b then _ else _) = _ => destruct b end.
    + inversion H; subst. cbn. repeat split; lia.
    + apply IH in H. destruct H as (Hi & Hp & Hs).
      destruct (Ascii.eqb c Go.c_newline); cbn in Hi, Hp, Hs;
        (split; [exact Hi|]; split; [lia|]; intros Hty; apply Hs in Hty; lia).
Qed.

Lemma TOML_readNumberOrDate_loop_pos : forall fuel isDate l,
  TOML.input (snd (TOML.readNumberOrDate_loop fuel isDate l)) = TOML.input l
  /\ TOML.pos l <= TOML.pos (snd (TOML.readNumberOrDate_loop fuel isDate l)).
Proof.
  induction fuel as [|fuel IH]; intros isDate l;
    cbn [TOML.readNumberOrDate_loop]; [split; [reflexivity|cbn; lia]|].
  destruct (Go.at_ _ _) as [c|]; [|split; [reflexivity|cbn; lia]].
  destruct (TOML.date_byte c).
  - destruct (IH true (TOML.advance l 1)) as [Hi Hp].
    cbn in Hi, Hp. split; [exact Hi|lia].
  - destruct (TOML.number_byte c); cbn [negb]; [|split; [reflexivity|cbn; lia]].
    destruct (IH isDate (TOML.advance l 1)) as [Hi Hp].
    cbn in Hi, Hp. split; [exact Hi|lia].
Qed.

Lemma TOML_number_or_eof_pos l c tok l1 :
  Go.at_ (TOML.input l) (TOML.pos l) = Some c ->
  TOML.number_or_eof l c = (tok, l1) ->
  TOML.input l1 = TOML.input l
  /\ TOML.pos l <= TOML.pos l1
  /\ (TOML_is_eof (TOML.typ tok) = false -> TOML.pos l < TOML.pos l1).
Proof.
  intros Hc H. unfold TOML.number_or_eof, TOML.readNumberOrDate in H.
  destruct (Ascii.eqb c "-" || Go.IsDigit c) eqn:Hd;
    [|inversion H; subst; repeat split; [lia|discriminate]].
  apply get_within in Hc as Hlt.
  assert (Hnb : TOML.date_byte c = true \/ TOML.number_byte c = true).
  { apply orb_true_iff in Hd as [Hd|Hd].
    - left. unfold TOML.date_byte. rewrite Hd.
      repeat rewrite orb_true_r. reflexivity.
    - right. unfold TOML.number_byte. rewrite Hd. reflexivity. }
  unfold Go.len in H.
  destruct (String.length (TOML.input l) - TOML.pos l) as [|n] eqn:Hn; [lia|].
  cbn [TOML.readNumberOrDate_loop] in H. rewrite Hc in H.
  assert (Hstep : exists b,
            (if TOML.date_byte c
             then TOML.readNumberOrDate_loop n true (TOML.advance l 1)
             else if negb (TOML.number_byte c) then (false, l)
                  else TOML.readNumberOrDate_loop n false (TOML.advance l 1))
            = TOML.readNumberOrDate_loop n b (TOML.advance l 1)).
  { destruct Hnb as [E|E]; rewrite E.
    - eauto.
    - destruct (TOML.date_byte c); cbn [negb]; eauto. }
  destruct Hstep as [b Hstep]. rewrite Hstep in H.
  destruct (TOML_readNumberOrDate_loop_pos n b (TOML.advance l 1)) as [Hi Hp].
  destruct (TOML.readNumberOrDate_loop n b (TOML.advance l 1)) as [d l2].
  cbn in Hi, Hp. inversion H; subst.
  split; [exact Hi|]. split; intros; lia.
Qed.

Lemma TOML_keyword_pos l c ty word tok l1 :
  Go.at_ (TOML.input l) (TOML.pos l) = Some c -> 0 < Go.len word ->
  TOML.keyword l c ty word = (tok, l1) ->
  TOML.input l1 = TOML.input l
  /\ TOML.pos l <= TOML.pos l1
  /\ (TOML_is_eof (TOML.typ tok) = false -> TOML.pos l < TOML.pos l1).
Proof.
  intros Hc Hw H. unfold TOML.keyword in H.
  destruct (TOML.looking_at l word).
  - inversion H; subst. cbn. repeat split; intros; lia.
  - eapply TOML_number_or_eof_pos; eauto.
Qed.

Lemma TOML_next_progress l tok l1 :
  TOML.next l = (tok, l1) ->
  TOML.input l1 = TOML.input l
  /\ TOML_left l1 <= TOML_left l
  /\ (TOML_is_eof (TOML.typ tok) = false -> TOML_left l1 < TOML_left l).
Proof.
  intros H. unfold TOML.next, TOML.skipWhitespace in H.
  destruct (TOML_skipWhitespace_loop_pos
              (Go.len (TOML.input l) - TOML.pos l) l) as [Hin0 Hskip].
  set (l0 := TOML.skipWhitespace_loop _ l) in *.
  unfold TOML_left.
  destruct (Go.at_ (TOML.input l0) (TOML.pos l0)) as [c|] eqn:Hc;
    [|inversion H; subst; rewrite Hin0; repeat split; [lia|discriminate]].
  apply get_within in Hc as Hlt. rewrite Hin0 in Hlt.
  fold (Go.len (TOML.input l)) in Hlt.
  assert (Hgoal : TOML.input l1 = TOML.input l0
                  /\ TOML.pos l0 <= TOML.pos l1
                  /\ (TOML_is_eof (TOML.typ tok) = false ->
                      TOML.pos l0 < TOML.pos l1)).
  { repeat match type of H with
           | (if Ascii.eqb c ?x then _ else _) = _ =>
               destruct (Ascii.eqb c x) eqn:?;
               [try (inversion H; subst; cbn; repeat split; intros; lia)|]
           end.
    - unfold TOML.readString in H. apply TOML_readString_loop_pos in H.
      cbn in H. destruct H as (Hi & Hp & Hs).
      split; [exact Hi|]. split; [lia|]. intros Hty. apply Hs in Hty. lia.
    - eapply TOML_keyword_pos; eauto. cbn; lia.
    - eapply TOML_keyword_pos; eauto. cbn; lia.
    - eapply TOML_number_or_eof_pos; eauto. }
  destruct Hgoal as (Hi & Hle & Hst). rewrite Hi, Hin0.
  split; [reflexivity|]. split; [lia|].
  intros Hty. apply Hst in Hty. lia.
Qed.

Lemma TOML_advance_token_weight p :
  TOML.input (TOML.p_lexer (TOML.advance_token p)) = TOML.input (TOML.p_lexer p)
  /\ TOML_weight (TOML.advance_token p) <= TOML_weight p
  /\ (TOML_is_eof (TOML.typ (TOML.p_token p)) = false ->
      TOML_weight (TOML.advance_token p) < TOML_weight p).
Proof.
  unfold TOML.advance_token, TOML_weight.
  destruct (TOML.next (TOML.p_lexer p)) as [tok l1] eqn:E.
  apply TOML_next_progress in E as (Hi & Hle & Hst).
  cbn [TOML.p_lexer TOML.p_token].
  split; [exact Hi|].
  destruct (TOML_is_eof (TOML.typ tok)).
  - split; [destruct (TOML_is_eof _); lia|]. intros ->. lia.
  - specialize (Hst eq_refl). split; [destruct (TOML_is_eof _); lia|].
    intros ->. lia.
Qed.

(** *** The TOML parser *)

Ltac toml_step p Hw :=
  pose proof (TOML_advance_token_weight p) as Hw;
  destruct Hw as (? & ? & Hw).

Section TOML_loops.
Variable pv : TOML.parser -> result (Value * TOML.parser).
Variable f : nat.
Hypothesis Hdec : forall p v p1,
  pv p = Ok (v, p1) ->
  TOML_weight p1 < TOML_weight p
  /\ TOML.input (TOML.p_lexer p1) = TOML.input (TOML.p_lexer p).
Hypothesis Hret : forall p, TOML_weight p < f -> out_of_fuel (pv p) = false.

Lemma TOML_parseArray_loop_weight : forall fuel arr p r p1,
  TOML.parseArray_loop pv fuel arr p = Ok (r, p1) ->
  TOML_weight p1 < TOML_weight p
  /\ TOML.input (TOML.p_lexer p1) = TOML.input (TOML.p_lexer p).
Proof.
  induction fuel as [|fuel IH]; intros arr p r p1 H;
    cbn [TOML.parseArray_loop] in H; [discriminate|].
  destruct (pv p) as [[v p4]| | |] eqn:Hpv; cbn [bind] in H; try discriminate.
  apply Hdec in Hpv as [Hpv Hi4].
  toml_step p4 Hw4.
  destruct (TOML.typ (TOML.p_token p4)) eqn:Hty4; try discriminate.
  - injection H as <- <-. split; [lia|congruence].
  - apply IH in H as [H Hi]. split; [lia|congruence].
Qed.

Lemma TOML_parseArray_loop_returns : forall fuel arr p,
  TOML_weight p < fuel -> TOML_weight p < f ->
  out_of_fuel (TOML.parseArray_loop pv fuel arr p) = false.
Proof.
  induction fuel as [|fuel IH]; intros arr p Hlt Hf; [lia|].
  cbn [TOML.parseArray_loop].
  pose proof (Hret p Hf) as Hr.
  destruct (pv p) as [[v p4]| | |] eqn:Hpv;
    cbn [bind]; try reflexivity; try discriminate.
  apply Hdec in Hpv as [Hpv _].
  toml_step p4 Hw4.
  destruct (TOML.typ (TOML.p_token p4)) eqn:Hty4; try reflexivity.
  apply IH; lia.
Qed.

End TOML_loops.

Lemma TOML_parseValue_weight time_Parse : forall fuel p v p1,
  TOML.parseValue time_Parse fuel p = Ok (v, p1) ->
  TOML_weight p1 < TOML_weight p
  /\ TOML.input (TOML.p_lexer p1) = TOML.input (TOML.p_lexer p).
Proof.
  induction fuel as [|fuel IH]; intros p v p1 H; cbn [TOML.parseValue] in H;
    [discriminate|].
  toml_step p Hw.
  destruct (TOML.typ (TOML.p_token p)) eqn:Hty; try discriminate;
    specialize (Hw eq_refl).
  - injection H as <- <-. auto.
  - destruct (TOML.number_value _); cbn [bind] in H; try discriminate.
    injection H as <- <-. auto.
  - injection H as <- <-. auto.
  - injection H as <- <-. auto.
  - destruct (time_Parse _); try discriminate. injection H as <- <-. auto.
  - destruct (TOML.parseArray _ _ _) as [[arr p2]| | |] eqn:Harr;
      cbn [bind fst snd] in H; try discriminate.
    injection H as <- <-. unfold TOML.parseArray in Harr.
    toml_step (TOML.advance_token p) Hw2.
    destruct (TOML.typ (TOML.p_token (TOML.advance_token p)));
      try (apply (TOML_parseArray_loop_weight _ IH) in Harr as [Harr Hi];
           split; [lia|congruence]).
    injection Harr as <- <-. split; [lia|congruence].
Qed.

Lemma TOML_parseValue_returns time_Parse : forall fuel p,
  TOML_weight p < fuel ->
  out_of_fuel (TOML.parseValue time_Parse fuel p) = false.
Proof.
  induction fuel as [|fuel IH]; intros p Hlt; [lia|].
  cbn [TOML.parseValue].
  toml_step p Hw.
  destruct (TOML.typ (TOML.p_token p)) eqn:Hty; try reflexivity;
    specialize (Hw eq_refl).
  - unfold TOML.number_value.
    destruct (Go.contains_byte _ _);
      [destruct (Go.ParseFloat _)|destruct (Go.ParseInt _)]; reflexivity.
  - destruct (time_Parse _); reflexivity.
  - unfold TOML.parseArray.
    toml_step (TOML.advance_token p) Hw2.
    assert (Hloop : out_of_fuel
                      (TOML.parseArray_loop (TOML.parseValue time_Parse fuel)
                         fuel [] (TOML.advance_token p)) = false).
    { apply (TOML_parseArray_loop_returns _ fuel
               (TOML_parseValue_weight time_Parse fuel) IH); lia. }
    destruct (TOML.typ (TOML.p_token (TOML.advance_token p)));
      try reflexivity;
      destruct (TOML.parseArray_loop _ _ _ _) as [[? ?]| | |];
      try reflexivity; discriminate.
Qed.

(** The weight of a state is below the fuel made for its input. *)
Lemma TOML_weight_fuel p :
  TOML_weight p < TOML.fuel_for (TOML.input (TOML.p_lexer p)).
Proof.
  unfold TOML_weight, TOML_left, TOML.fuel_for.
  destruct (TOML_is_eof _); lia.
Qed.

Lemma TOML_parseTablePath_loop_weight : forall fuel path p r p1,
  TOML.parseTablePath_loop fuel path p = Ok (r, p1) ->
  TOML_weight p1 <= TOML_weight p
  /\ TOML.input (TOML.p_lexer p1) = TOML.input (TOML.p_lexer p).
Proof.
  induction fuel as [|fuel IH]; intros path p r p1 H;
    cbn [TOML.parseTablePath_loop] in H; [discriminate|].
  toml_step p Hw.
  destruct (TOML.typ (TOML.p_token p)) eqn:Hty;
    try (injection H as <- <-; split; [lia|reflexivity]).
  toml_step (TOML.advance_token p) Hw2.
  destruct (TOML.typ (TOML.p_token (TOML.advance_token p)));
    try (injection H as <- <-; split; [lia|congruence]).
  apply IH in H as [H Hi]. split; [lia|congruence].
Qed.

Lemma TOML_parseTablePath_loop_returns : forall fuel path p,
  TOML_weight p < fuel ->
  out_of_fuel (TOML.parseTablePath_loop fuel path p) = false.
Proof.
  induction fuel as [|fuel IH]; intros path p Hlt; [lia|].
  cbn [TOML.parseTablePath_loop].
  toml_step p Hw.
  destruct (TOML.typ (TOML.p_token p)) eqn:Hty; try reflexivity.
  specialize (Hw eq_refl).
  toml_step (TOML.advance_token p) Hw2.
  destruct (TOML.typ (TOML.p_token (TOML.advance_token p))); try reflexivity.
  apply IH. lia.
Qed.

Lemma TOML_parseTable_loop_returns time_Parse : forall fuel root current p,
  TOML_weight p < fuel ->
  out_of_fuel (TOML.parseTable_loop time_Parse fuel root current p) = false.
Proof.
  induction fuel as [|fuel IH]; intros root current p Hlt; [lia|].
  cbn [TOML.parseTable_loop].
  toml_step p Hw.
  destruct (TOML.typ (TOML.p_token p)) eqn:Hty; try reflexivity;
    specialize (Hw eq_refl).
  - (* key = value *)
    set (p1 := TOML.advance_token p) in *.
    destruct (TOML.typ (TOML.p_token p1)) eqn:Hty1; try reflexivity.
    toml_step p1 Hw1.
    set (p2 := TOML.advance_token p1) in *.
    pose proof (TOML_parseValue_returns time_Parse _ p2 (TOML_weight_fuel p2)) as Hr.
    replace (TOML.input (TOML.p_lexer p1)) with (TOML.input (TOML.p_lexer p2))
      by assumption.
    destruct (TOML.parseValue time_Parse _ p2) as [[v p3]| | |] eqn:Hv;
      cbn [bind]; try reflexivity; try discriminate.
    apply TOML_parseValue_weight in Hv as [Hv _].
    toml_step p3 Hw3.
    destruct (TOML.typ (TOML.p_token p3)); try reflexivity; apply IH; lia.
  - (* [ header ] *)
    set (p1 := TOML.advance_token p) in *.
    unfold TOML.parseTablePath.
    pose proof (TOML_parseTablePath_loop_returns _ [] p1 (TOML_weight_fuel p1)) as Hr.
    destruct (TOML.parseTablePath_loop _ [] p1) as [[path p2]| | |] eqn:Hp;
      cbn [bind]; try reflexivity; try discriminate.
    apply TOML_parseTablePath_loop_weight in Hp as [Hp _].
    destruct (TOML.typ (TOML.p_token p2)); try reflexivity.
    toml_step p2 Hw2.
    destruct path as [|k path]; [reflexivity|].
    destruct (TOML.navigate _ _ _ _) as [[root' cur]| | |] eqn:Hn;
      cbn [bind]; try reflexivity.
    + destruct (TOML.lookup_at _ _ _) as [[]|]; try reflexivity.
      apply IH. lia.
    + (* navigate uses no fuel *)
      exfalso. revert Hn. generalize (removelast (k :: path)).
      generalize (@nil string) at 1 2. intros cursor keys. revert root cursor.
      generalize (@nil string).
      induction keys as [|key rest IHk]; intros seen root0 cursor Hn;
        cbn [TOML.navigate] in Hn; [discriminate|].
      destruct (TOML.lookup_at
                  match TOML.lookup_at root0 cursor key with
                  | Some _ => root0
                  | None => TOML.update_at root0 cursor (tbl_insert key (VTable []))
                  end cursor key) as [[]|]; try discriminate.
      eapply IHk; eauto.
Qed.

(** X19. TOML [Unmarshal] returns, for every input and destination:
    with a decoded destination and an error or nil, or with a panic.
    The loops of [parseTable], [parseTablePath] and [parseArray] end,
    each turn taking a token from what is left of the input. *)
Lemma TOML_Unmarshal_returns time_Parse data v :
  diverges (TOML.Unmarshal time_Parse data v) = false.
Proof.
  unfold TOML.Unmarshal, TOML.parseTable.
  pose proof (TOML_parseTable_loop_returns time_Parse _ [] []
                (TOML.newParser data)
                (TOML_weight_fuel (TOML.newParser data))) as Hr.
  destruct (TOML.parseTable_loop _ _ _ _ _) as [tbl| | |];
    try reflexivity; [apply decode_into_returns|discriminate].
Qed.

(* ================================================================= *)
(** ** The lexers: cursor, end of input *)

Lemma JSON_skipWhitespace_fixed : forall fuel l,
  match Go.at_ (JSON.input l) (JSON.pos l) with
  | Some c => Go.IsSpace c = false
  | None => True
  end ->
  JSON.skipWhitespace_loop fuel l = l.
Proof.
  intros [|fuel] l H; cbn [JSON.skipWhitespace_loop]; [reflexivity|].
  destruct (Go.at_ _ _) as [c|]; [rewrite H|]; reflexivity.
Qed.

(** Where [skipWhitespace] stops there is no white space. *)
Lemma JSON_skipWhitespace_stops : forall fuel l,
  Go.len (JSON.input l) - JSON.pos l <= fuel ->
  match Go.at_ (JSON.input (JSON.skipWhitespace_loop fuel l))
               (JSON.pos (JSON.skipWhitespace_loop fuel l)) with
  | Some c => Go.IsSpace c = false
  | None => True
  end.
Proof.
  induction fuel as [|fuel IH]; intros l Hle; cbn [JSON.skipWhitespace_loop].
  - unfold Go.at_. rewrite get_beyond; [exact I|]. unfold Go.len in Hle. lia.
  - destruct (Go.at_ (JSON.input l) (JSON.pos l)) as [c|] eqn:Hc.
    + apply get_within in Hc as Hlt.
      destruct (Go.IsSpace c) eqn:Hsp.
      * apply IH. cbn. unfold Go.len in *. lia.
      * rewrite Hc. exact Hsp.
    + rewrite Hc. exact I.
Qed.

Lemma JSON_readString_loop_end : forall fuel start l tok l1,
  Go.len (JSON.input l) - JSON.pos l <= fuel ->
  JSON.readString_loop fuel start l = (tok, l1) ->
  (is_eof (JSON.typ tok) = true ->
   tok = JSON.eof /\ Go.at_ (JSON.input l1) (JSON.pos l1) = None)
  /\ (is_eof (JSON.typ tok) = false -> JSON.pos l1 <= Go.len (JSON.input l)).
Proof.
  induction fuel as [|fuel IH]; intros start l tok l1 Hf H;
    cbn [JSON.readString_loop] in H.
  - inversion H; subst. split; [|discriminate]. intros _. split; [reflexivity|].
    apply get_beyond. unfold Go.len in Hf. lia.
  - destruct (Go.at_ (JSON.input l) (JSON.pos l)) as [c|] eqn:Hc.
    + apply get_within in Hc as Hlt.
      match type of H with (if ?b then _ else _) = _ => destruct b end.
      * inversion H; subst. cbn. split; [discriminate|].
        intros _. unfold Go.len. lia.
      * apply IH in H; [|cbn; unfold Go.len in *; lia].
        cbn [JSON.advance JSON.input] in H. exact H.
    + inversion H; subst. split; [auto|discriminate].
Qed.

Lemma JSON_readNumber_loop_bound : forall fuel l,
  JSON.pos l <= Go.len (JSON.input l) ->
  JSON.pos (JSON.readNumber_loop fuel l) <= Go.len (JSON.input l).
Proof.
  induction fuel as [|fuel IH]; intros l Hle; cbn [JSON.readNumber_loop];
    [exact Hle|].
  destruct (Go.at_ _ _) as [c|] eqn:Hc; [|exact Hle].
  apply get_within in Hc as Hlt.
  destruct (JSON.number_byte c); [|exact Hle].
  apply (IH (JSON.advance l 1)). cbn. unfold Go.len. lia.
Qed.

(** What [next] does after the white space, as a function of the byte
    under the cursor. *)
Lemma JSON_next_after_skip l :
  JSON.next l = JSON.next (JSON.skipWhitespace l).
Proof.
  unfold JSON.next.
  assert (E : JSON.skipWhitespace (JSON.skipWhitespace l) = JSON.skipWhitespace l).
  { unfold JSON.skipWhitespace at 1. apply JSON_skipWhitespace_fixed.
    apply JSON_skipWhitespace_stops. lia. }
  rewrite E. reflexivity.
Qed.

Lemma JSON_next_eof l :
  is_eof (JSON.typ (fst (JSON.next l))) = true ->
  fst (JSON.next l) = JSON.eof
  /\ (snd (JSON.next l) = JSON.skipWhitespace l
      \/ Go.at_ (JSON.input (snd (JSON.next l))) (JSON.pos (snd (JSON.next l))) = None).
Proof.
  unfold JSON.next. set (l0 := JSON.skipWhitespace l).
  destruct (Go.at_ (JSON.input l0) (JSON.pos l0)) as [c|] eqn:Hc;
    [|cbn; auto].
  apply get_within in Hc as Hlt.
  assert (Hnum : forall tl, JSON.number_or_eof l0 c = tl ->
            is_eof (JSON.typ (fst tl)) = true ->
            fst tl = JSON.eof /\ (snd tl = l0 \/
              Go.at_ (JSON.input (snd tl)) (JSON.pos (snd tl)) = None)).
  { intros tl <-. unfold JSON.number_or_eof, JSON.readNumber.
    destruct (_ || _); cbn; [discriminate|auto]. }
  assert (Hkw : forall ty word, is_eof ty = false ->
            is_eof (JSON.typ (fst (JSON.keyword l0 c ty word))) = true ->
            fst (JSON.keyword l0 c ty word) = JSON.eof
            /\ (snd (JSON.keyword l0 c ty word) = l0 \/
                Go.at_ (JSON.input (snd (JSON.keyword l0 c ty word)))
                       (JSON.pos (snd (JSON.keyword l0 c ty word))) = None)).
  { intros ty word Hty. unfold JSON.keyword.
    destruct (JSON.looking_at l0 word); [cbn; congruence|].
    apply Hnum. reflexivity. }
  repeat match goal with
         | |- context [if Ascii.eqb c ?x then _ else _] =>
             destruct (Ascii.eqb c x); [try (cbn; discriminate)|]
         end;
    try (apply Hkw; reflexivity); try (apply Hnum; reflexivity).
  unfold JSON.readString.
  destruct (JSON.readString_loop _ _ _) as [tok l1] eqn:E.
  apply JSON_readString_loop_end in E; [|lia].
  cbn [fst snd]. intros Hty. destruct E as [E _].
  destruct (E Hty) as [-> Hn]. auto.
Qed.

(** Once [next] has returned the EOF token it returns it again, from
    the same state. *)
Lemma JSON_next_eof_again l :
  is_eof (JSON.typ (fst (JSON.next l))) = true ->
  JSON.next (snd (JSON.next l)) = JSON.next l.
Proof.
  intros Hty. destruct (JSON_next_eof l Hty) as [Htok [Hl|Hn]].
  - rewrite Hl, <- JSON_next_after_skip. reflexivity.
  - destruct (JSON.next l) as [tok l1] eqn:E. cbn [fst snd] in *. subst tok.
    unfold JSON.next, JSON.skipWhitespace.
    rewrite JSON_skipWhitespace_fixed by (rewrite Hn; exact I).
    rewrite Hn. reflexivity.
Qed.

Lemma JSON_next_bound l :
  is_eof (JSON.typ (fst (JSON.next l))) = false ->
  JSON.pos (snd (JSON.next l)) <= Go.len (JSON.input l).
Proof.
  unfold JSON.next, JSON.skipWhitespace.
  pose proof (skipWhitespace_loop_input
                (Go.len (JSON.input l) - JSON.pos l) l) as Hin0.
  set (l0 := JSON.skipWhitespace_loop _ l) in *. rewrite <- Hin0.
  destruct (Go.at_ (JSON.input l0) (JSON.pos l0)) as [c|] eqn:Hc;
    [|cbn; discriminate].
  apply get_within in Hc as Hlt. fold (Go.len (JSON.input l0)) in Hlt.
  assert (Hnum : is_eof (JSON.typ (fst (JSON.number_or_eof l0 c))) = false ->
            JSON.pos (snd (JSON.number_or_eof l0 c)) <= Go.len (JSON.input l0)).
  { unfold JSON.number_or_eof, JSON.readNumber.
    destruct (_ || _); cbn; [|discriminate].
    intros _. apply JSON_readNumber_loop_bound. lia. }
  assert (Hkw : forall ty word, 0 < Go.len word ->
            is_eof (JSON.typ (fst (JSON.keyword l0 c ty word))) = false ->
            JSON.pos (snd (JSON.keyword l0 c ty word)) <= Go.len (JSON.input l0)).
  { intros ty word Hw. unfold JSON.keyword, JSON.looking_at.
    destruct (JSON.pos l0 + (Go.len word - 1) <? Go.len (JSON.input l0)) eqn:Hb;
      cbn [andb]; [|exact Hnum].
    apply Nat.ltb_lt in Hb.
    destruct (String.eqb _ word); [|exact Hnum].
    cbn. intros _. lia. }
  repeat match goal with
         | |- context [if Ascii.eqb c ?x then _ else _] =>
             destruct (Ascii.eqb c x); [try (cbn; intros _; lia)|]
         end;
    try (apply Hkw; cbn; lia); try exact Hnum.
  unfold JSON.readString.
  destruct (JSON.readString_loop _ _ _) as [tok l1] eqn:E.
  apply JSON_readString_loop_end in E; [|lia].
  cbn [fst snd JSON.advance JSON.input] in *. apply E.
Qed.

(** X1. The JSON lexer. [next] never changes the input and never moves
    the cursor back; a token other than EOF takes at least one byte and
    leaves the cursor within the input; and after the EOF token every
    further call returns the EOF token again. *)
Theorem JSON_lexer_contract (l : JSON.lexer) :
  JSON.input (snd (JSON.next l)) = JSON.input l
  /\ JSON.pos l <= JSON.pos (snd (JSON.next l))
  /\ (is_eof (JSON.typ (fst (JSON.next l))) = false ->
      JSON.pos l < JSON.pos (snd (JSON.next l))
      /\ JSON.pos (snd (JSON.next l)) <= Go.len (JSON.input l))
  /\ (is_eof (JSON.typ (fst (JSON.next l))) = true ->
      fst (JSON.next l) = JSON.eof
      /\ JSON.next (snd (JSON.next l)) = JSON.next l).
Proof.
  pose proof (JSON_next_bound l) as Hb.
  pose proof (JSON_next_eof l) as He.
  pose proof (JSON_next_eof_again l) as Ha.
  destruct (JSON.next l) as [tok l1] eqn:E. cbn [fst snd] in *.
  pose proof E as E'.
  apply JSON_next_progress in E as (Hi & Hle & Hst). unfold JSON_left in *.
  split; [exact Hi|]. rewrite Hi in *.
  assert (Hpos : JSON.pos l <= JSON.pos l1).
  { (* the cursor as [next] leaves it is the one the loops left *)
    unfold JSON.next, JSON.skipWhitespace in E'.
    destruct (Nat.le_gt_cases (JSON.pos l) (JSON.pos l1)) as [|Hgt]; auto.
    exfalso.
    pose proof (JSON_skipWhitespace_loop_pos
                  (Go.len (JSON.input l) - JSON.pos l) l) as Hs.
    set (l0 := JSON.skipWhitespace_loop _ l) in *.
    destruct (Go.at_ (JSON.input l0) (JSON.pos l0)) as [c|] eqn:Hc;
      [|inversion E'; subst; lia].
    assert (Hn : forall tl, JSON.number_or_eof l0 c = tl -> JSON.pos l0 <= JSON.pos (snd tl)).
    { intros tl <-. unfold JSON.number_or_eof, JSON.readNumber.
      destruct (_ || _); cbn; [apply JSON_readNumber_loop_pos|lia]. }
    assert (Hk : forall ty word tl, JSON.keyword l0 c ty word = tl ->
               JSON.pos l0 <= JSON.pos (snd tl)).
    { intros ty word tl <-. unfold JSON.keyword.
      destruct (JSON.looking_at l0 word); cbn; [lia|apply Hn; reflexivity]. }
    repeat match type of E' with
           | (if Ascii.eqb c ?x then _ else _) = _ =>
               destruct (Ascii.eqb c x);
               [try (inversion E'; subst; cbn in *; lia)|]
           end.
    - unfold JSON.readString in E'. apply JSON_readString_loop_pos in E'.
      cbn in E'. lia.
    - apply Hk in E'. cbn in E'. lia.
    - apply Hk in E'. cbn in E'. lia.
    - apply Hk in E'. cbn in E'. lia.
    - apply Hn in E'. cbn in E'. lia. }
  split; [exact Hpos|]. split.
  - intros Hty. specialize (Hst Hty). specialize (Hb Hty). split; lia.
  - intros Hty. split; [apply He; exact Hty|apply Ha; exact Hty].
Qed.

(* ----------------------------------------------------------------- *)

Lemma TOML_skipWhitespace_fixed : forall fuel l,
  match Go.at_ (TOML.input l) (TOML.pos l) with
  | Some c => Ascii.eqb c Go.c_newline = false /\ Go.IsSpace c = false
  | None => True
  end ->
  TOML.skipWhitespace_loop fuel l = l.
Proof.
  intros [|fuel] l H; cbn [TOML.skipWhitespace_loop]; [reflexivity|].
  destruct (Go.at_ _ _) as [c|]; [|reflexivity].
  destruct H as [-> ->]. reflexivity.
Qed.

Lemma TOML_next_after_skip l :
  TOML.next l = TOML.next (TOML.skipWhitespace l).
Proof.
  unfold TOML.next.
  assert (E : TOML.skipWhitespace (TOML.skipWhitespace l) = TOML.skipWhitespace l).
  { unfold TOML.skipWhitespace at 1. apply TOML_skipWhitespace_fixed.
    apply TOML_skipWhitespace_stops. lia. }
  rewrite E. reflexivity.
Qed.

Lemma TOML_readString_loop_end : forall fuel start l tok l1,
  Go.len (TOML.input l) - TOML.pos l <= fuel ->
  TOML.readString_loop fuel start l = (tok, l1) ->
  (TOML_is_eof (TOML.typ tok) = true ->
   tok = TOML.eof /\ Go.at_ (TOML.input l1) (TOML.pos l1) = None)
  /\ (TOML_is_eof (TOML.typ tok) = false -> TOML.pos l1 <= Go.len (TOML.input l)).
Proof.
  induction fuel as [|fuel IH]; intros start l tok l1 Hf H;
    cbn [TOML.readString_loop] in H.
  - inversion H; subst. split; [|discriminate]. intros _. split; [reflexivity|].
    apply get_beyond. unfold Go.len in Hf. lia.
  - destruct (Go.at_ (TOML.input l) (TOML.pos l)) as [c|] eqn:Hc.
    + apply get_within in Hc as Hlt.
      match type of H with (if ?b then _ else _) = _ => destruct b end.
      * inversion H; subst. cbn. split; [discriminate|].
        intros _. unfold Go.len. lia.
      * apply IH in H.
        -- destruct (Ascii.eqb c Go.c_newline); cbn in H; exact H.
        -- destruct (Ascii.eqb c Go.c_newline); cbn; unfold Go.len in *; lia.
    + inversion H; subst. split; [auto|discriminate].
Qed.

Lemma TOML_next_eof l :
  TOML_is_eof (TOML.typ (fst (TOML.next l))) = true ->
  fst (TOML.next l) = TOML.eof
  /\ (snd (TOML.next l) = TOML.skipWhitespace l
      \/ Go.at_ (TOML.input (snd (TOML.next l))) (TOML.pos (snd (TOML.next l))) = None).
Proof.
  unfold TOML.next. set (l0 := TOML.skipWhitespace l).
  destruct (Go.at_ (TOML.input l0) (TOML.pos l0)) as [c|] eqn:Hc;
    [|cbn; auto].
  apply get_within in Hc as Hlt.
  assert (Hnum : TOML_is_eof (TOML.typ (fst (TOML.number_or_eof l0 c))) = true ->
            fst (TOML.number_or_eof l0 c) = TOML.eof
            /\ (snd (TOML.number_or_eof l0 c) = l0 \/
                Go.at_ (TOML.input (snd (TOML.number_or_eof l0 c)))
                       (TOML.pos (snd (TOML.number_or_eof l0 c))) = None)).
  { unfold TOML.number_or_eof, TOML.readNumberOrDate.
    destruct (_ || _); [|cbn; auto].
    destruct (TOML.readNumberOrDate_loop _ _ _) as [[|] l2]; cbn; discriminate. }
  assert (Hkw : forall ty word, TOML_is_eof ty = false ->
            TOML_is_eof (TOML.typ (fst (TOML.keyword l0 c ty word))) = true ->
            fst (TOML.keyword l0 c ty word) = TOML.eof
            /\ (snd (TOML.keyword l0 c ty word) = l0 \/
                Go.at_ (TOML.input (snd (TOML.keyword l0 c ty word)))
                       (TOML.pos (snd (TOML.keyword l0 c ty word))) = None)).
  { intros ty word Hty. unfold TOML.keyword.
    destruct (TOML.looking_at l0 word); [cbn; congruence|exact Hnum]. }
  repeat match goal with
         | |- context [if Ascii.eqb c ?x then _ else _] =>
             destruct (Ascii.eqb c x); [try (cbn; discriminate)|]
         end;
    try (apply Hkw; reflexivity); try exact Hnum.
  unfold TOML.readString.
  destruct (TOML.readString_loop _ _ _) as [tok l1] eqn:E.
  apply TOML_readString_loop_end in E; [|lia].
  cbn [fst snd]. intros Hty. destruct E as [E _].
  destruct (E Hty) as [-> Hn]. auto.
Qed.

Lemma TOML_next_eof_again l :
  TOML_is_eof (TOML.typ (fst (TOML.next l))) = true ->
  TOML.next (snd (TOML.next l)) = TOML.next l.
Proof.
  intros Hty. destruct (TOML_next_eof l Hty) as [Htok [Hl|Hn]].
  - rewrite Hl, <- TOML_next_after_skip. reflexivity.
  - destruct (TOML.next l) as [tok l1] eqn:E. cbn [fst snd] in *. subst tok.
    unfold TOML.next, TOML.skipWhitespace.
    rewrite TOML_skipWhitespace_fixed by (rewrite Hn; exact I).
    rewrite Hn. reflexivity.
Qed.

(** [next] returns no newline token (the line feeds are white space to
    [skipWhitespace]). *)
Lemma TOML_next_not_newline l :
  is_newline (TOML.typ (fst (TOML.next l))) = false.
Proof.
  unfold TOML.next.
  pose proof (TOML_skipWhitespace_stops
                (Go.len (TOML.input l) - TOML.pos l) l (Nat.le_refl _)) as Hstop.
  fold (TOML.skipWhitespace l) in Hstop.
  destruct (Go.at_ (TOML.input (TOML.skipWhitespace l))
                   (TOML.pos (TOML.skipWhitespace l))) as [c|]; [|reflexivity].
  destruct Hstop as [Hnl _]. rewrite Hnl.
  repeat match goal with
         | |- context [if Ascii.eqb c ?x then _ else _] =>
             destruct (Ascii.eqb c x); [try reflexivity|]
         end;
    try apply TOML_number_or_eof_typ;
    try (apply TOML_keyword_typ; reflexivity).
  apply TOML_readString_typ.
Qed.


Lemma TOML_readNumberOrDate_loop_bound : forall fuel isDate l,
  TOML.pos l <= Go.len (TOML.input l) ->
  TOML.pos (snd (TOML.readNumberOrDate_loop fuel isDate l)) <= Go.len (TOML.input l).
Proof.
  induction fuel as [|fuel IH]; intros isDate l Hl;
    cbn [TOML.readNumberOrDate_loop]; [exact Hl|].
  destruct (Go.at_ (TOML.input l) (TOML.pos l)) as [c|] eqn:Hc; [|exact Hl].
  apply get_within in Hc as Hlt. fold (Go.len (TOML.input l)) in Hlt.
  destruct (TOML.date_byte c).
  - apply (IH true (TOML.advance l 1)).
    cbn [TOML.advance TOML.pos TOML.input]. lia.
  - destruct (TOML.number_byte c); cbn [negb]; [|exact Hl].
    apply (IH isDate (TOML.advance l 1)).
    cbn [TOML.advance TOML.pos TOML.input]. lia.
Qed.

Lemma TOML_next_bound l :
  TOML_is_eof (TOML.typ (fst (TOML.next l))) = false ->
  TOML.pos (snd (TOML.next l)) <= Go.len (TOML.input l).
Proof.
  unfold TOML.next, TOML.skipWhitespace.
  destruct (TOML_skipWhitespace_loop_pos
              (Go.len (TOML.input l) - TOML.pos l) l) as [Hin0 _].
  set (l0 := TOML.skipWhitespace_loop _ l) in *. rewrite <- Hin0.
  destruct (Go.at_ (TOML.input l0) (TOML.pos l0)) as [c|] eqn:Hc;
    [|cbn; discriminate].
  apply get_within in Hc as Hlt. fold (Go.len (TOML.input l0)) in Hlt.
  assert (Hnum : TOML_is_eof (TOML.typ (fst (TOML.number_or_eof l0 c))) = false ->
            TOML.pos (snd (TOML.number_or_eof l0 c)) <= Go.len (TOML.input l0)).
  { unfold TOML.number_or_eof, TOML.readNumberOrDate.
    destruct (_ || _); [|cbn; discriminate].
    pose proof (TOML_readNumberOrDate_loop_bound
                  (Go.len (TOML.input l0) - TOML.pos l0) false l0) as Hb.
    destruct (TOML.readNumberOrDate_loop _ _ _) as [d l2]. cbn in *.
    intros _. apply Hb. lia. }
  assert (Hkw : forall ty word, 0 < Go.len word ->
            TOML_is_eof (TOML.typ (fst (TOML.keyword l0 c ty word))) = false ->
            TOML.pos (snd (TOML.keyword l0 c ty word)) <= Go.len (TOML.input l0)).
  { intros ty word Hw. unfold TOML.keyword, TOML.looking_at.
    destruct (TOML.pos l0 + (Go.len word - 1) <? Go.len (TOML.input l0)) eqn:Hb;
      cbn [andb]; [|exact Hnum].
    apply Nat.ltb_lt in Hb.
    destruct (String.eqb _ word); [|exact Hnum].
    cbn. intros _. lia. }
  repeat match goal with
         | |- context [if Ascii.eqb c ?x then _ else _] =>
             destruct (Ascii.eqb c x); [try (cbn; intros _; lia)|]
         end;
    try (apply Hkw; cbn; lia); try exact Hnum.
  unfold TOML.readString.
  destruct (TOML.readString_loop _ _ _) as [tok l1] eqn:E.
  apply TOML_readString_loop_end in E; [|lia].
  cbn [fst snd TOML.advance TOML.input] in *. apply E.
Qed.

Lemma TOML_next_pos l :
  TOML.pos l <= TOML.pos (snd (TOML.next l)).
Proof.
  destruct (TOML.next l) as [tok l1] eqn:E'. cbn [snd].
  unfold TOML.next, TOML.skipWhitespace in E'.
  destruct (TOML_skipWhitespace_loop_pos
              (Go.len (TOML.input l) - TOML.pos l) l) as [_ Hs].
  set (l0 := TOML.skipWhitespace_loop _ l) in *.
  destruct (Go.at_ (TOML.input l0) (TOML.pos l0)) as [c|] eqn:Hc;
    [|inversion E'; subst; lia].
  repeat match type of E' with
         | (if Ascii.eqb c ?x then _ else _) = _ =>
             destruct (Ascii.eqb c x);
             [try (inversion E'; subst; cbn in *; lia)|]
         end.
  - unfold TOML.readString in E'. apply TOML_readString_loop_pos in E'.
    cbn in E'. lia.
  - apply TOML_keyword_pos in E'; [lia|exact Hc|cbn; lia].
  - apply TOML_keyword_pos in E'; [lia|exact Hc|cbn; lia].
  - apply TOML_number_or_eof_pos in E'; [lia|exact Hc].
Qed.

(** X2. The TOML lexer. [next] never changes the input and never moves
    the cursor back; a token other than EOF takes at least one byte and
    leaves the cursor within the input; and after the EOF token every
    further call returns the EOF token again, in the same state. *)
Theorem TOML_lexer_contract (l : TOML.lexer) :
  TOML.input (snd (TOML.next l)) = TOML.input l
  /\ TOML.pos l <= TOML.pos (snd (TOML.next l))
  /\ (TOML_is_eof (TOML.typ (fst (TOML.next l))) = false ->
      TOML.pos l < TOML.pos (snd (TOML.next l))
      /\ TOML.pos (snd (TOML.next l)) <= Go.len (TOML.input l))
  /\ (TOML_is_eof (TOML.typ (fst (TOML.next l))) = true ->
      fst (TOML.next l) = TOML.eof
      /\ TOML.next (snd (TOML.next l)) = TOML.next l).
Proof.
  pose proof (TOML_next_bound l) as Hb.
  pose proof (TOML_next_eof l) as He.
  pose proof (TOML_next_eof_again l) as Ha.
  pose proof (TOML_next_pos l) as Hpos.
  destruct (TOML.next l) as [tok l1] eqn:E. cbn [fst snd] in *.
  apply TOML_next_progress in E as (Hi & Hle & Hst). unfold TOML_left in *.
  split; [exact Hi|]. rewrite Hi in *.
  split; [exact Hpos|]. split.
  - intros Hty. specialize (Hst Hty). specialize (Hb Hty). split; lia.
  - intros Hty. split; [apply He; exact Hty|apply Ha; exact Hty].
Qed.

(* ----------------------------------------------------------------- *)
(** ** The TOML statement loop after the first pair *)

(** The parser that [parseValue] returns has just taken a token from
    the lexer. *)
Lemma TOML_parseArray_loop_advanced pv : forall fuel arr p r p1,
  TOML.parseArray_loop pv fuel arr p = Ok (r, p1) ->
  exists p0, p1 = TOML.advance_token p0.
Proof.
  induction fuel as [|fuel IH]; intros arr p r p1 H;
    cbn [TOML.parseArray_loop] in H; [discriminate|].
  destruct (pv p) as [[v p2]| | |]; cbn [bind] in H; try discriminate.
  destruct (TOML.typ (TOML.p_token p2)); try discriminate.
  - inversion H; subst. eauto.
  - eauto.
Qed.

Lemma TOML_parseValue_advanced time_Parse fuel p v p1 :
  TOML.parseValue time_Parse fuel p = Ok (v, p1) ->
  exists p0, p1 = TOML.advance_token p0.
Proof.
  destruct fuel as [|fuel]; cbn [TOML.parseValue]; [discriminate|].
  destruct (TOML.typ (TOML.p_token p)); try discriminate.
  - intros H; inversion H; eauto.
  - destruct (TOML.number_value _); cbn [bind]; try discriminate.
    intros H; inversion H; eauto.
  - intros H; inversion H; eauto.
  - intros H; inversion H; eauto.
  - destruct (time_Parse _); try discriminate. intros H; inversion H; eauto.
  - destruct (TOML.parseArray _ _ _) as [[arr p2]| | |] eqn:E; cbn [bind];
      try discriminate.
    intros H; inversion H; subst. cbn [snd].
    unfold TOML.parseArray in E.
    destruct (TOML.typ (TOML.p_token (TOML.advance_token p)));
      try (apply TOML_parseArray_loop_advanced in E; exact E).
    inversion E; subst; eauto.
Qed.

Lemma TOML_advance_token_typ p :
  is_newline (TOML.typ (TOML.p_token (TOML.advance_token p))) = false.
Proof.
  unfold TOML.advance_token.
  pose proof (TOML_next_not_newline (TOML.p_lexer p)) as H.
  destruct (TOML.next (TOML.p_lexer p)) as [t l]. exact H.
Qed.

Lemma TOML_advance_token_eof p :
  TOML_is_eof (TOML.typ (TOML.p_token (TOML.advance_token p))) = true ->
  TOML.advance_token (TOML.advance_token p) = TOML.advance_token p.
Proof.
  unfold TOML.advance_token at 1 3 4.
  pose proof (TOML_next_eof_again (TOML.p_lexer p)) as H.
  destruct (TOML.next (TOML.p_lexer p)) as [t l] eqn:E. cbn [fst snd] in *.
  cbn [TOML.p_token TOML.p_lexer]. intros Hty.
  unfold TOML.advance_token. cbn [TOML.p_lexer]. rewrite (H Hty). reflexivity.
Qed.

(** A run of the statement loop from the root of a flat table returns
    the table it started from or that table with one more entry, whose
    value [parseValue] has returned for a parser that had just taken a
    token. *)
Lemma TOML_parseTable_loop_one time_Parse fuel root p tbl :
  flat root = true ->
  TOML.parseTable_loop time_Parse fuel root [] p = Ok tbl ->
  tbl = root
  \/ exists key v f p0 p1,
       TOML.parseValue time_Parse f (TOML.advance_token p0) = Ok (v, p1)
       /\ tbl = tbl_insert key v root.
Proof.
  intros Hf H. destruct fuel as [|fuel]; cbn [TOML.parseTable_loop] in H;
    [discriminate|].
  destruct (TOML.typ (TOML.p_token p)); try discriminate.
  - inversion H; auto.
  - (* key = value *)
    destruct (TOML.typ (TOML.p_token (TOML.advance_token p))); try discriminate.
    destruct (TOML.parseValue _ _ _) as [[v p1]| | |] eqn:Hv; cbn [bind] in H;
      try discriminate.
    pose proof Hv as Hv'.
    apply TOML_parseValue_advanced in Hv as [p0 ->].
    pose proof (TOML_advance_token_typ p0) as Hnl.
    pose proof (TOML_advance_token_eof p0) as Heof.
    cbn [TOML.update_at] in H.
    destruct (TOML.typ (TOML.p_token (TOML.advance_token p0))) eqn:Hty;
      try discriminate.
    rewrite (Heof eq_refl) in H.
    destruct fuel as [|fuel]; cbn [TOML.parseTable_loop] in H; [discriminate|].
    rewrite Hty in H. inversion H; subst. right. eauto 8.
  - (* [ header ] *)
    destruct (TOML.parseTablePath _) as [[path p1]| | |]; cbn [bind] in H;
      try discriminate.
    destruct (TOML.typ (TOML.p_token p1)); try discriminate.
    destruct path as [|k path]; [discriminate|].
    destruct (TOML.navigate root [] [] (removelast (k :: path)))
      as [[root' cursor]| | |] eqn:Hn; cbn [bind] in H; try discriminate.
    apply navigate_state in Hn; [|left; auto].
    pose proof (header_state_lookup root' cursor (last (k :: path) "") Hn) as Hno.
    destruct (TOML.lookup_at root' cursor (last (k :: path) "")) as [[]|];
      try discriminate.
    contradiction.
Qed.

(** X3. A TOML document that [parseTable] accepts gives the empty table
    or a table of exactly one entry, whose value is no table: after the
    first pair the line feed is no token, so the statement has to end
    the input. *)
Theorem TOML_parses_one_pair_at_most
  (time_Parse : string -> option time_Time) (data : string) (tbl : table) :
  TOML.parseTable time_Parse (TOML.newParser data) = Ok tbl ->
  tbl = [] \/ exists key v, no_table v = true /\ tbl = [(key, v)].
Proof.
  intros H. apply TOML_parseTable_loop_one in H; [|reflexivity].
  destruct H as [->|(key & v & f & p0 & p1 & Hv & ->)]; [left; reflexivity|].
  right. exists key, v. split; [|reflexivity].
  apply TOML_parseValue_no_table in Hv. exact Hv.
Qed.

Lemma TOML_parses_one_pair_at_most_witness :
  TOML.parseTable (fun _ => None) (TOML.newParser (q "a" ++ " = [1, 2.5]"))
  = Ok [("a", VArray [VInt 1; VFloat (S754_finite false 5629499534213120 (-51))])]
  /\ ([("a", VArray [VInt 1; VFloat (S754_finite false 5629499534213120 (-51))])] = []
      \/ exists key v, no_table v = true
           /\ [("a", VArray [VInt 1; VFloat (S754_finite false 5629499534213120 (-51))])]
              = [(key, v)]).
Proof.
  split; [vm_compute; reflexivity|].
  apply (TOML_parses_one_pair_at_most (fun _ => None) (q "a" ++ " = [1, 2.5]")).
  vm_compute; reflexivity.
Defined.

(* ----------------------------------------------------------------- *)
(** ** Documents that begin with no token *)

Lemma TOML_next_no_token l :
  TOML_starts_token (TOML.input l) (TOML.pos (TOML.skipWhitespace l)) = false ->
  TOML.next l = (TOML.eof, TOML.skipWhitespace l).
Proof.
  unfold TOML.next, TOML_starts_token, TOML.skipWhitespace.
  destruct (TOML_skipWhitespace_loop_pos
              (Go.len (TOML.input l) - TOML.pos l) l) as [Hin0 _].
  pose proof (TOML_skipWhitespace_stops
                (Go.len (TOML.input l) - TOML.pos l) l (Nat.le_refl _)) as Hstop.
  set (l0 := TOML.skipWhitespace_loop _ l) in *. rewrite <- Hin0.
  destruct (Go.at_ (TOML.input l0) (TOML.pos l0)) as [c|] eqn:Hc;
    [|reflexivity].
  destruct Hstop as [Hnl _]. intros H.
  repeat (apply orb_false_iff in H; destruct H as [H ?]).
  repeat match goal with
         | Hx : ?b = false |- context [if ?b then _ else _] => rewrite Hx
         end.
  unfold TOML.keyword, TOML.looking_at, TOML.number_or_eof.
  cbn [Go.len String.length].
  repeat match goal with
         | Hx : ?b = false |- context [?b] => rewrite Hx
         end.
  rewrite !andb_false_r. cbn [orb].
  destruct (Ascii.eqb c "t"), (Ascii.eqb c "f"); reflexivity.
Qed.

Lemma TOML_no_token_accepted
  (time_Parse : string -> option time_Time) (data : string) :
  TOML_starts_token data
    (TOML.pos (TOML.skipWhitespace (TOML.newLexer data))) = false ->
  TOML.parseTable time_Parse (TOML.newParser data) = Ok []
  /\ (forall fields vs,
        TOML.Unmarshal time_Parse data (ptr_to (TStruct fields) (NStruct vs))
        = Decoded (NPtr (Some (NStruct vs))) None).
Proof.
  intros H.
  assert (Hp : TOML.parseTable time_Parse (TOML.newParser data) = Ok []).
  { unfold TOML.parseTable, TOML.newParser.
    rewrite (TOML_next_no_token (TOML.newLexer data) H).
    unfold TOML.fuel_for. rewrite Nat.add_comm. reflexivity. }
  split; [exact Hp|].
  intros fields vs. unfold TOML.Unmarshal. rewrite Hp.
  unfold ptr_to, decode_into.
  rewrite setValue_struct, set_fields_absent; [reflexivity|].
  intros f ft _. unfold untouched.
  destruct (wire_name TOMLf f); reflexivity.
Qed.

(** X4. A TOML document whose first byte after the leading white space
    starts no token (a bare key, a comment, any other byte, or nothing
    at all) is accepted as the empty document: [parseTable] returns the
    empty table, and [Unmarshal] into a record returns no error and
    leaves every field as it was. *)
Theorem TOML_no_token_is_empty_document
  (time_Parse : string -> option time_Time) (data : string) :
  TOML_starts_token data
    (TOML.pos (TOML.skipWhitespace (TOML.newLexer data))) = false ->
  TOML.parseTable time_Parse (TOML.newParser data) = Ok []
  /\ (forall fields vs,
        TOML.Unmarshal time_Parse data (ptr_to (TStruct fields) (NStruct vs))
        = Decoded (NPtr (Some (NStruct vs))) None).
Proof.
  apply TOML_no_token_accepted.
Qed.

Lemma TOML_no_token_is_empty_document_witness :
  TOML_starts_token (nl ++ "  name = 1" ++ nl ++ "port = 2")
    (TOML.pos (TOML.skipWhitespace
                 (TOML.newLexer (nl ++ "  name = 1" ++ nl ++ "port = 2")))) = false
  /\ TOML.parseTable (fun _ => None)
       (TOML.newParser (nl ++ "  name = 1" ++ nl ++ "port = 2")) = Ok []
  /\ (forall fields vs,
        TOML.Unmarshal (fun _ => None) (nl ++ "  name = 1" ++ nl ++ "port = 2")
          (ptr_to (TStruct fields) (NStruct vs))
        = Decoded (NPtr (Some (NStruct vs))) None).
Proof.
  split; [vm_compute; reflexivity|].
  apply (TOML_no_token_is_empty_document (fun _ => None)
           (nl ++ "  name = 1" ++ nl ++ "port = 2")).
  vm_compute; reflexivity.
Defined.

(* ----------------------------------------------------------------- *)
(** ** The JSON parser returns a value or an error *)

Section JSON_no_panic.
Variable pv : JSON.parser -> result (Value * JSON.parser).
Hypothesis Hpv : forall p, out_of_fuel (pv p) = false -> returned (pv p) = true.

Lemma JSON_parseObject_loop_returned : forall fuel obj p,
  out_of_fuel (JSON.parseObject_loop pv fuel obj p) = false ->
  returned (JSON.parseObject_loop pv fuel obj p) = true.
Proof.
  induction fuel as [|fuel IH]; intros obj p; cbn [JSON.parseObject_loop];
    [discriminate|].
  destruct (JSON.typ (JSON.p_token p)); try reflexivity.
  destruct (JSON.typ (JSON.p_token (JSON.advance_token p))); try reflexivity.
  pose proof (Hpv (JSON.advance_token (JSON.advance_token p))) as H.
  destruct (pv _) as [[v p1]| | |]; cbn [bind] in *; try reflexivity;
    try (intros E; specialize (H E); discriminate).
  destruct (JSON.typ (JSON.p_token p1)); try reflexivity. apply IH.
Qed.

Lemma JSON_parseArray_loop_returned : forall fuel arr p,
  out_of_fuel (JSON.parseArray_loop pv fuel arr p) = false ->
  returned (JSON.parseArray_loop pv fuel arr p) = true.
Proof.
  induction fuel as [|fuel IH]; intros arr p; cbn [JSON.parseArray_loop];
    [discriminate|].
  pose proof (Hpv p) as H.
  destruct (pv p) as [[v p1]| | |]; cbn [bind] in *; try reflexivity;
    try (intros E; specialize (H E); discriminate).
  destruct (JSON.typ (JSON.p_token p1)); try reflexivity. apply IH.
Qed.
End JSON_no_panic.

Lemma JSON_parseValue_returned : forall fuel p,
  out_of_fuel (JSON.parseValue fuel p) = false ->
  returned (JSON.parseValue fuel p) = true.
Proof.
  induction fuel as [|fuel IH]; intros p; cbn [JSON.parseValue];
    [discriminate|].
  destruct (JSON.typ (JSON.p_token p)); try reflexivity.
  - unfold JSON.number_value.
    destruct (Go.contains_byte _ _);
      [destruct (Go.ParseFloat _)|destruct (Go.ParseInt _)]; reflexivity.
  - unfold JSON.parseObject.
    destruct (JSON.typ (JSON.p_token (JSON.advance_token p)));
      try reflexivity;
      (pose proof (JSON_parseObject_loop_returned _ IH fuel []
                     (JSON.advance_token p)) as H;
       destruct (JSON.parseObject_loop _ _ _ _) as [[? ?]| | |];
       cbn [bind] in *; auto).
  - unfold JSON.parseArray.
    destruct (JSON.typ (JSON.p_token (JSON.advance_token p)));
      try reflexivity;
      (pose proof (JSON_parseArray_loop_returned _ IH fuel []
                     (JSON.advance_token p)) as H;
       destruct (JSON.parseArray_loop _ _ _ _) as [[? ?]| | |];
       cbn [bind] in *; auto).
Qed.

Lemma JSON_newParser_weight data :
  JSON_weight (JSON.newParser data) < JSON.fuel_for data.
Proof.
  unfold JSON.newParser, JSON_weight, JSON.fuel_for.
  destruct (JSON.next (JSON.newLexer data)) as [tok l1] eqn:E.
  apply JSON_next_progress in E as (Hi & Hle & _).
  unfold JSON_left in *. cbn [JSON.p_lexer JSON.p_token JSON.newLexer
                              JSON.input JSON.pos] in *.
  rewrite Hi in *. destruct (is_eof _); lia.
Qed.

(** X5. The JSON parser returns a value or an error for every input: its
    loops end (the depth of the descent and the turns of each loop are
    bounded by the tokens that are left), and nothing in it panics. *)
Theorem JSON_parse_returns (data : string) :
  returned (JSON.parseValue (JSON.fuel_for data) (JSON.newParser data)) = true.
Proof.
  apply JSON_parseValue_returned, JSON_parseValue_returns,
    JSON_newParser_weight.
Qed.

(** X6. JSON [Unmarshal] with a destination that is no pointer returns
    an error and leaves the destination as it is, for every input: the
    error of the parser if the input is not well formed (the input is
    parsed first), else the error that a pointer is required. *)
Theorem JSON_Unmarshal_requires_pointer (data : string) (v : any) :
  is_pointer v = false ->
  JSON.Unmarshal data v
  = Decoded (held v)
      (Some (match JSON.parseValue (JSON.fuel_for data) (JSON.newParser data) with
             | Err e => e
             | _ => NotAPointer
             end)).
Proof.
  intros Hv. unfold JSON.Unmarshal.
  pose proof (JSON_parseValue_returned (JSON.fuel_for data) (JSON.newParser data)
                (JSON_parseValue_returns _ _ (JSON_newParser_weight data))) as Hr.
  destruct (JSON.parseValue _ _) as [[value rest]|e| |]; try discriminate;
    [|reflexivity].
  destruct v as [[t x]|]; [|reflexivity].
  destruct t; try reflexivity. discriminate.
Qed.

Lemma JSON_Unmarshal_requires_pointer_witness :
  is_pointer (Some (TSlice (TInt KInt), NSlice (Some [NInt 7]))) = false
  /\ JSON.Unmarshal "[1 2]" (Some (TSlice (TInt KInt), NSlice (Some [NInt 7])))
     = Decoded (held (Some (TSlice (TInt KInt), NSlice (Some [NInt 7]))))
         (Some (match JSON.parseValue (JSON.fuel_for "[1 2]")
                        (JSON.newParser "[1 2]") with
                | Err e => e
                | _ => NotAPointer
                end)).
Proof.
  split; [reflexivity|].
  apply (JSON_Unmarshal_requires_pointer "[1 2]"
           (Some (TSlice (TInt KInt), NSlice (Some [NInt 7])))).
  reflexivity.
Defined.

(* ----------------------------------------------------------------- *)
(** ** The decoder: slices and integers *)

Lemma set_elems_shape dec z : forall arr x e,
  set_elems dec z arr = Decoded x e ->
  exists xs, x = NSlice (Some xs) /\ List.length xs = List.length arr
    /\ (e = None -> Forall2 (fun y v => dec z v = Decoded y None) xs arr).
Proof.
  induction arr as [|v rest IH]; intros x e H; cbn [set_elems] in H.
  - inversion H; subst. exists []. repeat split. constructor.
  - destruct (dec z v) as [y [err|]| |] eqn:Hd; try discriminate.
    + inversion H; subst. eexists. split; [reflexivity|].
      split; [cbn; rewrite repeat_length; reflexivity|discriminate].
    + destruct (set_elems dec z rest) as [x' e'| |] eqn:Hr; cbn [inside] in H;
        try discriminate.
      inversion H; subst.
      destruct (IH x' e eq_refl) as (xs & -> & Hlen & Hall).
      exists (y :: xs). split; [reflexivity|].
      split; [cbn; rewrite Hlen; reflexivity|].
      intros He. constructor; auto.
Qed.

(** X7. Decoding an array into a slice makes a new slice: whatever the
    destination held, what it holds afterwards has as many elements as
    the array, also when an element failed; and when there was no
    error, each element is its array element decoded into a zero
    value, so nothing of the old elements is kept. *)
Theorem slice_decode_is_fresh (fmt : format) (elem : gtype) (cur : nval)
  (arr : list Value) (x : nval) (e : option error) :
  setValue fmt (TSlice elem) cur (VArray arr) = Decoded x e ->
  exists xs, x = NSlice (Some xs) /\ List.length xs = List.length arr
    /\ (e = None ->
        Forall2 (fun y v => setValue fmt elem (zero elem) v = Decoded y None)
                xs arr).
Proof.
  cbn [setValue]. apply set_elems_shape.
Qed.

Lemma slice_decode_is_fresh_witness :
  setValue JSONf (TSlice one_int) (NSlice (Some [NStruct [NInt 5]; NStruct [NInt 6]]))
    (VArray [VTable []; VTable [("A", VInt 2)]; VTable []])
  = Decoded (NSlice (Some [NStruct [NInt 0]; NStruct [NInt 2]; NStruct [NInt 0]])) None
  /\ exists xs,
       NSlice (Some [NStruct [NInt 0]; NStruct [NInt 2]; NStruct [NInt 0]])
       = NSlice (Some xs)
       /\ List.length xs = 3
       /\ (@None error = None ->
           Forall2 (fun y v => setValue JSONf one_int (zero one_int) v = Decoded y None)
                   xs [VTable []; VTable [("A", VInt 2)]; VTable []]).
Proof.
  split; [vm_compute; reflexivity|].
  apply (slice_decode_is_fresh JSONf one_int
           (NSlice (Some [NStruct [NInt 5]; NStruct [NInt 6]]))
           [VTable []; VTable [("A", VInt 2)]; VTable []]).
  vm_compute; reflexivity.
Defined.

Lemma wrap_signed_range w z :
  (0 < w)%Z ->
  (- 2 ^ (w - 1) <= Go.wrap_signed w z < 2 ^ (w - 1))%Z
  /\ ((Go.wrap_signed w z - z) mod 2 ^ w = 0)%Z
  /\ ((- 2 ^ (w - 1) <= z < 2 ^ (w - 1))%Z -> Go.wrap_signed w z = z).
Proof.
  intros Hw. unfold Go.wrap_signed, Go.wrap_unsigned.
  assert (Hp : (2 ^ w = 2 * 2 ^ (w - 1))%Z).
  { rewrite <- Z.pow_succ_r by lia. f_equal. lia. }
  assert (Hpos : (0 < 2 ^ (w - 1))%Z) by (apply Z.pow_pos_nonneg; lia).
  pose proof (Z.mod_pos_bound z (2 ^ w) ltac:(lia)) as Hm.
  pose proof (Z.div_mod z (2 ^ w) ltac:(lia)) as Hdm.
  destruct (z mod 2 ^ w <? 2 ^ (w - 1))%Z eqn:Hlt;
    [apply Z.ltb_lt in Hlt|apply Z.ltb_ge in Hlt].
  - split; [lia|]. split.
    + replace (z mod 2 ^ w - z)%Z with ((- (z / 2 ^ w)) * 2 ^ w)%Z by lia.
      apply Z.mod_mul. lia.
    + intros Hr. destruct (Z.le_gt_cases 0 z).
      * apply Z.mod_small. lia.
      * assert (z / 2 ^ w = -1)%Z by (symmetry; apply (Z.div_unique z (2 ^ w) (-1) (z + 2 ^ w)); lia).
        nia.
  - split; [lia|]. split.
    + replace (z mod 2 ^ w - 2 ^ w - z)%Z with ((- (z / 2 ^ w) - 1) * 2 ^ w)%Z by lia.
      apply Z.mod_mul. lia.
    + intros Hr. destruct (Z.le_gt_cases 0 z).
      * rewrite Z.mod_small in Hlt by lia. lia.
      * assert (z / 2 ^ w = -1)%Z by (symmetry; apply (Z.div_unique z (2 ^ w) (-1) (z + 2 ^ w)); lia).
        nia.
Qed.

(** X8. An Integer is stored in an integer destination of any width
    without a range check: the decode never fails, what is stored is
    the value reduced to the width in two's complement (equal to the
    value modulo 2^width, and the value itself when it fits); in an
    unsigned destination, the value modulo 2^width. *)
Theorem integer_decode_wraps (fmt : format) (cur : nval) (v : Z) :
  (forall k, exists z,
      setValue fmt (TInt k) cur (VInt v) = Decoded (NInt z) None
      /\ (- 2 ^ (int_bits k - 1) <= z < 2 ^ (int_bits k - 1))%Z
      /\ ((z - v) mod 2 ^ int_bits k = 0)%Z
      /\ ((- 2 ^ (int_bits k - 1) <= v < 2 ^ (int_bits k - 1))%Z -> z = v))
  /\ (forall k,
        setValue fmt (TUint k) cur (VInt v)
        = Decoded (NUint (v mod 2 ^ uint_bits k)) None).
Proof.
  split; intros k.
  - exists (Go.wrap_signed (int_bits k) v). split; [reflexivity|].
    apply wrap_signed_range. destruct k; reflexivity.
  - cbn [setValue]. unfold Go.wrap_unsigned. do 2 f_equal.
    assert (H : exists n, (2 ^ 64 = n * 2 ^ uint_bits k)%Z /\ (0 < n)%Z).
    { exists (2 ^ (64 - uint_bits k))%Z. destruct k; split; reflexivity. }
    destruct H as (n & -> & Hn).
    assert (0 < 2 ^ uint_bits k)%Z by (destruct k; reflexivity).
    rewrite (Z.mul_comm n), Z.rem_mul_r by lia.
    rewrite (Z.mul_comm (2 ^ uint_bits k)), Z.mod_add by lia.
    apply Z.mod_mod. lia.
Qed.

(* ----------------------------------------------------------------- *)
(** ** The encoders: fields that are left out *)

Lemma JSON_marshal_visible fields vs :
  JSON.marshalValue (TStruct fields) (NStruct vs)
  = JSON.marshalValue (TStruct (map fst (visible JSONf fields vs)))
      (NStruct (map snd (visible JSONf fields vs))).
Proof.
  cbn [JSON.marshalValue]. f_equal.
  revert vs. induction fields as [|[f ft] fs IH]; intros [|v vs];
    try reflexivity.
  cbn [visible]. destruct (wire_name JSONf f) as [name|] eqn:Hw.
  - cbn [map fst snd]. rewrite Hw, <- IH. reflexivity.
  - apply IH.
Qed.

Lemma TOML_marshal_visible
  (time_Format : time_Time -> string) (type_String : gtype -> string)
  fields vs prefix :
  TOML.marshalValue time_Format type_String (TStruct fields) (NStruct vs) prefix
  = TOML.marshalValue time_Format type_String
      (TStruct (map fst (visible TOMLf fields vs)))
      (NStruct (map snd (visible TOMLf fields vs))) prefix.
Proof.
  cbn [TOML.marshalValue]. f_equal.
  revert vs. induction fields as [|[f ft] fs IH]; intros [|v vs];
    try reflexivity.
  cbn [visible]. destruct (wire_name TOMLf f) as [name|] eqn:Hw.
  - cbn [map fst snd]. rewrite Hw, <- IH. reflexivity.
  - apply IH.
Qed.

(** X9. A record is encoded as the record of its exported fields that
    are not tagged [-]: the other fields are not looked at, whatever
    their types and values, in both codecs. *)
Theorem skipped_fields_are_not_encoded
  (time_Format : time_Time -> string) (type_String : gtype -> string)
  (fields : list (StructField * gtype)) (vs : list nval) (prefix : string) :
  JSON.marshalValue (TStruct fields) (NStruct vs)
  = JSON.marshalValue (TStruct (map fst (visible JSONf fields vs)))
      (NStruct (map snd (visible JSONf fields vs)))
  /\ TOML.marshalValue time_Format type_String (TStruct fields) (NStruct vs) prefix
     = TOML.marshalValue time_Format type_String
         (TStruct (map fst (visible TOMLf fields vs)))
         (NStruct (map snd (visible TOMLf fields vs))) prefix.
Proof.
  split; [apply JSON_marshal_visible|apply TOML_marshal_visible].
Qed.

(* ----------------------------------------------------------------- *)
(** ** [escapeString] *)

Lemma append_assoc (a b c : string) : ((a ++ b) ++ c = a ++ (b ++ c))%string.
Proof. induction a as [|x a IH]; cbn; [reflexivity|rewrite IH; reflexivity]. Qed.

Lemma append_nil_r (a : string) : (a ++ "")%string = a.
Proof. induction a as [|x a IH]; cbn; [reflexivity|rewrite IH; reflexivity]. Qed.

Lemma ReplaceAll_app c by_ : forall a b,
  Go.ReplaceAll (a ++ b) c by_ = Go.ReplaceAll a c by_ ++ Go.ReplaceAll b c by_.
Proof.
  induction a as [|d a IH]; intros b; cbn [append Go.ReplaceAll]; [reflexivity|].
  rewrite IH. destruct (Ascii.eqb d c); [rewrite append_assoc|]; reflexivity.
Qed.

Lemma escapeString_app a b :
  JSON.escapeString (a ++ b) = JSON.escapeString a ++ JSON.escapeString b.
Proof.
  unfold JSON.escapeString. rewrite !ReplaceAll_app. reflexivity.
Qed.

Lemma escapeString_byte c : JSON.escapeString (Go.str1 c) = escaped_byte c.
Proof.
  unfold escaped_byte.
  destruct (Ascii.eqb c Go.c_backslash) eqn:H1;
    [apply Ascii.eqb_eq in H1; subst; reflexivity|].
  destruct (Ascii.eqb c Go.c_quote) eqn:H2;
    [apply Ascii.eqb_eq in H2; subst; reflexivity|].
  destruct (Ascii.eqb c Go.c_newline) eqn:H3;
    [apply Ascii.eqb_eq in H3; subst; reflexivity|].
  destruct (Ascii.eqb c Go.c_return) eqn:H4;
    [apply Ascii.eqb_eq in H4; subst; reflexivity|].
  destruct (Ascii.eqb c Go.c_tab) eqn:H5;
    [apply Ascii.eqb_eq in H5; subst; reflexivity|].
  unfold JSON.escapeString, Go.str1. cbn [Go.ReplaceAll].
  rewrite H1. cbn [Go.ReplaceAll]. rewrite H2. cbn [Go.ReplaceAll].
  rewrite H3. cbn [Go.ReplaceAll]. rewrite H4. cbn [Go.ReplaceAll].
  rewrite H5. reflexivity.
Qed.

Lemma escapeString_cons c s :
  JSON.escapeString (String c s) = escaped_byte c ++ JSON.escapeString s.
Proof.
  change (String c s) with (Go.str1 c ++ s).
  rewrite escapeString_app, escapeString_byte. reflexivity.
Qed.

Lemma contains_byte_app c : forall a b,
  Go.contains_byte c (a ++ b) = Go.contains_byte c a || Go.contains_byte c b.
Proof.
  induction a as [|d a IH]; intros b; cbn [append Go.contains_byte];
    [reflexivity|].
  rewrite IH, orb_assoc. reflexivity.
Qed.

Lemma quotes_escaped_app : forall a b esc,
  quotes_escaped esc (a ++ b)
  = quotes_escaped esc a && quotes_escaped (ends_in_backslash esc a) b.
Proof.
  induction a as [|d a IH]; intros b esc;
    cbn [append quotes_escaped ends_in_backslash]; [reflexivity|].
  rewrite IH, andb_assoc. reflexivity.
Qed.

Lemma ends_in_backslash_app : forall a b esc,
  ends_in_backslash esc (a ++ b) = ends_in_backslash (ends_in_backslash esc a) b.
Proof.
  induction a as [|d a IH]; intros b esc; cbn [append ends_in_backslash];
    [reflexivity|apply IH].
Qed.

(** What [escaped_byte] gives, by cases on the byte. *)
Lemma escaped_byte_cases c :
  (c = Go.c_backslash /\ escaped_byte c = "\\")
  \/ (c = Go.c_quote /\ escaped_byte c = String Go.c_backslash (Go.str1 Go.c_quote))
  \/ (c = Go.c_newline /\ escaped_byte c = "\n")
  \/ (c = Go.c_return /\ escaped_byte c = "\r")
  \/ (c = Go.c_tab /\ escaped_byte c = "\t")
  \/ (Ascii.eqb c Go.c_backslash = false /\ Ascii.eqb c Go.c_quote = false
      /\ Ascii.eqb c Go.c_newline = false /\ Ascii.eqb c Go.c_return = false
      /\ Ascii.eqb c Go.c_tab = false /\ escaped_byte c = Go.str1 c).
Proof.
  unfold escaped_byte.
  destruct (Ascii.eqb c Go.c_backslash) eqn:H1;
    [apply Ascii.eqb_eq in H1; subst; auto|].
  destruct (Ascii.eqb c Go.c_quote) eqn:H2;
    [apply Ascii.eqb_eq in H2; subst; auto|].
  destruct (Ascii.eqb c Go.c_newline) eqn:H3;
    [apply Ascii.eqb_eq in H3; subst; auto 6|].
  destruct (Ascii.eqb c Go.c_return) eqn:H4;
    [apply Ascii.eqb_eq in H4; subst; auto 6|].
  destruct (Ascii.eqb c Go.c_tab) eqn:H5;
    [apply Ascii.eqb_eq in H5; subst; auto 7|].
  repeat right. auto 7.
Qed.

Lemma escapeString_no_control c :
  c = Go.c_newline \/ c = Go.c_return \/ c = Go.c_tab ->
  forall s, Go.contains_byte c (JSON.escapeString s) = false.
Proof.
  intros Hc. induction s as [|d s IH]; [reflexivity|].
  rewrite escapeString_cons, contains_byte_app, IH, orb_false_r.
  destruct (escaped_byte_cases d) as [H|[H|[H|[H|[H|H]]]]];
    try (destruct H as [Hd He]; rewrite He; subst d;
         destruct Hc as [Hc|[Hc|Hc]]; subst c; reflexivity).
  destruct H as (_ & _ & H3 & H4 & H5 & He). rewrite He.
  cbn [Go.str1 Go.contains_byte]. rewrite orb_false_r.
  rewrite Ascii.eqb_sym.
  destruct Hc as [Hc|[Hc|Hc]]; subst c; assumption.
Qed.

Lemma escapeString_quotes : forall s esc,
  quotes_escaped esc (JSON.escapeString s) = true
  /\ ends_in_backslash esc (JSON.escapeString s) = ends_in_backslash esc s.
Proof.
  induction s as [|d s IH]; intros esc; [split; reflexivity|].
  rewrite escapeString_cons, quotes_escaped_app, ends_in_backslash_app.
  cbn [ends_in_backslash].
  assert (H : quotes_escaped esc (escaped_byte d) = true
              /\ ends_in_backslash esc (escaped_byte d)
                 = Ascii.eqb d Go.c_backslash).
  { destruct (escaped_byte_cases d) as [H|[H|[H|[H|[H|H]]]]];
      try (destruct H as [Hd He]; rewrite He; subst d; split; reflexivity).
    destruct H as (H1 & H2 & _ & _ & _ & He). rewrite He.
    cbn [Go.str1 quotes_escaped ends_in_backslash]. rewrite H2. auto. }
  destruct H as [Hq He]. rewrite Hq, He.
  destruct (IH (Ascii.eqb d Go.c_backslash)) as [IHq IHe].
  rewrite IHq, IHe. auto.
Qed.

Lemma escapeString_plain : forall s, plain s = true -> JSON.escapeString s = s.
Proof.
  induction s as [|d s IH]; intros H; [reflexivity|].
  cbn [plain] in H. apply andb_true_iff in H as [Hd Hs].
  apply negb_true_iff in Hd.
  repeat (apply orb_false_iff in Hd; destruct Hd as [Hd ?]).
  rewrite escapeString_cons, (IH Hs). unfold escaped_byte.
  repeat match goal with
         | Hx : ?b = false |- context [if ?b then _ else _] => rewrite Hx
         end.
  reflexivity.
Qed.

(** X10. [escapeString] works byte by byte, the five passes of
    [ReplaceAll] not touching each other's output: the escape of a
    concatenation is the concatenation of the escapes. Its result has
    no raw line feed, carriage return or tab; every double quote in it
    follows a backslash; it ends in a backslash exactly when the string
    does; and a string with none of the five bytes is left as it is. *)
Theorem escapeString_bytewise (s t : string) :
  JSON.escapeString (s ++ t) = JSON.escapeString s ++ JSON.escapeString t
  /\ Go.contains_byte Go.c_newline (JSON.escapeString s) = false
  /\ Go.contains_byte Go.c_return (JSON.escapeString s) = false
  /\ Go.contains_byte Go.c_tab (JSON.escapeString s) = false
  /\ quotes_escaped false (JSON.escapeString s) = true
  /\ ends_in_backslash false (JSON.escapeString s) = ends_in_backslash false s
  /\ (plain s = true -> JSON.escapeString s = s).
Proof.
  split; [apply escapeString_app|].
  split; [apply escapeString_no_control; auto|].
  split; [apply escapeString_no_control; auto|].
  split; [apply escapeString_no_control; auto|].
  split; [apply escapeString_quotes|].
  split; [apply escapeString_quotes|apply escapeString_plain].
Qed.

(* ----------------------------------------------------------------- *)
(** ** String literals as the JSON lexer reads them *)

Lemma substring_prefix : forall e r,
  String.substring 0 (String.length e) (e ++ r) = e.
Proof.
  induction e as [|c e IH]; intros r; cbn.
  - destruct r; reflexivity.
  - rewrite IH. reflexivity.
Qed.

Lemma substring_skip : forall pre e n,
  String.substring (String.length pre) n (pre ++ e) = String.substring 0 n e.
Proof.
  induction pre as [|c pre IH]; intros e n; cbn; [reflexivity|apply IH].
Qed.

Lemma backslash_before_snoc pre c :
  backslash_before (pre ++ Go.str1 c) = Ascii.eqb c Go.c_backslash.
Proof.
  unfold backslash_before. rewrite len_app. cbn [Go.len Go.str1 String.length].
  replace (Go.len pre + 1 - 1) with (Go.len pre) by lia.
  rewrite at_app_end. reflexivity.
Qed.

Lemma backslash_before_app pre t :
  0 < Go.len pre ->
  match Go.at_ (pre ++ t) (Go.len pre - 1) with
  | Some b => Ascii.eqb b Go.c_backslash
  | None => false
  end = backslash_before pre.
Proof.
  intros H. unfold backslash_before. rewrite at_app by lia. reflexivity.
Qed.

(** The scan of [readString] over a text in which every quote follows
    a backslash: it runs to the closing quote when the text does not
    end in a backslash. *)
Lemma JSON_readString_scan : forall e pre rest fuel start,
  0 < Go.len pre ->
  quotes_escaped (backslash_before pre) e = true ->
  ends_in_backslash (backslash_before pre) e = false ->
  Go.len e < fuel ->
  JSON.readString_loop fuel start
    (JSON.mkLexer (pre ++ e ++ String Go.c_quote rest) (Go.len pre))
  = (JSON.mkToken JSON.tokenString
       (Go.slice (pre ++ e ++ String Go.c_quote rest) (start + 1)
          (Go.len pre + Go.len e)),
     JSON.mkLexer (pre ++ e ++ String Go.c_quote rest)
       (Go.len pre + Go.len e + 1)).
Proof.
  induction e as [|c e IH]; intros pre rest fuel start Hpre Hq He Hf;
    (destruct fuel as [|fuel]; [cbn [Go.len String.length] in Hf; lia|]);
    cbn [JSON.readString_loop JSON.input JSON.pos].
  - cbn [append]. rewrite at_app_end. cbn [Go.at_ String.get].
    rewrite backslash_before_app by exact Hpre.
    cbn [ends_in_backslash] in He. rewrite He, Ascii.eqb_refl.
    cbn [andb negb]. unfold JSON.advance.
    cbn [JSON.input JSON.pos Go.len String.length].
    rewrite !Nat.add_0_r, Nat.add_sub. reflexivity.
  - cbn [append]. rewrite at_app_end. cbn [Go.at_ String.get].
    rewrite backslash_before_app by exact Hpre.
    cbn [quotes_escaped ends_in_backslash] in Hq, He.
    apply andb_true_iff in Hq as [Hc Hq].
    assert (Hno : Ascii.eqb c Go.c_quote && negb (backslash_before pre) = false).
    { destruct (Ascii.eqb c Go.c_quote), (backslash_before pre);
        cbn in *; congruence. }
    rewrite Hno. unfold JSON.advance. cbn [JSON.input JSON.pos].
    assert (Hin : pre ++ String c (e ++ String Go.c_quote rest)
                  = (pre ++ Go.str1 c) ++ e ++ String Go.c_quote rest).
    { rewrite append_assoc. reflexivity. }
    assert (Hlen : Go.len pre + 1 = Go.len (pre ++ Go.str1 c)).
    { rewrite len_app. reflexivity. }
    rewrite Hin, Hlen.
    rewrite (IH (pre ++ Go.str1 c) rest fuel start).
    + rewrite <- Hlen.
      replace (Go.len pre + Go.len (String c e))
        with (Go.len pre + 1 + Go.len e)
        by (unfold Go.len; cbn [String.length]; lia).
      reflexivity.
    + lia.
    + rewrite backslash_before_snoc. exact Hq.
    + rewrite backslash_before_snoc. exact He.
    + cbn [Go.len String.length] in Hf. unfold Go.len. lia.
Qed.

(** When the text ends in a backslash the closing quote is taken for
    an escaped one, and the scan runs off the end of the input. *)
Lemma JSON_readString_overrun : forall e pre fuel start,
  0 < Go.len pre ->
  quotes_escaped (backslash_before pre) e = true ->
  ends_in_backslash (backslash_before pre) e = true ->
  Go.len e < fuel ->
  JSON.readString_loop fuel start
    (JSON.mkLexer (pre ++ e ++ Go.str1 Go.c_quote) (Go.len pre))
  = (JSON.eof,
     JSON.mkLexer (pre ++ e ++ Go.str1 Go.c_quote) (Go.len pre + Go.len e + 1)).
Proof.
  induction e as [|c e IH]; intros pre fuel start Hpre Hq He Hf;
    (destruct fuel as [|fuel]; [cbn [Go.len String.length] in Hf; lia|]);
    cbn [JSON.readString_loop JSON.input JSON.pos].
  - cbn [append]. rewrite at_app_end. cbn [Go.at_ String.get Go.str1].
    rewrite backslash_before_app by exact Hpre.
    cbn [ends_in_backslash] in He. rewrite He, Ascii.eqb_refl.
    cbn [andb negb]. unfold JSON.advance.
    cbn [JSON.input JSON.pos Go.len String.length].
    assert (Hend : Go.at_ (pre ++ Go.str1 Go.c_quote) (Go.len pre + 1) = None).
    { apply get_beyond. fold (Go.len (pre ++ Go.str1 Go.c_quote)).
      rewrite len_app. cbn. lia. }
    rewrite Nat.add_0_r.
    destruct fuel as [|fuel]; cbn [JSON.readString_loop JSON.input JSON.pos].
    + reflexivity.
    + rewrite Hend. reflexivity.
  - cbn [append]. rewrite at_app_end. cbn [Go.at_ String.get].
    rewrite backslash_before_app by exact Hpre.
    cbn [quotes_escaped ends_in_backslash] in Hq, He.
    apply andb_true_iff in Hq as [Hc Hq].
    assert (Hno : Ascii.eqb c Go.c_quote && negb (backslash_before pre) = false).
    { destruct (Ascii.eqb c Go.c_quote), (backslash_before pre);
        cbn in *; congruence. }
    rewrite Hno. unfold JSON.advance. cbn [JSON.input JSON.pos].
    assert (Hin : pre ++ String c (e ++ Go.str1 Go.c_quote)
                  = (pre ++ Go.str1 c) ++ e ++ Go.str1 Go.c_quote).
    { rewrite append_assoc. reflexivity. }
    assert (Hlen : Go.len pre + 1 = Go.len (pre ++ Go.str1 c)).
    { rewrite len_app. reflexivity. }
    rewrite Hin, Hlen.
    rewrite (IH (pre ++ Go.str1 c) fuel start).
    + rewrite <- Hlen.
      replace (Go.len pre + Go.len (String c e))
        with (Go.len pre + 1 + Go.len e)
        by (unfold Go.len; cbn [String.length]; lia).
      reflexivity.
    + lia.
    + rewrite backslash_before_snoc. exact Hq.
    + rewrite backslash_before_snoc. exact He.
    + cbn [Go.len String.length] in Hf. unfold Go.len. lia.
Qed.

Lemma JSON_next_at_quote data :
  Go.at_ data 0 = Some Go.c_quote ->
  JSON.next (JSON.newLexer data) = JSON.readString (JSON.newLexer data).
Proof.
  intros H. unfold JSON.next, JSON.skipWhitespace.
  rewrite JSON_skipWhitespace_fixed
    by (cbn [JSON.newLexer JSON.input JSON.pos]; rewrite H; reflexivity).
  cbn [JSON.newLexer JSON.input JSON.pos]. rewrite H. reflexivity.
Qed.

(** X11. The JSON lexer reads the literal that [Marshal] writes for a
    string back as the escaped text, not as the string: [readString]
    undoes no escape. When the string ends in a backslash the closing
    quote of the literal is taken for an escaped quote and the token is
    EOF. So [Unmarshal] of [Marshal] of a string gives [escapeString]
    of it, or a syntax error. *)
Theorem JSON_string_literal_read_back (s old : string) :
  JSON.Marshal (Some (TString, NString s)) = Ok (JSON.quoted (JSON.escapeString s))
  /\ fst (JSON.next (JSON.newLexer (JSON.quoted (JSON.escapeString s))))
     = (if ends_in_backslash false s then JSON.eof
        else JSON.mkToken JSON.tokenString (JSON.escapeString s))
  /\ JSON.Unmarshal (JSON.quoted (JSON.escapeString s)) (ptr_to TString (NString old))
     = (if ends_in_backslash false s
        then Decoded (NPtr (Some (NString old))) (Some (SyntaxError "value" ""))
        else Decoded (NPtr (Some (NString (JSON.escapeString s)))) None).
Proof.
  split; [reflexivity|].
  destruct (escapeString_quotes s false) as [Hq He].
  set (e := JSON.escapeString s) in *.
  assert (Hnext : JSON.next (JSON.newLexer (JSON.quoted e))
                  = if ends_in_backslash false s
                    then (JSON.eof, JSON.mkLexer (JSON.quoted e) (Go.len e + 2))
                    else (JSON.mkToken JSON.tokenString e,
                          JSON.mkLexer (JSON.quoted e) (Go.len e + 2))).
  { rewrite JSON_next_at_quote by reflexivity.
    unfold JSON.readString, JSON.quoted.
    cbn [JSON.newLexer JSON.advance JSON.input JSON.pos].
    change (String Go.c_quote (e ++ String Go.c_quote ""))
      with (Go.str1 Go.c_quote ++ e ++ String Go.c_quote "").
    change (0 + 1) with (Go.len (Go.str1 Go.c_quote)).
    assert (Hfuel : Go.len e <
                    Go.len (Go.str1 Go.c_quote ++ e ++ String Go.c_quote "")
                    - Go.len (Go.str1 Go.c_quote)).
    { rewrite !len_app. unfold Go.len, Go.str1. cbn [String.length]. lia. }
    rewrite <- He.
    destruct (ends_in_backslash false e) eqn:Hend.
    - rewrite (JSON_readString_overrun e (Go.str1 Go.c_quote)); auto.
      replace (Go.len (Go.str1 Go.c_quote) + Go.len e + 1) with (Go.len e + 2)
        by (unfold Go.len, Go.str1; cbn [String.length]; lia).
      reflexivity.
    - rewrite (JSON_readString_scan e (Go.str1 Go.c_quote) ""); auto.
      replace (Go.len (Go.str1 Go.c_quote) + Go.len e + 1) with (Go.len e + 2)
        by (unfold Go.len, Go.str1; cbn [String.length]; lia).
      f_equal. f_equal. unfold Go.slice.
      replace (Go.len (Go.str1 Go.c_quote) + Go.len e - (0 + 1))
        with (String.length e)
        by (unfold Go.len, Go.str1; cbn [String.length]; lia).
      cbn [Go.str1 append Nat.add String.substring].
      apply substring_prefix. }
  split; [rewrite Hnext; destruct (ends_in_backslash false s); reflexivity|].
  unfold JSON.Unmarshal, JSON.newParser. rewrite Hnext.
  unfold JSON.fuel_for. rewrite Nat.add_comm.
  destruct (ends_in_backslash false s); reflexivity.
Qed.

(* ----------------------------------------------------------------- *)
(** ** TOML numbers and the minus sign *)

Lemma contains_byte_substring c : forall s lo n,
  (forall i, lo <= i < lo + n -> String.get i s <> Some c) ->
  Go.contains_byte c (String.substring lo n s) = false.
Proof.
  induction s as [|a s IH]; intros lo n H.
  - destruct lo, n; reflexivity.
  - destruct lo as [|lo].
    + destruct n as [|n]; [reflexivity|]. cbn [String.substring Go.contains_byte].
      apply orb_false_iff. split.
      * apply Ascii.eqb_neq. intros ->. apply (H 0); [lia|reflexivity].
      * apply IH. intros i Hi. apply (H (S i)). lia.
    + cbn [String.substring]. apply IH. intros i Hi. apply (H (S i)). lia.
Qed.

(** A run of [readNumberOrDate] that ends with [isDate] unset has read
    no byte of a date. *)
Lemma TOML_readNumberOrDate_loop_plain : forall fuel isDate l l1,
  TOML.readNumberOrDate_loop fuel isDate l = (false, l1) ->
  isDate = false
  /\ forall i c, TOML.pos l <= i < TOML.pos l1 ->
       Go.at_ (TOML.input l) i = Some c -> TOML.date_byte c = false.
Proof.
  induction fuel as [|fuel IH]; intros isDate l l1 H;
    cbn [TOML.readNumberOrDate_loop] in H.
  - inversion H; subst. split; [reflexivity|]. intros; lia.
  - destruct (Go.at_ (TOML.input l) (TOML.pos l)) as [c|] eqn:Hc.
    + destruct (TOML.date_byte c) eqn:Hd.
      * apply IH in H as [H _]. discriminate.
      * destruct (TOML.number_byte c); cbn [negb] in H.
        -- apply IH in H as [Hi Hall]. split; [exact Hi|].
           cbn [TOML.advance TOML.input TOML.pos] in Hall.
           intros i c' Hr Hg.
           destruct (Nat.eq_dec i (TOML.pos l)) as [->|Hne].
           ++ congruence.
           ++ apply (Hall i c'); [lia|exact Hg].
        -- inversion H; subst. split; [reflexivity|]. intros; lia.
    + inversion H; subst. split; [reflexivity|]. intros; lia.
Qed.

Lemma TOML_readNumberOrDate_loop_date : forall fuel l,
  fst (TOML.readNumberOrDate_loop fuel true l) = true.
Proof.
  induction fuel as [|fuel IH]; intros l; cbn [TOML.readNumberOrDate_loop];
    [reflexivity|].
  destruct (Go.at_ _ _) as [c|]; [|reflexivity].
  destruct (TOML.date_byte c); [apply IH|].
  destruct (TOML.number_byte c); cbn [negb]; [apply IH|reflexivity].
Qed.

Lemma TOML_readString_not_number : forall fuel start l,
  TOML.typ (fst (TOML.readString_loop fuel start l)) <> TOML.tokenNumber.
Proof.
  induction fuel as [|fuel IH]; intros start l; cbn [TOML.readString_loop];
    [discriminate|].
  destruct (Go.at_ (TOML.input l) (TOML.pos l)) as [c|]; [|discriminate].
  match goal with |- context [if ?b then _ else _] => destruct b end;
    [discriminate|apply IH].
Qed.

Lemma TOML_number_or_eof_minus l c :
  TOML.typ (fst (TOML.number_or_eof l c)) = TOML.tokenNumber ->
  Go.contains_byte "-"%char (TOML.value (fst (TOML.number_or_eof l c))) = false.
Proof.
  unfold TOML.number_or_eof, TOML.readNumberOrDate.
  destruct (_ || _); [|discriminate].
  destruct (TOML.readNumberOrDate_loop _ _ _) as [[|] l1] eqn:E;
    [discriminate|].
  intros _. cbn [fst TOML.value].
  pose proof (TOML_readNumberOrDate_loop_pos
                (Go.len (TOML.input l) - TOML.pos l) false l) as [Hin _].
  rewrite E in Hin. cbn [snd] in Hin.
  apply TOML_readNumberOrDate_loop_plain in E as [_ Hall].
  unfold Go.slice. apply contains_byte_substring.
  intros i Hi Hg.
  assert (Hlt : TOML.pos l <= i < TOML.pos l1) by lia.
  rewrite Hin in Hg. specialize (Hall i "-"%char Hlt Hg). discriminate.
Qed.

Lemma TOML_next_number_minus l :
  TOML.typ (fst (TOML.next l)) = TOML.tokenNumber ->
  Go.contains_byte "-"%char (TOML.value (fst (TOML.next l))) = false.
Proof.
  unfold TOML.next. set (l0 := TOML.skipWhitespace l).
  destruct (Go.at_ (TOML.input l0) (TOML.pos l0)) as [c|]; [|discriminate].
  repeat match goal with
         | |- context [if Ascii.eqb c ?x then _ else _] =>
             destruct (Ascii.eqb c x); [try discriminate|]
         end;
    try apply TOML_number_or_eof_minus.
  - intros H. exfalso. revert H. apply TOML_readString_not_number.
  - unfold TOML.keyword. destruct (TOML.looking_at _ _); [discriminate|].
    apply TOML_number_or_eof_minus.
  - unfold TOML.keyword. destruct (TOML.looking_at _ _); [discriminate|].
    apply TOML_number_or_eof_minus.
Qed.

Lemma TOML_next_minus_date l :
  Go.at_ (TOML.input l) (TOML.pos (TOML.skipWhitespace l)) = Some "-"%char ->
  TOML.typ (fst (TOML.next l)) = TOML.tokenDate.
Proof.
  unfold TOML.next, TOML.skipWhitespace.
  destruct (TOML_skipWhitespace_loop_pos
              (Go.len (TOML.input l) - TOML.pos l) l) as [Hin0 _].
  set (l0 := TOML.skipWhitespace_loop _ l) in *. rewrite <- Hin0.
  intros Hc. rewrite Hc. cbn [Ascii.eqb Bool.eqb andb].
  change (Ascii.eqb "-" Go.c_newline) with false.
  change (Ascii.eqb "-" Go.c_quote) with false. cbn iota.
  unfold TOML.number_or_eof, TOML.readNumberOrDate. cbn [orb Ascii.eqb Bool.eqb andb].
  apply get_within in Hc as Hlt. fold (Go.len (TOML.input l0)) in Hlt.
  destruct (Go.len (TOML.input l0) - TOML.pos l0) as [|fuel] eqn:Hf; [lia|].
  cbn [TOML.readNumberOrDate_loop]. rewrite Hc.
  change (TOML.date_byte "-"%char) with true. cbn iota.
  pose proof (TOML_readNumberOrDate_loop_date fuel (TOML.advance l0 1)) as Hd.
  destruct (TOML.readNumberOrDate_loop _ _ _) as [d l1]. cbn in Hd. subst d.
  reflexivity.
Qed.

(** X12. The TOML lexer reads no negative number: a minus sign makes the
    token a date, so the text of a number token has no minus sign, and
    a token that starts with one is a date token. *)
Theorem TOML_minus_makes_a_date (l : TOML.lexer) :
  (TOML.typ (fst (TOML.next l)) = TOML.tokenNumber ->
   Go.contains_byte "-"%char (TOML.value (fst (TOML.next l))) = false)
  /\ (Go.at_ (TOML.input l) (TOML.pos (TOML.skipWhitespace l)) = Some "-"%char ->
      TOML.typ (fst (TOML.next l)) = TOML.tokenDate).
Proof.
  split; [apply TOML_next_number_minus|apply TOML_next_minus_date].
Qed.

Lemma IsDigit_val c : Go.IsDigit c = true -> (0 <= Go.digit_val c)%Z.
Proof.
  unfold Go.IsDigit, Go.digit_val. intros H.
  apply andb_true_iff in H as [H _]. apply Nat.leb_le in H. lia.
Qed.

Lemma digits_acc_nonneg : forall s acc z,
  (0 <= acc)%Z -> Go.digits_acc s acc = Some z -> (0 <= z)%Z.
Proof.
  induction s as [|c s IH]; intros acc z Ha H; cbn [Go.digits_acc] in H.
  - inversion H; subst; exact Ha.
  - destruct (Go.IsDigit c) eqn:Hd; [|discriminate].
    apply IsDigit_val in Hd. eapply IH; [|exact H]. lia.
Qed.

Lemma ParseInt_nonneg s z :
  Go.contains_byte "-"%char s = false -> Go.ParseInt s = Some z -> (0 <= z)%Z.
Proof.
  destruct s as [|c rest]; [discriminate|].
  cbn [Go.contains_byte]. intros Hc H. apply orb_false_iff in Hc as [Hc _].
  unfold Go.ParseInt in H. rewrite (Ascii.eqb_sym c "-"), Hc in H.
  assert (Hd : forall body, Go.digits body = Some z -> (0 <= z)%Z).
  { intros body Hb. unfold Go.digits in Hb. destruct body; [discriminate|].
    eapply digits_acc_nonneg; [|exact Hb]. lia. }
  destruct (Ascii.eqb c "+").
  - destruct (Go.digits rest) as [un|] eqn:E; [|discriminate].
    destruct (un <? 2 ^ 63)%Z; [|discriminate]. inversion H; subst. eauto.
  - destruct (Go.digits (String c rest)) as [un|] eqn:E; [|discriminate].
    destruct (un <? 2 ^ 63)%Z; [|discriminate]. inversion H; subst. eauto.
Qed.

Section TOML_no_negative.
Variable pv : TOML.parser -> result (Value * TOML.parser).
Hypothesis Hpv : forall p v p1,
  pv (TOML.advance_token p) = Ok (v, p1) -> no_negative v = true.

Lemma TOML_parseArray_loop_nonneg : forall fuel arr p r p1,
  forallb no_negative arr = true ->
  TOML.parseArray_loop pv fuel arr (TOML.advance_token p) = Ok (r, p1) ->
  forallb no_negative r = true.
Proof.
  induction fuel as [|fuel IH]; intros arr p r p1 Ha H;
    cbn [TOML.parseArray_loop] in H; [discriminate|].
  destruct (pv (TOML.advance_token p)) as [[v p2]| | |] eqn:Hv;
    cbn [bind] in H; try discriminate.
  apply Hpv in Hv.
  assert (Ha' : forallb no_negative (v :: arr) = true)
    by (cbn [forallb]; rewrite Hv, Ha; reflexivity).
  destruct (TOML.typ (TOML.p_token p2)); try discriminate.
  - assert (Hr : r = rev (v :: arr)) by (inversion H; reflexivity).
    rewrite Hr. apply forallb_forall. intros x Hx. rewrite <- in_rev in Hx.
    revert x Hx. apply forallb_forall. exact Ha'.
  - eapply IH; [exact Ha'|exact H].
Qed.
End TOML_no_negative.

Lemma TOML_parseValue_nonneg time_Parse : forall fuel p v p1,
  TOML.parseValue time_Parse fuel (TOML.advance_token p) = Ok (v, p1) ->
  no_negative v = true.
Proof.
  induction fuel as [|fuel IH]; intros p v p1 H; cbn [TOML.parseValue] in H;
    [discriminate|].
  destruct (TOML.typ (TOML.p_token (TOML.advance_token p))) eqn:Hty;
    try discriminate.
  - inversion H; reflexivity.
  - unfold TOML.number_value in H.
    destruct (Go.contains_byte "."%char _).
    + destruct (Go.ParseFloat _); cbn [bind] in H;
        [inversion H; reflexivity|discriminate].
    + destruct (Go.ParseInt _) as [i|] eqn:Hi; cbn [bind] in H;
        [|discriminate].
      inversion H; subst. cbn [no_negative]. apply Z.leb_le.
      eapply ParseInt_nonneg; [|exact Hi].
      unfold TOML.advance_token in *.
      pose proof (TOML_next_number_minus (TOML.p_lexer p)) as Hm.
      destruct (TOML.next (TOML.p_lexer p)) as [tok l1].
      cbn [TOML.p_token fst] in *. auto.
  - inversion H; reflexivity.
  - inversion H; reflexivity.
  - destruct (time_Parse _); [inversion H; reflexivity|discriminate].
  - destruct (TOML.parseArray _ _ _) as [[arr p2]| | |] eqn:E; cbn [bind] in H;
      try discriminate.
    inversion H; subst. cbn [fst no_negative].
    unfold TOML.parseArray in E.
    destruct (TOML.typ (TOML.p_token (TOML.advance_token (TOML.advance_token p))));
      try (eapply (TOML_parseArray_loop_nonneg _ IH); [|exact E]; reflexivity).
    inversion E; reflexivity.
Qed.

(** X13. No TOML document is parsed into a table with a negative
    Integer, also not inside an array: the text of such a literal is a
    date token to the lexer. *)
Theorem TOML_parses_no_negative_integer
  (time_Parse : string -> option time_Time) (data : string) (tbl : table) :
  TOML.parseTable time_Parse (TOML.newParser data) = Ok tbl ->
  forallb (fun kv => no_negative (snd kv)) tbl = true.
Proof.
  intros H. apply TOML_parseTable_loop_one in H; [|reflexivity].
  destruct H as [->|(key & v & f & p0 & p1 & Hv & ->)]; [reflexivity|].
  apply TOML_parseValue_nonneg in Hv. cbn. rewrite Hv. reflexivity.
Qed.

Lemma TOML_parses_no_negative_integer_witness :
  TOML.parseTable (fun _ => None) (TOML.newParser (q "a" ++ " = [1, 20]"))
  = Ok [("a", VArray [VInt 1; VInt 20])]
  /\ forallb (fun kv => no_negative (snd kv)) [("a", VArray [VInt 1; VInt 20])]
     = true.
Proof.
  split; [vm_compute; reflexivity|].
  apply (TOML_parses_no_negative_integer (fun _ => None)
           (q "a" ++ " = [1, 20]")).
  vm_compute; reflexivity.
Defined.

(* ----------------------------------------------------------------- *)
(** ** Integers: [FormatInt], [ParseInt] and the JSON round trip *)

Lemma digits_acc_uint_pos : forall d p,
  Go.digits_acc (NilEmpty.string_of_uint d) (Zpos p)
  = Some (Zpos (Pos.of_uint_acc d p)).
Proof.
  induction d as [|d IH|d IH|d IH|d IH|d IH|d IH|d IH|d IH|d IH|d IH];
    intros p; [reflexivity|..];
    cbn [NilEmpty.string_of_uint Go.digits_acc Pos.of_uint_acc];
    match goal with
    | |- context [Go.IsDigit ?c] => change (Go.IsDigit c) with true
    end;
    cbn iota; rewrite <- IH; f_equal;
    match goal with
    | |- context [Go.digit_val ?c] =>
        let v := eval vm_compute in (Go.digit_val c) in
        change (Go.digit_val c) with v
    end; lia.
Qed.

Lemma digits_acc_uint : forall d,
  Go.digits_acc (NilEmpty.string_of_uint d) 0
  = Some (Z.of_N (Pos.of_uint d)).
Proof.
  induction d as [|d IH|d IH|d IH|d IH|d IH|d IH|d IH|d IH|d IH|d IH];
    [reflexivity|exact IH|..];
    cbn [NilEmpty.string_of_uint Go.digits_acc Pos.of_uint];
    match goal with
    | |- context [Go.IsDigit ?c] => change (Go.IsDigit c) with true
    end;
    cbn iota;
    match goal with
    | |- Go.digits_acc _ ?a = _ =>
        let a' := eval vm_compute in a in change a with a'
    end;
    rewrite digits_acc_uint_pos; reflexivity.
Qed.

Lemma int_text_uint : forall d, int_text (NilEmpty.string_of_uint d) = true.
Proof.
  induction d; cbn [NilEmpty.string_of_uint int_text]; try reflexivity;
    rewrite IHd; reflexivity.
Qed.

Lemma to_uint_digits p :
  exists c rest,
    NilZero.string_of_uint (Pos.to_uint p) = String c rest
    /\ NilEmpty.string_of_uint (Pos.to_uint p) = String c rest
    /\ Go.IsDigit c = true.
Proof.
  pose proof (DecimalPos.Unsigned.of_to p) as H.
  destruct (Pos.to_uint p) eqn:E; [discriminate|..];
    do 2 eexists; (split; [reflexivity|split; reflexivity]).
Qed.

Lemma IsDigit_cases c :
  Go.IsDigit c = true ->
  In c ["0"; "1"; "2"; "3"; "4"; "5"; "6"; "7"; "8"; "9"]%char.
Proof.
  unfold Go.IsDigit, Go.code. intros H.
  apply andb_true_iff in H as [H1 H2].
  apply Nat.leb_le in H1. apply Nat.leb_le in H2.
  rewrite <- (ascii_nat_embedding c).
  set (n := nat_of_ascii c) in *.
  assert (Hn : n = 48 \/ n = 49 \/ n = 50 \/ n = 51 \/ n = 52 \/ n = 53
               \/ n = 54 \/ n = 55 \/ n = 56 \/ n = 57) by lia.
  cbn [In].
  repeat (destruct Hn as [-> |Hn]; [auto 12|]). subst n. rewrite Hn. auto 12.
Qed.

(** [ParseInt] reads back what [FormatInt] writes, for every 64-bit
    integer; the text is made of digits and a leading minus sign. *)
Lemma FormatInt_parses (z : Z) :
  (Go.int64_min <= z <= Go.int64_max)%Z ->
  Go.ParseInt (Go.FormatInt z) = Some z
  /\ int_text (Go.FormatInt z) = true.
Proof.
  unfold Go.int64_min, Go.int64_max, Go.FormatInt. intros Hr.
  destruct z as [|p|p]; [split; reflexivity|..];
    cbn [Z.to_int NilZero.string_of_int];
    destruct (to_uint_digits p) as (c & rest & E0 & E1 & Hd);
    pose proof (digits_acc_uint (Pos.to_uint p)) as Hv;
    pose proof (int_text_uint (Pos.to_uint p)) as Ht;
    rewrite DecimalPos.Unsigned.of_to in Hv; rewrite E1 in Hv, Ht;
    rewrite E0.
  - split; [|exact Ht]. unfold Go.ParseInt.
    assert (Hc : Ascii.eqb c "+" = false /\ Ascii.eqb c "-" = false).
    { apply IsDigit_cases in Hd. cbn [In] in Hd.
      repeat (destruct Hd as [<-|Hd]; [split; reflexivity|]). contradiction. }
    destruct Hc as [-> ->]. unfold Go.digits. rewrite Hv.
    cbn [Z.of_N].
    destruct (Z.pos p <? 2 ^ 63)%Z eqn:Hlt; [reflexivity|].
    apply Z.ltb_ge in Hlt. lia.
  - split; [|exact Ht]. unfold Go.ParseInt.
    change (Ascii.eqb "-" "+") with false. change (Ascii.eqb "-" "-") with true.
    cbn iota. unfold Go.digits. rewrite Hv. cbn [Z.of_N].
    destruct (Z.pos p <=? 2 ^ 63)%Z eqn:Hle; [reflexivity|].
    apply Z.leb_gt in Hle. lia.
Qed.

Lemma FormatInt_nonempty z : exists c rest, Go.FormatInt z = String c rest.
Proof.
  unfold Go.FormatInt.
  destruct z as [|p|p]; cbn [Z.to_int NilZero.string_of_int].
  - exists "0"%char, "". reflexivity.
  - destruct (to_uint_digits p) as (c & rest & E0 & _). rewrite E0. eauto.
  - eauto.
Qed.

Lemma int_text_number_byte c :
  Ascii.eqb c "-" || Go.IsDigit c = true -> JSON.number_byte c = true.
Proof.
  unfold JSON.number_byte. intros H.
  destruct (Go.IsDigit c); [reflexivity|].
  destruct (Ascii.eqb c "-"); [|discriminate].
  rewrite !orb_true_r. reflexivity.
Qed.

Lemma int_text_no_point : forall s,
  int_text s = true -> Go.contains_byte "."%char s = false.
Proof.
  induction s as [|c s IH]; intros H; [reflexivity|].
  cbn [int_text] in H. apply andb_true_iff in H as [Hc Hs].
  cbn [Go.contains_byte]. rewrite (IH Hs), orb_false_r.
  destruct (Ascii.eqb "." c) eqn:E; [|reflexivity].
  apply Ascii.eqb_eq in E. subst c. discriminate.
Qed.

(** [readNumber] reads a text of digits and minus signs to its end. *)
Lemma JSON_readNumber_loop_all : forall s pre fuel,
  int_text s = true -> Go.len s <= fuel ->
  JSON.readNumber_loop fuel (JSON.mkLexer (pre ++ s) (Go.len pre))
  = JSON.mkLexer (pre ++ s) (Go.len pre + Go.len s).
Proof.
  induction s as [|c s IH]; intros pre fuel Ht Hf.
  - cbn [Go.len String.length]. rewrite Nat.add_0_r.
    destruct fuel as [|fuel]; cbn [JSON.readNumber_loop JSON.input JSON.pos];
      [reflexivity|].
    rewrite at_app_end. reflexivity.
  - destruct fuel as [|fuel]; [cbn [Go.len String.length] in Hf; lia|].
    cbn [JSON.readNumber_loop JSON.input JSON.pos].
    rewrite at_app_end. cbn [Go.at_ String.get].
    cbn [int_text] in Ht. apply andb_true_iff in Ht as [Hc Hs].
    rewrite (int_text_number_byte c Hc).
    unfold JSON.advance. cbn [JSON.input JSON.pos].
    assert (Hin : pre ++ String c s = (pre ++ Go.str1 c) ++ s).
    { rewrite append_assoc. reflexivity. }
    assert (Hlen : Go.len pre + 1 = Go.len (pre ++ Go.str1 c)).
    { rewrite len_app. reflexivity. }
    rewrite Hin, Hlen, (IH (pre ++ Go.str1 c) fuel Hs).
    + rewrite <- Hlen.
      replace (Go.len pre + Go.len (String c s))
        with (Go.len pre + 1 + Go.len s)
        by (unfold Go.len; cbn [String.length]; lia).
      reflexivity.
    + cbn [Go.len String.length] in Hf. unfold Go.len. lia.
Qed.

Lemma JSON_next_int_text c rest :
  int_text (String c rest) = true ->
  JSON.next (JSON.newLexer (String c rest))
  = (JSON.mkToken JSON.tokenNumber (String c rest),
     JSON.mkLexer (String c rest) (Go.len (String c rest))).
Proof.
  intros Ht. pose proof Ht as Ht'.
  cbn [int_text] in Ht'. apply andb_true_iff in Ht' as [Hc _].
  assert (Hin : In c ["-"; "0"; "1"; "2"; "3"; "4"; "5"; "6"; "7"; "8"; "9"]%char).
  { destruct (Ascii.eqb c "-") eqn:E.
    - apply Ascii.eqb_eq in E. left. auto.
    - right. apply IsDigit_cases. exact Hc. }
  assert (Hnext : JSON.next (JSON.newLexer (String c rest))
                  = JSON.readNumber (JSON.newLexer (String c rest))).
  { unfold JSON.next, JSON.skipWhitespace.
    rewrite JSON_skipWhitespace_fixed.
    - cbn [JSON.newLexer JSON.input JSON.pos Go.at_ String.get].
      cbn [In] in Hin.
      repeat (destruct Hin as [<-|Hin]; [reflexivity|]). contradiction.
    - cbn [JSON.newLexer JSON.input JSON.pos Go.at_ String.get].
      cbn [In] in Hin.
      repeat (destruct Hin as [<-|Hin]; [reflexivity|]). contradiction. }
  rewrite Hnext. unfold JSON.readNumber.
  cbn [JSON.newLexer JSON.input JSON.pos].
  pose proof (JSON_readNumber_loop_all (String c rest) ""
                (Go.len (String c rest) - 0) Ht) as Hl.
  cbn [append] in Hl. change (Go.len "") with 0 in Hl.
  fold (JSON.newLexer (String c rest)) in Hl.
  rewrite Hl by lia. cbn [JSON.input JSON.pos Nat.add].
  f_equal. f_equal. unfold Go.slice, Go.len. rewrite Nat.sub_0_r.
  rewrite <- (append_nil_r (String c rest)) at 2.
  apply substring_prefix.
Qed.

(** X14. An integer survives the JSON round trip, for every width and
    every value of that width: [Marshal] writes its decimal text, the
    lexer reads the text as one Number token, [parseValue] makes the
    Integer of it, and [setValue] stores it unchanged. *)
Theorem JSON_integer_round_trip (k : int_kind) (z old : Z) :
  (- 2 ^ (int_bits k - 1) <= z < 2 ^ (int_bits k - 1))%Z ->
  JSON.Marshal (Some (TInt k, NInt z)) = Ok (Go.FormatInt z)
  /\ JSON.Unmarshal (Go.FormatInt z) (ptr_to (TInt k) (NInt old))
     = Decoded (NPtr (Some (NInt z))) None.
Proof.
  intros Hr. split; [reflexivity|].
  assert (H64 : (Go.int64_min <= z <= Go.int64_max)%Z).
  { unfold Go.int64_min, Go.int64_max.
    assert (2 ^ (int_bits k - 1) <= 2 ^ 63)%Z
      by (apply Z.pow_le_mono_r; destruct k; cbn; lia).
    lia. }
  destruct (FormatInt_parses z H64) as [Hp Ht].
  destruct (FormatInt_nonempty z) as (c & rest & E).
  rewrite E in *.
  unfold JSON.Unmarshal, JSON.newParser.
  rewrite (JSON_next_int_text c rest Ht).
  unfold JSON.fuel_for. rewrite Nat.add_comm.
  cbn [Nat.add JSON.parseValue JSON.p_token JSON.typ JSON.value].
  unfold JSON.number_value. rewrite (int_text_no_point _ Ht), Hp.
  cbn [bind]. unfold ptr_to, decode_into. cbn [setValue inside].
  destruct (wrap_signed_range (int_bits k) z) as (_ & _ & Hw);
    [destruct k; reflexivity|].
  rewrite (Hw Hr). reflexivity.
Qed.

Lemma JSON_integer_round_trip_witness :
  (- 2 ^ (int_bits KInt8 - 1) <= -128 < 2 ^ (int_bits KInt8 - 1))%Z
  /\ JSON.Marshal (Some (TInt KInt8, NInt (-128))) = Ok (Go.FormatInt (-128))
  /\ JSON.Unmarshal (Go.FormatInt (-128)) (ptr_to (TInt KInt8) (NInt 5))
     = Decoded (NPtr (Some (NInt (-128)))) None.
Proof.
  split; [cbn; lia|].
  apply (JSON_integer_round_trip KInt8 (-128) 5). cbn; lia.
Defined.

(* ----------------------------------------------------------------- *)
(** ** The decoder: records field by field, and maps *)

Lemma set_fields_present fmt obj :
  forall fs vs dst,
    set_fields fmt obj fs vs = Decoded dst None ->
    exists vs', dst = NStruct vs'
      /\ forall i f ft v name x,
           nth_error fs i = Some (f, ft) -> nth_error vs i = Some v ->
           wire_name fmt f = Some name -> tbl_lookup name obj = Some x ->
           exists v', setValue fmt ft v x = Decoded v' None
                      /\ nth_error vs' i = Some v'.
Proof.
  induction fs as [|[field ft] fs IH]; intros vs dst H.
  - cbn in H. inversion H; subst. exists vs. split; [reflexivity|].
    intros [|i]; discriminate.
  - destruct vs as [|v vs].
    { cbn in H. inversion H; subst. exists []. split; [reflexivity|].
      intros [|i]; discriminate. }
    cbn [set_fields] in H.
    assert (Hkeep : forall y,
      inside (cons_field y) (set_fields fmt obj fs vs) = Decoded dst None ->
      (forall name x, wire_name fmt field = Some name ->
         tbl_lookup name obj = Some x -> setValue fmt ft v x = Decoded y None) ->
      exists vs', dst = NStruct vs'
        /\ forall i f ft' w name x,
             nth_error ((field, ft) :: fs) i = Some (f, ft') ->
             nth_error (v :: vs) i = Some w ->
             wire_name fmt f = Some name -> tbl_lookup name obj = Some x ->
             exists w', setValue fmt ft' w x = Decoded w' None
                        /\ nth_error vs' i = Some w').
    { intros y H0 Hy.
      apply inside_cons_length in H0 as (dst' & Hd & ->).
      apply IH in Hd as (vs' & -> & Hall).
      exists (y :: vs'). split; [reflexivity|].
      intros [|i] f ft' w name x Hn Hv Hw Hl; cbn in Hn, Hv |- *.
      - inversion Hn; inversion Hv; subst. exists y. split; eauto.
      - eapply Hall; eauto. }
    destruct (wire_name fmt field) as [name|] eqn:Hw;
      [|apply (Hkeep v H); discriminate].
    destruct (tbl_lookup name obj) as [x|] eqn:Hl;
      [|apply (Hkeep v H); intros ? ? E; inversion E; subst; congruence].
    destruct (setValue fmt ft v x) as [v' [e|]| |] eqn:Hs; try discriminate.
    apply (Hkeep v' H). intros ? ? E E'. inversion E; subst. congruence.
Qed.

Lemma set_fields_stops fmt obj :
  forall fs vs dst e,
    set_fields fmt obj fs vs = Decoded dst (Some e) ->
    exists i f ft name x v v' vs',
      dst = NStruct vs'
      /\ nth_error fs i = Some (f, ft) /\ nth_error vs i = Some v
      /\ wire_name fmt f = Some name /\ tbl_lookup name obj = Some x
      /\ setValue fmt ft v x = Decoded v' (Some e)
      /\ nth_error vs' i = Some v'
      /\ (forall j, i < j -> nth_error vs' j = nth_error vs j)
      /\ (forall j g gt w n y,
            j < i -> nth_error fs j = Some (g, gt) -> nth_error vs j = Some w ->
            wire_name fmt g = Some n -> tbl_lookup n obj = Some y ->
            exists w', setValue fmt gt w y = Decoded w' None
                       /\ nth_error vs' j = Some w').
Proof.
  induction fs as [|[field ft] fs IH]; intros vs dst e H.
  - cbn in H. discriminate.
  - destruct vs as [|v vs]; [cbn in H; discriminate|].
    cbn [set_fields] in H.
    assert (Hkeep : forall y,
      inside (cons_field y) (set_fields fmt obj fs vs) = Decoded dst (Some e) ->
      (forall name x, wire_name fmt field = Some name ->
         tbl_lookup name obj = Some x -> setValue fmt ft v x = Decoded y None) ->
      exists i f ft' name x w w' vs',
        dst = NStruct vs'
        /\ nth_error ((field, ft) :: fs) i = Some (f, ft')
        /\ nth_error (v :: vs) i = Some w
        /\ wire_name fmt f = Some name /\ tbl_lookup name obj = Some x
        /\ setValue fmt ft' w x = Decoded w' (Some e)
        /\ nth_error vs' i = Some w'
        /\ (forall j, i < j -> nth_error vs' j = nth_error (v :: vs) j)
        /\ (forall j g gt u n z,
              j < i -> nth_error ((field, ft) :: fs) j = Some (g, gt) ->
              nth_error (v :: vs) j = Some u ->
              wire_name fmt g = Some n -> tbl_lookup n obj = Some z ->
              exists u', setValue fmt gt u z = Decoded u' None
                         /\ nth_error vs' j = Some u')).
    { intros y H0 Hy.
      apply inside_cons_length in H0 as (dst' & Hd & ->).
      apply IH in Hd
        as (i & f & ft' & name & x & w & w' & vs' & -> & Hf & Hv & Hw & Hl
            & Hs & Hn & Hafter & Hbefore).
      exists (S i), f, ft', name, x, w, w', (y :: vs').
      repeat (split; [solve [auto]|]). split.
      - intros [|j] Hj; [lia|]. cbn. apply Hafter. lia.
      - intros [|j] g gt u n z Hj Hg Hu Hwn Hlk; cbn in Hg, Hu |- *.
        + inversion Hg; inversion Hu; subst. exists y. split; eauto.
        + eapply Hbefore; eauto. lia. }
    destruct (wire_name fmt field) as [name|] eqn:Hw;
      [|apply (Hkeep v H); discriminate].
    destruct (tbl_lookup name obj) as [x|] eqn:Hl;
      [|apply (Hkeep v H); intros ? ? E; inversion E; subst; congruence].
    destruct (setValue fmt ft v x) as [v' [e'|]| |] eqn:Hs; try discriminate.
    + inversion H; subst.
      exists 0, field, ft, name, x, v, v', (v' :: vs).
      repeat (split; [solve [auto]|]). split.
      * intros [|j] Hj; [lia|reflexivity].
      * intros j g gt w n y Hj. lia.
    + apply (Hkeep v' H). intros ? ? E E'. inversion E; subst. congruence.
Qed.

Lemma map_store_fresh k key x : forall acc,
  (forall a, In a acc -> is_key k (fst a) = false) ->
  map_store k key x acc = (acc ++ [(key, x)])%list.
Proof.
  induction acc as [|[k' y] acc IH]; intros H; cbn [map_store app];
    [reflexivity|].
  rewrite (H (k', y) (or_introl eq_refl) : is_key k k' = false).
  rewrite IH; [reflexivity|]. intros a Ha. apply H. right. exact Ha.
Qed.

Lemma set_entries_fresh dec z : forall obj acc x,
  NoDup (map fst obj) ->
  (forall k a, In k (map fst obj) -> In a acc -> is_key k (fst a) = false) ->
  set_entries dec z TString obj acc = Decoded x None ->
  exists m, x = NMap (Some (acc ++ m)%list)
    /\ Forall2 (fun kv e => fst e = NString (fst kv)
                            /\ dec z (snd kv) = Decoded (snd e) None) obj m.
Proof.
  induction obj as [|[k v] rest IH]; intros acc x Hnd Hacc H;
    cbn [set_entries] in H.
  - inversion H; subst. exists []. rewrite app_nil_r. split; constructor.
  - destruct (dec z v) as [y [e|]| |] eqn:Hd; try discriminate.
    cbn [map_key] in H. cbn [map fst] in Hnd, Hacc.
    apply NoDup_cons_iff in Hnd as [Hk Hnd].
    rewrite map_store_fresh in H
      by (intros a Ha; apply (Hacc k a); [left; reflexivity|exact Ha]).
    apply IH in H as (m & -> & Hall); [|exact Hnd|].
    + exists ((NString k, y) :: m). rewrite <- app_assoc. split; [reflexivity|].
      constructor; [split; [reflexivity|exact Hd]|exact Hall].
    + intros k' a Hk' Ha. apply in_app_or in Ha as [Ha|[<-|[]]].
      * apply (Hacc k' a); [right; exact Hk'|exact Ha].
      * cbn [fst is_key]. apply String.eqb_neq. intros ->. contradiction.
Qed.

(** X17. Decoding a table into a map with string keys makes a new map:
    whatever the destination held, when there is no error it holds one
    entry for each key of the table and no other, the value being the
    table's value decoded into a zero element. *)
Theorem map_decode_is_fresh (fmt : format) (elem : gtype) (cur : nval)
  (obj : table) (x : nval) :
  NoDup (map fst obj) ->
  setValue fmt (TMap TString elem) cur (VTable obj) = Decoded x None ->
  exists m, x = NMap (Some m)
    /\ Forall2 (fun kv e =>
                  fst e = NString (fst kv)
                  /\ setValue fmt elem (zero elem) (snd kv) = Decoded (snd e) None)
               obj m.
Proof.
  intros Hnd H. cbn [setValue] in H.
  apply set_entries_fresh in H as (m & -> & Hall); [|exact Hnd|intros ? ? ? []].
  exists m. split; [reflexivity|exact Hall].
Qed.

Lemma map_decode_is_fresh_witness :
  NoDup (map fst [("a", VInt 1); ("b", VInt 2)])
  /\ setValue JSONf (TMap TString (TInt KInt))
       (NMap (Some [(NString "old", NInt 9)]))
       (VTable [("a", VInt 1); ("b", VInt 2)])
     = Decoded (NMap (Some [(NString "a", NInt 1); (NString "b", NInt 2)])) None
  /\ exists m,
       NMap (Some [(NString "a", NInt 1); (NString "b", NInt 2)]) = NMap (Some m)
       /\ Forall2 (fun kv e =>
                     fst e = NString (fst kv)
                     /\ setValue JSONf (TInt KInt) (zero (TInt KInt)) (snd kv)
                        = Decoded (snd e) None)
                  [("a", VInt 1); ("b", VInt 2)] m.
Proof.
  assert (Hnd : NoDup (map fst [("a", VInt 1); ("b", VInt 2)])).
  { cbn. repeat constructor; cbn; intuition discriminate. }
  split; [exact Hnd|]. split; [reflexivity|].
  apply (map_decode_is_fresh JSONf (TInt KInt)
           (NMap (Some [(NString "old", NInt 9)]))
           [("a", VInt 1); ("b", VInt 2)]);
    [exact Hnd|reflexivity].
Defined.

(* ----------------------------------------------------------------- *)
(** ** What the TOML decoder makes of the TOML encoder's output *)

Lemma key_letter_differs c x :
  key_letter c = true ->
  (let n := Go.code x in
   negb (((65 <=? n) && (n <=? 90)) || ((97 <=? n) && (n <=? 122)) || (n =? 95)))
  = true ->
  Ascii.eqb c x = false.
Proof.
  unfold key_letter. cbv zeta. intros Hc Hx.
  apply andb_true_iff in Hc as [Hc _]. apply andb_true_iff in Hc as [Hc _].
  apply negb_true_iff in Hx.
  apply Ascii.eqb_neq. intros ->. congruence.
Qed.

Lemma key_letter_no_space c :
  key_letter c = true -> Go.IsSpace c = false /\ Go.IsDigit c = false.
Proof.
  unfold key_letter, Go.IsSpace, Go.IsDigit. cbv zeta.
  set (n := Go.code c). intros H.
  apply andb_true_iff in H as [H _]. apply andb_true_iff in H as [H _].
  assert (Hn : 65 <= n <= 90 \/ 97 <= n <= 122 \/ n = 95).
  { apply orb_true_iff in H as [H|H];
      [apply orb_true_iff in H as [H|H]|].
    - apply andb_true_iff in H as [H1 H2].
      apply Nat.leb_le in H1. apply Nat.leb_le in H2. auto.
    - apply andb_true_iff in H as [H1 H2].
      apply Nat.leb_le in H1. apply Nat.leb_le in H2. auto.
    - apply Nat.eqb_eq in H. auto. }
  split.
  - repeat (apply orb_false_iff; split);
      [apply andb_false_iff; right; apply Nat.leb_gt; lia
      |apply Nat.eqb_neq; lia..].
  - apply andb_false_iff. destruct (Nat.le_gt_cases n 57);
      [left; apply Nat.leb_gt; lia|right; apply Nat.leb_gt; lia].
Qed.

Lemma TOML_bare_key_starts_no_token c rest :
  key_letter c = true ->
  TOML_starts_token (String c rest)
    (TOML.pos (TOML.skipWhitespace (TOML.newLexer (String c rest)))) = false.
Proof.
  intros Hc. destruct (key_letter_no_space c Hc) as [Hsp Hdg].
  assert (Hnl : Ascii.eqb c Go.c_newline = false)
    by (apply key_letter_differs; [exact Hc|reflexivity]).
  unfold TOML.skipWhitespace.
  rewrite TOML_skipWhitespace_fixed
    by (cbn [TOML.newLexer TOML.input TOML.pos Go.at_ String.get]; auto).
  cbn [TOML.newLexer TOML.pos]. unfold TOML_starts_token.
  cbn [Go.at_ String.get]. rewrite Hdg.
  rewrite !(key_letter_differs c _ Hc) by reflexivity.
  unfold key_letter in Hc.
  apply andb_true_iff in Hc as [Hc Hf]. apply andb_true_iff in Hc as [_ Ht].
  apply negb_true_iff in Ht. apply negb_true_iff in Hf.
  unfold Go.slice. cbn [Nat.add Nat.sub String.substring String.eqb].
  rewrite Ht, Hf. reflexivity.
Qed.

(** The text [marshalStruct] writes begins with the name of the first
    field that takes part. *)
Lemma TOML_marshalStruct_starts
  (time_Format : time_Time -> string) (type_String : gtype -> string)
  fields vs f ft v rest name data :
  visible TOMLf fields vs = ((f, ft), v) :: rest ->
  wire_name TOMLf f = Some name ->
  TOML.marshalValue time_Format type_String (TStruct fields) (NStruct vs) ""
  = Ok data ->
  exists tail, data = name ++ tail.
Proof.
  intros Hv Hw. rewrite TOML_marshal_visible, Hv.
  cbn [map fst snd TOML.marshalValue]. rewrite Hw.
  unfold TOML.prefixed at 1 2. cbn [String.eqb].
  destruct (TOML.marshalValue _ _ ft v name) as [valueBytes| | |];
    cbn [bind]; try discriminate.
  match goal with
  | |- bind (bind ?r _) _ = _ -> _ => destruct r as [pairs| | |]
  end; cbn [bind]; try discriminate.
  intros H. injection H as <-.
  unfold TOML.prefixed. cbn [String.eqb].
  destruct pairs; rewrite ?append_assoc; eauto.
Qed.

(** X18. What TOML [Marshal] writes for a record, TOML [Unmarshal] reads
    as the empty document: when the name of the first field that takes
    part starts with a letter other than [t] and [f], or an underscore
    (every Go field name without a tag does), the text starts with a
    bare key, the lexer answers EOF, and a record destination is
    returned untouched with no error. *)
Theorem TOML_record_is_read_back_empty
  (time_Parse : string -> option time_Time)
  (time_Format : time_Time -> string) (type_String : gtype -> string)
  (fields : list (StructField * gtype)) (vs : list nval)
  (f : StructField) (ft : gtype) (v : nval)
  (rest : list ((StructField * gtype) * nval)) (name : string) (c : Go.byte)
  (data : string) :
  visible TOMLf fields vs = ((f, ft), v) :: rest ->
  wire_name TOMLf f = Some name ->
  Go.at_ name 0 = Some c -> key_letter c = true ->
  TOML.Marshal time_Format type_String (Some (TStruct fields, NStruct vs))
  = Ok data ->
  TOML.parseTable time_Parse (TOML.newParser data) = Ok []
  /\ (forall fields' vs',
        TOML.Unmarshal time_Parse data (ptr_to (TStruct fields') (NStruct vs'))
        = Decoded (NPtr (Some (NStruct vs'))) None).
Proof.
  intros Hv Hw Hn Hc Hm. unfold TOML.Marshal in Hm.
  destruct (TOML_marshalStruct_starts _ _ _ _ _ _ _ _ _ _ Hv Hw Hm) as [tail ->].
  destruct name as [|c' name']; [discriminate|].
  cbn [Go.at_ String.get] in Hn. inversion Hn; subst c'.
  apply TOML_no_token_accepted. cbn [append].
  apply TOML_bare_key_starts_no_token. exact Hc.
Qed.

Lemma TOML_record_is_read_back_empty_witness :
  visible TOMLf (test_fields "toml")
    [NString "test"; NInt 42; NFloat float_three; NBool true;
     NSlice (Some [NString "one"]); NStruct [NString "nested field"]]
  = ((mkField "String" true [("toml", "string")], TString), NString "test")
      :: visible TOMLf (tl (test_fields "toml"))
           [NInt 42; NFloat float_three; NBool true;
            NSlice (Some [NString "one"]); NStruct [NString "nested field"]]
  /\ wire_name TOMLf (mkField "String" true [("toml", "string")]) = Some "string"
  /\ Go.at_ "string" 0 = Some "s"%char
  /\ key_letter "s"%char = true
  /\ TOML.Marshal (fun _ => "") (fun _ => "")
       (Some (TStruct (test_fields "toml"),
              NStruct [NString "test"; NInt 42; NFloat float_three; NBool true;
                       NSlice (Some [NString "one"]);
                       NStruct [NString "nested field"]]))
     = Ok ("string = " ++ q "test" ++ nl ++ "integer = 42" ++ nl ++ "float = 3" ++ nl
           ++ "boolean = true" ++ nl ++ "array = [" ++ q "one" ++ "]" ++ nl
           ++ "nested = nested.field = " ++ q "nested field")
  /\ TOML.parseTable (fun _ => None)
       (TOML.newParser
          ("string = " ++ q "test" ++ nl ++ "integer = 42" ++ nl ++ "float = 3" ++ nl
           ++ "boolean = true" ++ nl ++ "array = [" ++ q "one" ++ "]" ++ nl
           ++ "nested = nested.field = " ++ q "nested field")) = Ok []
  /\ (forall fields' vs',
        TOML.Unmarshal (fun _ => None)
          ("string = " ++ q "test" ++ nl ++ "integer = 42" ++ nl ++ "float = 3" ++ nl
           ++ "boolean = true" ++ nl ++ "array = [" ++ q "one" ++ "]" ++ nl
           ++ "nested = nested.field = " ++ q "nested field")
          (ptr_to (TStruct fields') (NStruct vs'))
        = Decoded (NPtr (Some (NStruct vs'))) None).
Proof.
  split; [reflexivity|]. split; [reflexivity|]. split; [reflexivity|].
  split; [reflexivity|]. split; [vm_compute; reflexivity|].
  apply (TOML_record_is_read_back_empty (fun _ => None) (fun _ => "") (fun _ => "")
           (test_fields "toml")
           [NString "test"; NInt 42; NFloat float_three; NBool true;
            NSlice (Some [NString "one"]); NStruct [NString "nested field"]]
           (mkField "String" true [("toml", "string")]) TString (NString "test")
           (visible TOMLf (tl (test_fields "toml"))
              [NInt 42; NFloat float_three; NBool true;
               NSlice (Some [NString "one"]); NStruct [NString "nested field"]])
           "string" "s"%char);
    [reflexivity|reflexivity|reflexivity|reflexivity|vm_compute; reflexivity].
Defined.

(* ----------------------------------------------------------------- *)
(** ** The JSON round trip *)

(** The loops inside the recursive definitions are the loops that
    stand on their own. *)
Lemma faithful_struct fields vs :
  faithful (TStruct fields) (NStruct vs)
  = distinct (wire_names JSONf fields) && faithful_fields fields vs.
Proof. reflexivity. Qed.

Lemma value_of_struct fields vs :
  value_of (TStruct fields) (NStruct vs) = VTable (value_fields fields vs []).
Proof. reflexivity. Qed.

Lemma JSON_marshal_slice elem xs :
  JSON.marshalValue (TSlice elem) (NSlice (Some xs))
  = (do elements <- JSON_marshal_elems elem xs;
     Ok ("[" ++ Go.Join elements "," ++ "]")).
Proof.
  cbn [JSON.marshalValue]. f_equal.
  induction xs as [|y rest IH]; [reflexivity|].
  cbn [JSON_marshal_elems]. rewrite <- IH. reflexivity.
Qed.

Lemma JSON_marshal_struct fields vs :
  JSON.marshalValue (TStruct fields) (NStruct vs)
  = (do pairs <- JSON_marshal_fields fields vs;
     Ok ("{" ++ Go.Join pairs "," ++ "}")).
Proof.
  reflexivity.
Qed.

(** *** Bytes and tokens at an offset *)

Lemma length_app a b :
  String.length (a ++ b) = String.length a + String.length b.
Proof. exact (len_app a b). Qed.

Ltac str_norm :=
  unfold JSON.quoted, Go.str1 in *;
  repeat first [rewrite append_assoc | progress cbn [append]].

Ltac str_eq := str_norm; reflexivity.

Ltac len_norm :=
  unfold JSON.quoted, Go.str1, Go.len in *;
  repeat first [rewrite length_app | progress cbn [String.length append]].

Ltac len_eq := len_norm; lia.

Lemma at_mid pre c rest : Go.at_ (pre ++ String c rest) (Go.len pre) = Some c.
Proof. rewrite at_app_end. reflexivity. Qed.

Lemma at_end pre : Go.at_ pre (Go.len pre) = None.
Proof. apply get_beyond. unfold Go.len. lia. Qed.

Lemma slice_mid pre s rest :
  Go.slice (pre ++ s ++ rest) (Go.len pre) (Go.len pre + Go.len s) = s.
Proof.
  unfold Go.slice, Go.len.
  replace (String.length pre + String.length s - String.length pre)
    with (String.length s) by lia.
  rewrite substring_skip. apply substring_prefix.
Qed.

Lemma JSON_skip_at data i c :
  Go.at_ data i = Some c -> Go.IsSpace c = false ->
  JSON.skipWhitespace (JSON.mkLexer data i) = JSON.mkLexer data i.
Proof.
  intros Hc Hs. unfold JSON.skipWhitespace. apply JSON_skipWhitespace_fixed.
  cbn [JSON.input JSON.pos]. rewrite Hc. exact Hs.
Qed.

(** A punctuation byte is a token of its own. *)
Lemma JSON_next_punct data i c :
  Go.at_ data i = Some c ->
  In c ["{"; "}"; "["; "]"; ","; ":"]%char ->
  JSON.next (JSON.mkLexer data i)
  = (fst (JSON.next (JSON.newLexer (Go.str1 c))), JSON.mkLexer data (i + 1)).
Proof.
  intros Hc Hin. unfold JSON.next at 1.
  rewrite (JSON_skip_at data i c Hc)
    by (cbn [In] in Hin;
        repeat (destruct Hin as [<-|Hin]; [reflexivity|]); contradiction).
  cbn [JSON.input JSON.pos]. rewrite Hc. cbn [In] in Hin.
  repeat (destruct Hin as [<-|Hin]; [reflexivity|]). contradiction.
Qed.

Lemma plain_scan : forall e esc,
  plain e = true ->
  quotes_escaped esc e = true
  /\ ends_in_backslash esc e = (match e with EmptyString => esc | _ => false end).
Proof.
  induction e as [|c e IH]; intros esc H; [split; reflexivity|].
  cbn [plain] in H. apply andb_true_iff in H as [Hc He].
  apply negb_true_iff in Hc.
  repeat (apply orb_false_iff in Hc; destruct Hc as [Hc ?]).
  destruct (IH (Ascii.eqb c Go.c_backslash) He) as [IHq IHe].
  cbn [quotes_escaped ends_in_backslash]. split.
  - rewrite IHq. replace (Ascii.eqb c Go.c_quote) with false by auto.
    reflexivity.
  - rewrite IHe. destruct e; [exact Hc|reflexivity].
Qed.

(** A quoted plain string is a string token, wherever it stands. *)
Lemma JSON_next_string_at pre e rest :
  plain e = true ->
  JSON.next (JSON.mkLexer (pre ++ JSON.quoted e ++ rest) (Go.len pre))
  = (JSON.mkToken JSON.tokenString e,
     JSON.mkLexer (pre ++ JSON.quoted e ++ rest) (Go.len pre + Go.len e + 2)).
Proof.
  intros He.
  set (data := pre ++ JSON.quoted e ++ rest).
  assert (Hd : data = (pre ++ Go.str1 Go.c_quote) ++ e ++ String Go.c_quote rest)
    by (unfold data; str_eq).
  assert (Hq : Go.at_ data (Go.len pre) = Some Go.c_quote).
  { unfold data, JSON.quoted. cbn [append]. apply at_mid. }
  unfold JSON.next. rewrite (JSON_skip_at data _ _ Hq) by reflexivity.
  cbn [JSON.input JSON.pos]. rewrite Hq.
  change (JSON.readString (JSON.mkLexer data (Go.len pre))
          = (JSON.mkToken JSON.tokenString e,
             JSON.mkLexer data (Go.len pre + Go.len e + 2))).
  unfold JSON.readString, JSON.advance. cbn [JSON.input JSON.pos].
  assert (Hl : Go.len pre + 1 = Go.len (pre ++ Go.str1 Go.c_quote))
    by (rewrite len_app; reflexivity).
  assert (Hb : backslash_before (pre ++ Go.str1 Go.c_quote) = false)
    by (rewrite backslash_before_snoc; reflexivity).
  destruct (plain_scan e false He) as [Hqe Hee].
  pose proof (JSON_readString_scan e (pre ++ Go.str1 Go.c_quote) rest
                (Go.len data - (Go.len pre + 1)) (Go.len pre)) as Hs.
  rewrite <- Hd, <- Hl, Hb in Hs.
  rewrite Hs.
  - f_equal.
    + f_equal. rewrite Hd, Hl. apply slice_mid.
    + f_equal. lia.
  - lia.
  - exact Hqe.
  - rewrite Hee. destruct e; reflexivity.
  - rewrite Hd. clear. len_eq.
Qed.

Lemma JSON_readNumber_loop_stop : forall s pre rest fuel,
  int_text s = true -> stops_at rest -> Go.len s <= fuel ->
  JSON.readNumber_loop fuel (JSON.mkLexer (pre ++ s ++ rest) (Go.len pre))
  = JSON.mkLexer (pre ++ s ++ rest) (Go.len pre + Go.len s).
Proof.
  induction s as [|c s IH]; intros pre rest fuel Ht Hr Hf.
  - cbn [append Go.len String.length]. rewrite Nat.add_0_r.
    destruct fuel as [|fuel]; cbn [JSON.readNumber_loop JSON.input JSON.pos];
      [reflexivity|].
    rewrite at_app_end. unfold stops_at in Hr.
    destruct (Go.at_ rest 0) as [b|]; [rewrite Hr|]; reflexivity.
  - destruct fuel as [|fuel]; [cbn [Go.len String.length] in Hf; lia|].
    cbn [JSON.readNumber_loop JSON.input JSON.pos append].
    rewrite at_mid.
    cbn [int_text] in Ht. apply andb_true_iff in Ht as [Hc Hs].
    rewrite (int_text_number_byte c Hc).
    unfold JSON.advance. cbn [JSON.input JSON.pos].
    assert (Hin : pre ++ String c (s ++ rest) = (pre ++ Go.str1 c) ++ s ++ rest)
      by str_eq.
    assert (Hlen : Go.len pre + 1 = Go.len (pre ++ Go.str1 c))
      by (rewrite len_app; reflexivity).
    rewrite Hin, Hlen, (IH (pre ++ Go.str1 c) rest fuel Hs Hr).
    + f_equal. clear. len_eq.
    + cbn [Go.len String.length] in Hf. unfold Go.len. lia.
Qed.

Lemma JSON_next_number_start data i c :
  Go.at_ data i = Some c ->
  Ascii.eqb c "-" || Go.IsDigit c = true ->
  JSON.next (JSON.mkLexer data i) = JSON.readNumber (JSON.mkLexer data i).
Proof.
  intros Hc Hd.
  assert (Hin : In c ["-"; "0"; "1"; "2"; "3"; "4"; "5"; "6"; "7"; "8"; "9"]%char).
  { destruct (Ascii.eqb c "-") eqn:E.
    - apply Ascii.eqb_eq in E. left. auto.
    - right. apply IsDigit_cases. exact Hd. }
  unfold JSON.next.
  rewrite (JSON_skip_at data i c Hc)
    by (cbn [In] in Hin;
        repeat (destruct Hin as [<-|Hin]; [reflexivity|]); contradiction).
  cbn [JSON.input JSON.pos]. rewrite Hc. cbn [In] in Hin.
  repeat (destruct Hin as [<-|Hin]; [reflexivity|]). contradiction.
Qed.

(** The decimal text of an integer is a number token, wherever it
    stands, when what follows does not continue a number. *)
Lemma JSON_next_int_at pre s rest :
  s <> "" -> int_text s = true -> stops_at rest ->
  JSON.next (JSON.mkLexer (pre ++ s ++ rest) (Go.len pre))
  = (JSON.mkToken JSON.tokenNumber s,
     JSON.mkLexer (pre ++ s ++ rest) (Go.len pre + Go.len s)).
Proof.
  intros Hne Ht Hr. destruct s as [|c s']; [contradiction|].
  pose proof Ht as Ht'. cbn [int_text] in Ht'.
  apply andb_true_iff in Ht' as [Hc _].
  rewrite (JSON_next_number_start _ _ c); [|cbn [append]; apply at_mid|exact Hc].
  unfold JSON.readNumber. cbn [JSON.input JSON.pos].
  rewrite (JSON_readNumber_loop_stop (String c s') pre rest) by
    (auto; rewrite !len_app; lia).
  cbn [JSON.input JSON.pos]. rewrite slice_mid. reflexivity.
Qed.

(** The words [true], [false] and [null] are tokens, wherever they
    stand. *)
Lemma JSON_next_word_at pre rest word :
  In word ["true"; "false"; "null"] ->
  JSON.next (JSON.mkLexer (pre ++ word ++ rest) (Go.len pre))
  = (fst (JSON.next (JSON.newLexer word)),
     JSON.mkLexer (pre ++ word ++ rest) (Go.len pre + Go.len word)).
Proof.
  intros Hin.
  assert (Hlook : JSON.looking_at
                    (JSON.mkLexer (pre ++ word ++ rest) (Go.len pre)) word = true).
  { unfold JSON.looking_at. cbn [JSON.input JSON.pos].
    rewrite slice_mid, String.eqb_refl, andb_true_r.
    apply Nat.ltb_lt. rewrite !len_app.
    cbn [In] in Hin.
    repeat (destruct Hin as [<-|Hin]; [cbn [Go.len String.length]; lia|]).
    contradiction. }
  cbn [In] in Hin.
  destruct Hin as [<-|[<-|[<-|[]]]];
    unfold JSON.next at 1;
    (erewrite JSON_skip_at; [|cbn [append]; apply at_mid|reflexivity]);
    cbn [JSON.input JSON.pos append]; rewrite at_mid;
    cbn [append] in Hlook;
    unfold JSON.keyword; cbn [Ascii.eqb Bool.eqb];
    cbn iota; rewrite Hlook; reflexivity.
Qed.

(** *** The parser at an offset *)

Lemma parser_at_next data i tok j :
  JSON.next (JSON.mkLexer data i) = (tok, JSON.mkLexer data j) ->
  parser_at data i = JSON.mkParser (JSON.mkLexer data j) tok
  /\ JSON.advance_token (parser_at data i) = parser_at data j.
Proof.
  intros H. unfold parser_at at 1 2. rewrite H. split; reflexivity.
Qed.

Lemma advance_token_at data j tok :
  JSON.advance_token (JSON.mkParser (JSON.mkLexer data j) tok) = parser_at data j.
Proof. reflexivity. Qed.

(** *** Scalars *)

Lemma parse_string_at str :
  plain str = true -> parses_at TString (NString str) (JSON.quoted str).
Proof.
  intros Hs pre rest fuel Hr Hf.
  destruct (parser_at_next _ _ _ _ (JSON_next_string_at pre str rest Hs))
    as [Hp _].
  destruct fuel as [|fuel]; [lia|].
  cbn [JSON.parseValue]. rewrite Hp.
  cbn [JSON.p_token JSON.typ JSON.value value_of]. rewrite advance_token_at.
  do 3 f_equal. clear. len_eq.
Qed.

Lemma in_width_int64 k z :
  in_width k z = true ->
  (- 2 ^ (int_bits k - 1) <= z < 2 ^ (int_bits k - 1))%Z
  /\ (Go.int64_min <= z <= Go.int64_max)%Z.
Proof.
  unfold in_width. intros H. apply andb_true_iff in H as [H1 H2].
  apply Z.leb_le in H1. apply Z.ltb_lt in H2. split; [lia|].
  unfold Go.int64_min, Go.int64_max.
  assert (2 ^ (int_bits k - 1) <= 2 ^ 63)%Z
    by (apply Z.pow_le_mono_r; destruct k; cbn; lia).
  lia.
Qed.

Lemma parse_int_at k z :
  in_width k z = true -> parses_at (TInt k) (NInt z) (Go.FormatInt z).
Proof.
  intros Hw pre rest fuel Hr Hf.
  destruct (in_width_int64 k z Hw) as [_ H64].
  destruct (FormatInt_parses z H64) as [Hp Ht].
  destruct (FormatInt_nonempty z) as (c & s' & E).
  assert (Hne : Go.FormatInt z <> "") by (rewrite E; discriminate).
  destruct (parser_at_next _ _ _ _
              (JSON_next_int_at pre (Go.FormatInt z) rest Hne Ht Hr)) as [Hq _].
  destruct fuel as [|fuel]; [lia|].
  cbn [JSON.parseValue]. rewrite Hq.
  cbn [JSON.p_token JSON.typ JSON.value value_of]. rewrite advance_token_at.
  unfold JSON.number_value. rewrite (int_text_no_point _ Ht), Hp.
  reflexivity.
Qed.

Lemma parse_word_at t x word v :
  In word ["true"; "false"; "null"] ->
  value_of t x = v ->
  (forall fuel p, JSON.p_token p = fst (JSON.next (JSON.newLexer word)) ->
     JSON.parseValue (S fuel) p = Ok (v, JSON.advance_token p)) ->
  parses_at t x word.
Proof.
  intros Hin Hv Hparse pre rest fuel Hr Hf.
  destruct (parser_at_next _ _ _ _ (JSON_next_word_at pre rest word Hin))
    as [Hp _].
  destruct fuel as [|fuel]; [lia|].
  rewrite Hparse by (rewrite Hp; reflexivity).
  rewrite Hp, advance_token_at, Hv. reflexivity.
Qed.

Lemma parse_bool_at b : parses_at TBool (NBool b) (Go.FormatBool b).
Proof.
  destruct b; cbn [Go.FormatBool].
  - apply (parse_word_at _ _ "true" (VBool true)); [cbn; auto|reflexivity|].
    intros fuel p Hp. cbn [JSON.parseValue]. rewrite Hp. reflexivity.
  - apply (parse_word_at _ _ "false" (VBool false)); [cbn; auto|reflexivity|].
    intros fuel p Hp. cbn [JSON.parseValue]. rewrite Hp. reflexivity.
Qed.

Lemma parse_nil_slice_at elem : parses_at (TSlice elem) (NSlice None) "null".
Proof.
  apply (parse_word_at _ _ "null" VNull); [cbn; auto|reflexivity|].
  intros fuel p Hp. cbn [JSON.parseValue]. rewrite Hp. reflexivity.
Qed.

(** *** Arrays *)

Lemma at_mid2 pre e c rest :
  Go.at_ (pre ++ e ++ String c rest) (Go.len pre + Go.len e) = Some c.
Proof.
  rewrite <- append_assoc, <- len_app. apply at_mid.
Qed.

Lemma stops_at_punct c rest :
  In c ["{"; "}"; "["; "]"; ","; ":"]%char -> stops_at (String c rest).
Proof.
  intros Hin. unfold stops_at. cbn [Go.at_ String.get In] in *.
  repeat (destruct Hin as [<-|Hin]; [reflexivity|]). contradiction.
Qed.

Lemma stops_at_nil : stops_at "".
Proof. exact I. Qed.

(** The token at [i] when a punctuation byte stands there. *)
Lemma parser_at_punct data i c :
  Go.at_ data i = Some c ->
  In c ["{"; "}"; "["; "]"; ","; ":"]%char ->
  parser_at data i
  = JSON.mkParser (JSON.mkLexer data (i + 1))
      (fst (JSON.next (JSON.newLexer (Go.str1 c)))).
Proof.
  intros Hc Hin.
  apply (parser_at_next data i _ (i + 1)), JSON_next_punct; assumption.
Qed.

Section Array_at.
Variable elem : gtype.
Variable f : nat.

Lemma parseArray_loop_at : forall es ys,
  Forall2 (fun y e => 0 < Go.len e /\ parses_at elem y e) ys es ->
  es <> [] ->
  forall pre rest arr g,
    List.length es <= g -> Go.len (Go.Join es ",") < f ->
    JSON.parseArray_loop (JSON.parseValue f) g arr
      (parser_at (pre ++ Go.Join es "," ++ "]" ++ rest) (Go.len pre))
    = Ok ((rev arr ++ map (value_of elem) ys)%list,
          parser_at (pre ++ Go.Join es "," ++ "]" ++ rest)
            (Go.len pre + Go.len (Go.Join es ",") + 1)).
Proof.
  induction es as [|e es IH]; intros ys Hall Hne pre rest arr g Hg Hf;
    [contradiction|].
  inversion Hall as [|y e' ys' es' [Hpos Hparse] Hrest]; subst.
  destruct g as [|g]; [cbn [List.length] in Hg; lia|].
  cbn [JSON.parseArray_loop].
  destruct es as [|e2 es].
  - (* the last element *)
    inversion Hrest; subst. cbn [Go.Join] in *.
    rewrite (Hparse pre ("]" ++ rest) f)
      by (try apply stops_at_punct; cbn; auto 10; lia).
    cbn [bind append].
    rewrite (parser_at_punct _ (Go.len pre + Go.len e) "]"%char)
      by (try apply at_mid2; cbn; auto 10).
    cbn [JSON.p_token JSON.typ fst]. rewrite advance_token_at.
    cbn [JSON.next]. reflexivity.
  - (* an element and a comma *)
    change (Go.Join (e :: e2 :: es) ",")
      with (e ++ "," ++ Go.Join (e2 :: es) ",") in *.
    set (tail := Go.Join (e2 :: es) ",") in *.
    assert (Hd : pre ++ (e ++ "," ++ tail) ++ "]" ++ rest
                 = pre ++ e ++ String "," (tail ++ "]" ++ rest)) by str_eq.
    rewrite Hd.
    rewrite (Hparse pre (String "," (tail ++ "]" ++ rest)) f)
      by (try apply stops_at_punct; cbn; auto 10;
          rewrite !len_app in Hf; lia).
    cbn [bind].
    rewrite (parser_at_punct _ (Go.len pre + Go.len e) ","%char)
      by (try apply at_mid2; cbn; auto 10).
    cbn [JSON.p_token JSON.typ fst]. rewrite advance_token_at.
    assert (Hd' : pre ++ e ++ String "," (tail ++ "]" ++ rest)
                  = (pre ++ e ++ ",") ++ tail ++ "]" ++ rest) by str_eq.
    assert (Hl : Go.len pre + Go.len e + 1 = Go.len (pre ++ e ++ ","))
      by (clear; len_eq).
    rewrite Hd', Hl.
    rewrite (IH ys' Hrest ltac:(discriminate) (pre ++ e ++ ",") rest
               (value_of elem y :: arr) g)
      by (cbn [List.length] in *; rewrite ?len_app in *; try lia;
          rewrite !len_app in Hf; lia).
    replace (Go.len pre + Go.len (e ++ "," ++ tail) + 1)
      with (Go.len (pre ++ e ++ ",") + Go.len tail + 1)
      by (clear; len_eq).
    cbn [rev map]. rewrite <- app_assoc. reflexivity.
Qed.
End Array_at.

Lemma parseValue_starts fuel p r :
  JSON.parseValue fuel p = Ok r ->
  JSON.typ (JSON.p_token p) <> JSON.tokenRightBracket
  /\ JSON.typ (JSON.p_token p) <> JSON.tokenRightBrace.
Proof.
  destruct fuel as [|fuel]; cbn [JSON.parseValue]; [discriminate|].
  destruct (JSON.typ (JSON.p_token p)); try discriminate;
    intros _; split; discriminate.
Qed.

Lemma parse_slice_at elem xs es :
  Forall2 (fun y e => 0 < Go.len e /\ parses_at elem y e) xs es ->
  parses_at (TSlice elem) (NSlice (Some xs)) ("[" ++ Go.Join es "," ++ "]").
Proof.
  intros Hall pre rest fuel Hr Hf.
  destruct fuel as [|f]; [lia|].
  set (body := Go.Join es ",") in *.
  assert (Hd : pre ++ ("[" ++ body ++ "]") ++ rest
               = (pre ++ "[") ++ body ++ "]" ++ rest) by str_eq.
  assert (Hl : Go.len pre + 1 = Go.len (pre ++ "[")) by (clear; len_eq).
  assert (Hopen : parser_at (pre ++ ("[" ++ body ++ "]") ++ rest) (Go.len pre)
                  = JSON.mkParser
                      (JSON.mkLexer (pre ++ ("[" ++ body ++ "]") ++ rest)
                         (Go.len pre + 1))
                      (JSON.mkToken JSON.tokenLeftBracket "[")).
  { apply (parser_at_punct _ _ "["%char); [|cbn; auto 10].
    cbn [append]. apply at_mid. }
  cbn [JSON.parseValue]. rewrite Hopen. cbn [JSON.p_token JSON.typ].
  unfold JSON.parseArray. rewrite advance_token_at.
  replace (Go.len pre + Go.len ("[" ++ body ++ "]"))
    with (Go.len (pre ++ "[") + Go.len body + 1) by (clear; len_eq).
  rewrite Hd, Hl.
  destruct es as [|e es].
  - (* the empty slice *)
    inversion Hall; subst. cbn [Go.Join] in body. subst body.
    cbn [append Go.len String.length].
    rewrite (parser_at_punct _ (Go.len (pre ++ "[")) "]"%char)
      by (try apply at_mid; cbn; auto 10).
    cbn [JSON.p_token JSON.typ fst JSON.next bind map value_of].
    rewrite advance_token_at. rewrite Nat.add_0_r. reflexivity.
  - (* elements *)
    pose proof (parseArray_loop_at elem f (e :: es) xs Hall ltac:(discriminate)
                  (pre ++ "[") rest [] f) as Hloop.
    fold body in Hloop.
    assert (Hcount : List.length (e :: es) <= Go.len body).
    { clear - Hall. subst body. revert xs Hall.
      induction (e :: es) as [|a l IH]; intros xs Hall; [cbn; lia|].
      inversion Hall as [|y a' ys l' [Hpos _] Hrest]; subst.
      specialize (IH _ Hrest).
      destruct l as [|b l]; [cbn [Go.Join List.length] in *; lia|].
      change (Go.Join (a :: b :: l) ",")
        with (a ++ "," ++ Go.Join (b :: l) ",").
      rewrite !len_app. cbn [List.length] in *.
      cbn [Go.len String.length]. unfold Go.len in *. lia. }
    assert (Hfuel : Go.len body < f).
    { revert Hf. clear. len_norm. lia. }
    specialize (Hloop ltac:(lia) Hfuel).
    assert (Hfirst : JSON.typ (JSON.p_token
                       (parser_at ((pre ++ "[") ++ body ++ "]" ++ rest)
                          (Go.len (pre ++ "["))))
                     <> JSON.tokenRightBracket).
    { destruct f as [|f']; [lia|]. cbn [JSON.parseArray_loop] in Hloop.
      destruct (JSON.parseValue (S f') _) as [r| | |] eqn:E; try discriminate.
      apply parseValue_starts in E. apply E. }
    destruct (JSON.typ (JSON.p_token _)); try contradiction;
      rewrite Hloop; reflexivity.
Qed.

(** *** Objects *)

(** One [key:value] pair followed by a comma or the closing brace. *)
Lemma parseObject_pair_at ft v f pre name e c rest :
  plain name = true -> parses_at ft v e -> Go.len e < f ->
  In c [","; "}"]%char ->
  forall g obj,
    JSON.parseObject_loop (JSON.parseValue f) (S g) obj
      (parser_at (pre ++ JSON.quoted name ++ ":" ++ e ++ String c rest)
         (Go.len pre))
    = (if Ascii.eqb c "}"
       then Ok (tbl_insert name (value_of ft v) obj,
                parser_at (pre ++ JSON.quoted name ++ ":" ++ e ++ String c rest)
                  (Go.len pre + Go.len name + 3 + Go.len e + 1))
       else JSON.parseObject_loop (JSON.parseValue f) g
              (tbl_insert name (value_of ft v) obj)
              (parser_at (pre ++ JSON.quoted name ++ ":" ++ e ++ String c rest)
                 (Go.len pre + Go.len name + 3 + Go.len e + 1))).
Proof.
  intros Hn Hparse Hf Hc g obj.
  set (data := pre ++ JSON.quoted name ++ ":" ++ e ++ String c rest).
  assert (Hkey : parser_at data (Go.len pre)
                 = JSON.mkParser (JSON.mkLexer data (Go.len pre + Go.len name + 2))
                     (JSON.mkToken JSON.tokenString name)).
  { apply (parser_at_next data), JSON_next_string_at. exact Hn. }
  assert (Hcolon : parser_at data (Go.len pre + Go.len name + 2)
                   = JSON.mkParser
                       (JSON.mkLexer data (Go.len pre + Go.len name + 2 + 1))
                       (JSON.mkToken JSON.tokenColon ":")).
  { apply (parser_at_punct data _ ":"%char); [|cbn; auto 10].
    replace data with ((pre ++ JSON.quoted name) ++ String ":" (e ++ String c rest))
      by (unfold data; str_eq).
    replace (Go.len pre + Go.len name + 2) with (Go.len (pre ++ JSON.quoted name))
      by (clear; len_eq).
    apply at_mid. }
  assert (Hval : JSON.parseValue f
                   (parser_at data (Go.len pre + Go.len name + 2 + 1))
                 = Ok (value_of ft v,
                       parser_at data (Go.len pre + Go.len name + 3 + Go.len e))).
  { replace data with ((pre ++ JSON.quoted name ++ ":") ++ e ++ String c rest)
      by (unfold data; str_eq).
    replace (Go.len pre + Go.len name + 2 + 1)
      with (Go.len (pre ++ JSON.quoted name ++ ":")) by (clear; len_eq).
    replace (Go.len pre + Go.len name + 3 + Go.len e)
      with (Go.len (pre ++ JSON.quoted name ++ ":") + Go.len e)
      by (clear; len_eq).
    apply Hparse; [|exact Hf].
    apply stops_at_punct. cbn [In] in *. intuition. }
  assert (Hend : parser_at data (Go.len pre + Go.len name + 3 + Go.len e)
                 = JSON.mkParser
                     (JSON.mkLexer data
                        (Go.len pre + Go.len name + 3 + Go.len e + 1))
                     (fst (JSON.next (JSON.newLexer (Go.str1 c))))).
  { apply (parser_at_punct data _ c); [|cbn [In] in *; intuition].
    replace data
      with ((pre ++ JSON.quoted name ++ ":") ++ e ++ String c rest)
      by (unfold data; str_eq).
    replace (Go.len pre + Go.len name + 3 + Go.len e)
      with (Go.len (pre ++ JSON.quoted name ++ ":") + Go.len e)
      by (clear; len_eq).
    apply at_mid2. }
  cbn [JSON.parseObject_loop]. rewrite Hkey.
  cbn [JSON.p_token JSON.typ JSON.value]. rewrite advance_token_at, Hcolon.
  cbn [JSON.p_token JSON.typ]. rewrite advance_token_at, Hval.
  cbn [bind]. rewrite Hend. cbn [JSON.p_token]. rewrite advance_token_at.
  cbn [In] in Hc. destruct Hc as [<-|[<-|[]]]; reflexivity.
Qed.

Section Object_at.
Variable f : nat.

Lemma parseObject_loop_at : forall fs vs ps,
  fields_at fs vs ps -> ps <> [] ->
  forall pre rest obj g,
    List.length ps <= g -> Go.len (Go.Join ps ",") < f ->
    JSON.parseObject_loop (JSON.parseValue f) g obj
      (parser_at (pre ++ Go.Join ps "," ++ "}" ++ rest) (Go.len pre))
    = Ok (value_fields fs vs obj,
          parser_at (pre ++ Go.Join ps "," ++ "}" ++ rest)
            (Go.len pre + Go.len (Go.Join ps ",") + 1)).
Proof.
  induction 1 as [|fd ft v name e fs vs ps Hw Hn Hparse Hrest IH];
    intros Hne pre rest obj g Hg Hf; [contradiction|].
  destruct g as [|g]; [cbn [List.length] in Hg; lia|].
  cbn [value_fields]. rewrite Hw.
  destruct ps as [|p2 ps].
  - (* the last pair *)
    inversion Hrest; subst. cbn [Go.Join] in *.
    assert (Hd : pre ++ (JSON.quoted name ++ ":" ++ e) ++ "}" ++ rest
                 = pre ++ JSON.quoted name ++ ":" ++ e ++ String "}" rest)
      by str_eq.
    rewrite Hd.
    rewrite (parseObject_pair_at ft v f pre name e "}"%char rest Hn Hparse)
      by (cbn; auto; revert Hf; clear; len_norm; lia).
    cbn [Ascii.eqb Bool.eqb value_fields]. cbn iota.
    do 3 f_equal. clear. len_eq.
  - (* a pair and a comma *)
    change (Go.Join ((JSON.quoted name ++ ":" ++ e) :: p2 :: ps) ",")
      with ((JSON.quoted name ++ ":" ++ e) ++ "," ++ Go.Join (p2 :: ps) ",") in *.
    set (tail := Go.Join (p2 :: ps) ",") in *.
    assert (Hd : pre ++ ((JSON.quoted name ++ ":" ++ e) ++ "," ++ tail)
                   ++ "}" ++ rest
                 = pre ++ JSON.quoted name ++ ":" ++ e
                     ++ String "," (tail ++ "}" ++ rest)) by str_eq.
    rewrite Hd.
    rewrite (parseObject_pair_at ft v f pre name e ","%char
               (tail ++ "}" ++ rest) Hn Hparse)
      by (cbn; auto; revert Hf; clear; len_norm; lia).
    cbn [Ascii.eqb Bool.eqb]. cbn iota.
    assert (Hd' : pre ++ JSON.quoted name ++ ":" ++ e
                    ++ String "," (tail ++ "}" ++ rest)
                  = (pre ++ JSON.quoted name ++ ":" ++ e ++ ",")
                      ++ tail ++ "}" ++ rest) by str_eq.
    assert (Hl : Go.len pre + Go.len name + 3 + Go.len e + 1
                 = Go.len (pre ++ JSON.quoted name ++ ":" ++ e ++ ","))
      by (clear; len_eq).
    rewrite Hd', Hl.
    rewrite (IH ltac:(discriminate)
               (pre ++ JSON.quoted name ++ ":" ++ e ++ ",") rest
               (tbl_insert name (value_of ft v) obj) g)
      by (cbn [List.length] in *; try lia; revert Hf; clear; len_norm; lia).
    do 3 f_equal. clear. len_eq.
Qed.
End Object_at.

Lemma Join_cons2 a b l sep :
  Go.Join (a :: b :: l) sep = a ++ sep ++ Go.Join (b :: l) sep.
Proof. reflexivity. Qed.

Lemma parse_struct_at fs vs ps :
  fields_at fs vs ps ->
  parses_at (TStruct fs) (NStruct vs) ("{" ++ Go.Join ps "," ++ "}").
Proof.
  intros Hall pre rest fuel Hr Hf.
  destruct fuel as [|f]; [lia|].
  rewrite value_of_struct.
  set (body := Go.Join ps ",") in *.
  assert (Hd : pre ++ ("{" ++ body ++ "}") ++ rest
               = (pre ++ "{") ++ body ++ "}" ++ rest) by str_eq.
  assert (Hl : Go.len pre + 1 = Go.len (pre ++ "{")) by (clear; len_eq).
  assert (Hopen : parser_at (pre ++ ("{" ++ body ++ "}") ++ rest) (Go.len pre)
                  = JSON.mkParser
                      (JSON.mkLexer (pre ++ ("{" ++ body ++ "}") ++ rest)
                         (Go.len pre + 1))
                      (JSON.mkToken JSON.tokenLeftBrace "{")).
  { apply (parser_at_punct _ _ "{"%char); [|cbn; auto 10].
    cbn [append]. apply at_mid. }
  cbn [JSON.parseValue]. rewrite Hopen. cbn [JSON.p_token JSON.typ].
  unfold JSON.parseObject. rewrite advance_token_at.
  replace (Go.len pre + Go.len ("{" ++ body ++ "}"))
    with (Go.len (pre ++ "{") + Go.len body + 1) by (clear; len_eq).
  rewrite Hd, Hl.
  destruct ps as [|p ps].
  - (* the empty record *)
    inversion Hall; subst. cbn [Go.Join] in body. subst body.
    cbn [append Go.len String.length].
    rewrite (parser_at_punct _ (Go.len (pre ++ "{")) "}"%char)
      by (try apply at_mid; cbn; auto 10).
    cbn [JSON.p_token JSON.typ fst JSON.next bind value_fields].
    rewrite advance_token_at. rewrite Nat.add_0_r. reflexivity.
  - (* pairs *)
    pose proof (parseObject_loop_at f fs vs (p :: ps) Hall ltac:(discriminate)
                  (pre ++ "{") rest [] f) as Hloop.
    fold body in Hloop.
    assert (Hcount : List.length (p :: ps) <= Go.len body).
    { clear - Hall. subst body. revert fs vs Hall.
      induction (p :: ps) as [|a l IH]; intros fs vs Hall; [cbn; lia|].
      inversion Hall as [|fd ft v name e fs' vs' l' Hw Hn Hp Hrest]; subst.
      specialize (IH _ _ Hrest).
      destruct l as [|b l].
      - cbn [Go.Join List.length]. clear. len_norm. lia.
      - rewrite Join_cons2.
        cbn [List.length] in *. revert IH. clear.
        generalize (Go.Join (b :: l) ","). intros tail. len_norm. lia. }
    assert (Hfuel : Go.len body < f).
    { revert Hf. clear. len_norm. lia. }
    specialize (Hloop ltac:(lia) Hfuel).
    assert (Hfirst : JSON.typ (JSON.p_token
                       (parser_at ((pre ++ "{") ++ body ++ "}" ++ rest)
                          (Go.len (pre ++ "{"))))
                     <> JSON.tokenRightBrace).
    { destruct f as [|f']; [lia|]. cbn [JSON.parseObject_loop] in Hloop.
      destruct (JSON.typ (JSON.p_token _)); discriminate. }
    destruct (JSON.typ (JSON.p_token _)); try contradiction;
      rewrite Hloop; reflexivity.
Qed.

(** *** What [Marshal] writes is parsed as the value *)

Lemma plain_escape str : plain str = true -> JSON.escapeString str = str.
Proof. apply escapeString_plain. Qed.

Lemma faithful_parses : forall t x,
  faithful t x = true ->
  exists s, JSON.marshalValue t x = Ok s /\ 0 < Go.len s /\ parses_at t x s.
Proof.
  induction t as [|k|k|k| |elem IH|n elem IH|key elem IHk IH|fields IH| |elem IH|i|k]
    using gtype_nested_ind; intros x Hx; destruct x; try discriminate.
  - (* string *)
    cbn [faithful] in Hx. exists (JSON.quoted s).
    cbn [JSON.marshalValue]. rewrite (plain_escape _ Hx).
    split; [reflexivity|]. split; [clear; len_eq|].
    apply parse_string_at. exact Hx.
  - (* integers *)
    cbn [faithful] in Hx. exists (Go.FormatInt z).
    split; [reflexivity|]. split; [|apply parse_int_at; exact Hx].
    destruct (FormatInt_nonempty z) as (c & r & ->). cbn. lia.
  - (* booleans *)
    exists (Go.FormatBool b). split; [reflexivity|].
    split; [destruct b; cbn; lia|apply parse_bool_at].
  - (* slices *)
    destruct xs as [xs|].
    + cbn [faithful] in Hx.
      assert (Hes : exists es, JSON_marshal_elems elem xs = Ok es
                /\ Forall2 (fun y e => 0 < Go.len e /\ parses_at elem y e) xs es).
      { induction xs as [|y xs IHxs]; [exists []; split; constructor|].
        cbn [forallb] in Hx. apply andb_true_iff in Hx as [Hy Hxs].
        destruct (IH y Hy) as (e & He & Hpos & Hp).
        destruct (IHxs Hxs) as (es & Hes & Hall).
        exists (e :: es). cbn [JSON_marshal_elems]. rewrite He, Hes.
        split; [reflexivity|]. constructor; auto. }
      destruct Hes as (es & Hes & Hall).
      exists ("[" ++ Go.Join es "," ++ "]").
      rewrite JSON_marshal_slice, Hes. split; [reflexivity|].
      split; [clear; len_eq|]. apply parse_slice_at. exact Hall.
    + exists "null". split; [reflexivity|].
      split; [cbn; lia|apply parse_nil_slice_at].
  - (* records *)
    rewrite faithful_struct in Hx. apply andb_true_iff in Hx as [_ Hx].
    assert (Hps : exists ps, JSON_marshal_fields fields fs = Ok ps
              /\ fields_at fields fs ps).
    { revert fs Hx. induction IH as [|[fd ft] fields Hft _ IHfs];
        intros vs Hx; destruct vs as [|v vs]; try discriminate.
      - exists []. split; constructor.
      - cbn [faithful_fields] in Hx.
        destruct (wire_name JSONf fd) as [name|] eqn:Hw; [|discriminate].
        apply andb_true_iff in Hx as [Hx Hvs].
        apply andb_true_iff in Hx as [Hn Hv].
        destruct (Hft v Hv) as (e & He & _ & Hp).
        destruct (IHfs vs Hvs) as (ps & Hps & Hall).
        exists ((JSON.quoted name ++ ":" ++ e) :: ps).
        cbn [JSON_marshal_fields]. rewrite Hw. cbn [snd] in He.
        rewrite He, Hps. split; [reflexivity|].
        constructor; assumption. }
    destruct Hps as (ps & Hps & Hall).
    exists ("{" ++ Go.Join ps "," ++ "}").
    rewrite JSON_marshal_struct, Hps. split; [reflexivity|].
    split; [clear; len_eq|]. apply parse_struct_at. exact Hall.
Qed.

(** *** The value is decoded into what was encoded *)

Lemma value_fields_other k : forall fs vs obj,
  existsb (String.eqb k) (wire_names JSONf fs) = false ->
  tbl_lookup k (value_fields fs vs obj) = tbl_lookup k obj.
Proof.
  induction fs as [|[f ft] fs IH]; intros vs obj Hk; destruct vs as [|v vs];
    try reflexivity.
  cbn [value_fields]. cbn [wire_names] in Hk.
  destruct (wire_name JSONf f) as [name|]; [|apply IH; exact Hk].
  cbn [existsb] in Hk. apply orb_false_iff in Hk as [Hne Hk].
  rewrite (IH vs _ Hk). apply tbl_lookup_insert_other.
  rewrite String.eqb_sym. exact Hne.
Qed.

Lemma value_fields_looked_up : forall fs vs obj,
  distinct (wire_names JSONf fs) = true ->
  looked_up (value_fields fs vs obj) fs vs.
Proof.
  induction fs as [|[f ft] fs IH]; intros vs obj Hd; destruct vs as [|v vs];
    try exact I.
  cbn [looked_up value_fields]. cbn [wire_names] in Hd.
  destruct (wire_name JSONf f) as [name|] eqn:Hw.
  - cbn [distinct] in Hd. apply andb_true_iff in Hd as [Hn Hd].
    apply negb_true_iff in Hn. split; [|apply IH; exact Hd].
    intros name' E. inversion E; subst name'.
    rewrite (value_fields_other name fs vs _ Hn). apply tbl_lookup_insert.
  - split; [discriminate|apply IH; exact Hd].
Qed.

Lemma set_elems_faithful elem :
  (forall x, faithful elem x = true ->
     setValue JSONf elem (zero elem) (value_of elem x) = Decoded x None) ->
  forall xs, forallb (faithful elem) xs = true ->
    set_elems (setValue JSONf elem) (zero elem) (map (value_of elem) xs)
    = Decoded (NSlice (Some xs)) None.
Proof.
  intros IH. induction xs as [|y xs IHxs]; intros Hx; [reflexivity|].
  cbn [forallb] in Hx. apply andb_true_iff in Hx as [Hy Hxs].
  cbn [map set_elems]. rewrite (IH y Hy), (IHxs Hxs). reflexivity.
Qed.

Lemma set_fields_faithful obj : forall fs,
  Forall (fun ft => forall x, faithful (snd ft) x = true ->
            setValue JSONf (snd ft) (zero (snd ft)) (value_of (snd ft) x)
            = Decoded x None) fs ->
  forall vs, faithful_fields fs vs = true -> looked_up obj fs vs ->
    set_fields JSONf obj fs (map (fun ft => zero (snd ft)) fs)
    = Decoded (NStruct vs) None.
Proof.
  induction 1 as [|[f ft] fs Hft _ IH]; intros vs Hx Hl;
    destruct vs as [|v vs]; try discriminate; [reflexivity|].
  cbn [faithful_fields] in Hx. cbn [looked_up] in Hl. destruct Hl as [Hl Hls].
  destruct (wire_name JSONf f) as [name|] eqn:Hw; [|discriminate].
  apply andb_true_iff in Hx as [Hx Hvs]. apply andb_true_iff in Hx as [_ Hv].
  cbn [map set_fields snd]. rewrite Hw, (Hl name eq_refl).
  cbn [snd] in Hft. rewrite (Hft v Hv), (IH vs Hvs Hls). reflexivity.
Qed.

Lemma faithful_decodes : forall t x,
  faithful t x = true ->
  setValue JSONf t (zero t) (value_of t x) = Decoded x None.
Proof.
  induction t as [|k|k|k| |elem IH|n elem IH|key elem IHk IH|fields IH| |elem IH|i|k]
    using gtype_nested_ind; intros x Hx; destruct x; try discriminate.
  - reflexivity.
  - cbn [faithful] in Hx. cbn [value_of setValue].
    destruct (in_width_int64 k z Hx) as [Hr _].
    destruct (wrap_signed_range (int_bits k) z) as (_ & _ & Hw);
      [destruct k; reflexivity|].
    rewrite (Hw Hr). reflexivity.
  - reflexivity.
  - destruct xs as [xs|]; [|reflexivity].
    cbn [faithful] in Hx. cbn [value_of setValue].
    apply set_elems_faithful; assumption.
  - rewrite value_of_struct, setValue_struct.
    rewrite faithful_struct in Hx. apply andb_true_iff in Hx as [Hd Hx].
    cbn [zero]. apply set_fields_faithful; [exact IH|exact Hx|].
    apply value_fields_looked_up. exact Hd.
Qed.

(** X20. The JSON round trip holds for every value made of plain
    strings (none of the five bytes [escapeString] rewrites), signed
    integers that fit their width, booleans, slices (nil or not) and
    records all of whose fields are exported, not tagged [-], and have
    plain, pairwise distinct wire names: [Marshal] returns a text, and
    [Unmarshal] of that text into a zero value of the type returns no
    error and leaves the destination equal to the value. *)
Theorem JSON_round_trip (t : gtype) (x : nval) :
  faithful t x = true ->
  exists data,
    JSON.Marshal (Some (t, x)) = Ok data
    /\ JSON.Unmarshal data (ptr_to t (zero t)) = Decoded (NPtr (Some x)) None.
Proof.
  intros Hx. destruct (faithful_parses t x Hx) as (s & Hm & _ & Hp).
  exists s. split; [exact Hm|].
  specialize (Hp "" "" (JSON.fuel_for s) stops_at_nil).
  cbn [append Go.len String.length Nat.add] in Hp.
  rewrite append_nil_r in Hp.
  unfold JSON.Unmarshal.
  change (JSON.newParser s) with (parser_at s 0).
  rewrite Hp by (unfold JSON.fuel_for; lia).
  unfold ptr_to, decode_into. rewrite (faithful_decodes t x Hx). reflexivity.
Qed.

Lemma JSON_round_trip_witness :
  faithful trip_type trip_value = true
  /\ exists data,
       JSON.Marshal (Some (trip_type, trip_value)) = Ok data
       /\ JSON.Unmarshal data (ptr_to trip_type (zero trip_type))
          = Decoded (NPtr (Some trip_value)) None.
Proof.
  split; [vm_compute; reflexivity|].
  apply (JSON_round_trip trip_type trip_value). vm_compute; reflexivity.
Defined.

(* ----------------------------------------------------------------- *)
(** ** Keys that no field has *)

Lemma set_fields_same_keys fmt obj obj' : forall fs vs,
  (forall f ft name, In (f, ft) fs -> wire_name fmt f = Some name ->
     tbl_lookup name obj = tbl_lookup name obj') ->
  set_fields fmt obj fs vs = set_fields fmt obj' fs vs.
Proof.
  induction fs as [|[field ft] fs IH]; intros vs Hsame; [reflexivity|].
  destruct vs as [|v vs]; [reflexivity|].
  cbn [set_fields].
  rewrite (IH vs) by (intros; eapply Hsame; [right|]; eassumption).
  destruct (wire_name fmt field) as [name|] eqn:Hw; [|reflexivity].
  rewrite (Hsame field ft name (or_introl eq_refl) Hw). reflexivity.
Qed.

(** X21. A record decode looks at the table only under the wire names
    of the record's fields: two tables that agree on those names give
    the same result, so keys that no field has are ignored, whatever
    their values, and raise no error. *)
Theorem unknown_keys_are_ignored (fmt : format)
  (fields : list (StructField * gtype)) (cur : nval) (obj obj' : table) :
  (forall f ft name, In (f, ft) fields -> wire_name fmt f = Some name ->
     tbl_lookup name obj = tbl_lookup name obj') ->
  setValue fmt (TStruct fields) cur (VTable obj)
  = setValue fmt (TStruct fields) cur (VTable obj').
Proof.
  intros Hsame. rewrite !setValue_struct. apply set_fields_same_keys.
  exact Hsame.
Qed.

Lemma unknown_keys_are_ignored_witness :
  (forall f ft name,
     In (f, ft) [(mkField "A" true [], TInt KInt)] ->
     wire_name JSONf f = Some name ->
     tbl_lookup name [("A", VInt 1)]
     = tbl_lookup name [("zzz", VArray [VNull]); ("A", VInt 1); ("a", VString "x")])
  /\ setValue JSONf (TStruct [(mkField "A" true [], TInt KInt)]) (NStruct [NInt 0])
       (VTable [("A", VInt 1)])
     = setValue JSONf (TStruct [(mkField "A" true [], TInt KInt)]) (NStruct [NInt 0])
         (VTable [("zzz", VArray [VNull]); ("A", VInt 1); ("a", VString "x")]).
Proof.
  assert (H : forall f ft name,
     In (f, ft) [(mkField "A" true [], TInt KInt)] ->
     wire_name JSONf f = Some name ->
     tbl_lookup name [("A", VInt 1)]
     = tbl_lookup name [("zzz", VArray [VNull]); ("A", VInt 1); ("a", VString "x")]).
  { intros f ft name [E|[]] Hw. inversion E; subst.
    vm_compute in Hw. inversion Hw; subst. reflexivity. }
  split; [exact H|].
  apply (unknown_keys_are_ignored JSONf [(mkField "A" true [], TInt KInt)]
           (NStruct [NInt 0]) [("A", VInt 1)]
           [("zzz", VArray [VNull]); ("A", VInt 1); ("a", VString "x")] H).
Defined.

(* ----------------------------------------------------------------- *)
(** ** Maps with integer keys *)

Lemma Ok_inj {A : Type} (a b : A) : Ok a = Ok b -> a = b.
Proof. intros H. injection H as H. exact H. Qed.

Lemma Join_starts x rest sep : exists tail, Go.Join (x :: rest) sep = x ++ tail.
Proof.
  destruct rest as [|y rest].
  - exists "". cbn [Go.Join]. rewrite append_nil_r. reflexivity.
  - rewrite Join_cons2. eauto.
Qed.

(** The text [marshalMap] writes for a map whose first key is an
    integer starts with the brace and the key's decimal text, bare. *)
Lemma JSON_marshalMap_starts k elem z y rest data :
  JSON.marshalValue (TMap (TInt k) elem) (NMap (Some ((NInt z, y) :: rest)))
  = Ok data ->
  exists tail, data = "{" ++ Go.FormatInt z ++ String ":" tail.
Proof.
  cbn [JSON.marshalValue bind].
  destruct (JSON.marshalValue elem y) as [vb| | |]; cbn [bind];
    try discriminate.
  match goal with
  | |- bind (bind ?r _) _ = _ -> _ => destruct r as [pairs| | |]
  end; cbn [bind]; try discriminate.
  intros H. apply Ok_inj in H. rewrite <- H.
  destruct (Join_starts (Go.FormatInt z ++ ":" ++ vb) pairs ",") as [t ->].
  exists (vb ++ t ++ "}"). str_eq.
Qed.

(** X22. What JSON [Marshal] writes for a map with integer keys, JSON
    [Unmarshal] rejects: the key is written as a bare number,
    [parseObject] wants a string there, and the call returns the
    syntax error with the destination untouched, whatever the
    destination. *)
Theorem JSON_integer_keys_are_not_read_back (k : int_kind) (elem : gtype)
  (z : Z) (y : nval) (rest : list (nval * nval)) (data : string) (v : any) :
  (Go.int64_min <= z <= Go.int64_max)%Z ->
  JSON.Marshal (Some (TMap (TInt k) elem, NMap (Some ((NInt z, y) :: rest))))
  = Ok data ->
  JSON.Unmarshal data v
  = Decoded (held v) (Some (SyntaxError "string key" (Go.FormatInt z))).
Proof.
  intros Hz Hm. unfold JSON.Marshal in Hm.
  destruct (JSON_marshalMap_starts _ _ _ _ _ _ Hm) as [tail ->].
  destruct (FormatInt_parses z Hz) as [_ Ht].
  destruct (FormatInt_nonempty z) as (c & s' & E).
  assert (Hne : Go.FormatInt z <> "") by (rewrite E; discriminate).
  set (data := "{" ++ Go.FormatInt z ++ String ":" tail).
  assert (Hopen : parser_at data 0
                  = JSON.mkParser (JSON.mkLexer data 1)
                      (JSON.mkToken JSON.tokenLeftBrace "{")).
  { apply (parser_at_punct data 0 "{"%char); [reflexivity|cbn; auto 10]. }
  assert (Hkey : parser_at data 1
                 = JSON.mkParser (JSON.mkLexer data (1 + Go.len (Go.FormatInt z)))
                     (JSON.mkToken JSON.tokenNumber (Go.FormatInt z))).
  { apply (parser_at_next data 1).
    apply (JSON_next_int_at "{" (Go.FormatInt z) (String ":" tail) Hne Ht).
    apply stops_at_punct. cbn; auto 10. }
  unfold JSON.Unmarshal.
  change (JSON.newParser data) with (parser_at data 0).
  unfold JSON.fuel_for. rewrite Nat.add_comm.
  cbn [Nat.add JSON.parseValue]. rewrite Hopen. cbn [JSON.p_token JSON.typ].
  unfold JSON.parseObject. rewrite advance_token_at, Hkey.
  cbn [JSON.p_token JSON.typ JSON.parseObject_loop bind].
  reflexivity.
Qed.

Lemma JSON_integer_keys_are_not_read_back_witness :
  (Go.int64_min <= 1 <= Go.int64_max)%Z
  /\ JSON.Marshal (Some (TMap (TInt KInt) (TInt KInt),
                         NMap (Some [(NInt 1, NInt 2)])))
     = Ok "{1:2}"
  /\ JSON.Unmarshal "{1:2}" (ptr_to (TMap (TInt KInt) (TInt KInt)) (NMap None))
     = Decoded (held (ptr_to (TMap (TInt KInt) (TInt KInt)) (NMap None)))
         (Some (SyntaxError "string key" (Go.FormatInt 1))).
Proof.
  split; [unfold Go.int64_min, Go.int64_max; lia|].
  split; [vm_compute; reflexivity|].
  apply (JSON_integer_keys_are_not_read_back KInt (TInt KInt) 1 (NInt 2) []
           "{1:2}");
    [unfold Go.int64_min, Go.int64_max; lia|vm_compute; reflexivity].
Defined.

(* ================================================================= *)
(** ** Decoding in place: destinations that pointers refer into *)

(* ----------------------------------------------------------------- *)
(** ** The store: reading and assigning variables *)

Lemma nth_error_list_update_same {A : Type} (f : A -> A) :
  forall l i, nth_error (list_update l i f) i = option_map f (nth_error l i).
Proof.
  induction l as [|x l IH]; intros [|i]; cbn; auto.
Qed.

Lemma nth_error_list_update_other {A : Type} (f : A -> A) :
  forall l i j, i <> j -> nth_error (list_update l i f) j = nth_error l j.
Proof.
  induction l as [|x l IH]; intros [|i] [|j] H; cbn; auto; try congruence.
Qed.

Lemma forallb_list_update {A : Type} (P : A -> bool) (f : A -> A) :
  (forall x, P x = true -> P (f x) = true) ->
  forall l i, forallb P l = true -> forallb P (list_update l i f) = true.
Proof.
  intros Hf. induction l as [|x l IH]; intros [|i] H; cbn in *; auto;
    apply andb_true_iff in H as [Hx Hl]; apply andb_true_iff; auto.
Qed.

Lemma list_update_same {A : Type} (f : A -> A) :
  forall l i, (forall x, nth_error l i = Some x -> f x = x) ->
    list_update l i f = l.
Proof.
  induction l as [|x l IH]; intros [|i] H; cbn; auto.
  - rewrite (H x eq_refl). reflexivity.
  - rewrite IH; auto.
Qed.

Lemma apart_cons i p r : apart (i :: p) (i :: r) = apart p r.
Proof. unfold apart. cbn. rewrite Nat.eqb_refl. reflexivity. Qed.

Lemma apart_cons_other i j p r : i <> j -> apart (i :: p) (j :: r) = true.
Proof.
  intros H. unfold apart. cbn.
  apply Nat.eqb_neq in H. rewrite H.
  rewrite Nat.eqb_sym, H. reflexivity.
Qed.

Lemma apart_nil_r p : apart p [] = false.
Proof. unfold apart. cbn. apply andb_false_r. Qed.

(** A variable inside one that is apart from [r] is apart from [r]. *)
Lemma apart_app p r q : apart p r = true -> apart (p ++ q)%list r = true.
Proof.
  revert r. induction p as [|i p IH]; intros r H.
  - discriminate.
  - destruct r as [|j r]; [rewrite apart_nil_r in H; discriminate|].
    destruct (Nat.eq_dec i j) as [->|Hij].
    + rewrite apart_cons in H. cbn [app]. rewrite apart_cons. auto.
    + cbn [app]. apply apart_cons_other. exact Hij.
Qed.

(** Two fields of one record are apart. *)
Lemma apart_fields p i j : i <> j -> apart (p ++ [i])%list (p ++ [j])%list = true.
Proof.
  intros H. induction p as [|k p IH]; cbn [app].
  - apply apart_cons_other. exact H.
  - rewrite apart_cons. exact IH.
Qed.

(** An assignment is not seen at a variable apart from the assigned
    one. *)
Lemma sget_sset_apart v :
  forall p s r, apart p r = true -> sget (sset s p v) r = sget s r.
Proof.
  induction p as [|i p IH]; intros s r H.
  - discriminate.
  - destruct r as [|j r]; [rewrite apart_nil_r in H; discriminate|].
    destruct s as [x|q|fs]; try reflexivity.
    cbn [sset sget].
    destruct (Nat.eq_dec i j) as [->|Hij].
    + rewrite apart_cons in H.
      rewrite nth_error_list_update_same.
      destruct (nth_error fs j) as [w|]; cbn [option_map]; auto.
    + rewrite nth_error_list_update_other by exact Hij. reflexivity.
Qed.

(** Reading the variable that was assigned. *)
Lemma sget_sset_same v :
  forall p s old, sget s p = Some old -> sget (sset s p v) p = Some v.
Proof.
  induction p as [|i p IH]; intros s old H.
  - reflexivity.
  - destruct s as [x|q|fs]; try discriminate.
    cbn [sset sget] in *.
    rewrite nth_error_list_update_same.
    destruct (nth_error fs i) as [w|]; [|discriminate].
    cbn [option_map]. eauto.
Qed.

(** Assigning to a variable what it holds. *)
Lemma sset_same :
  forall p s v, sget s p = Some v -> sset s p v = s.
Proof.
  induction p as [|i p IH]; intros s v H.
  - cbn in *. congruence.
  - destruct s as [x|q|fs]; try discriminate.
    cbn [sset sget] in *. f_equal.
    apply list_update_same. intros w Hw. rewrite Hw in H. auto.
Qed.

Lemma no_ref_into_sget r :
  forall p s v, no_ref_into r s = true -> sget s p = Some v ->
    no_ref_into r v = true.
Proof.
  induction p as [|i p IH]; intros s v Hs H.
  - cbn in H. congruence.
  - destruct s as [x|q|fs]; try discriminate.
    cbn [sget] in H.
    destruct (nth_error fs i) as [w|] eqn:Hw; [|discriminate].
    apply (IH w); [|exact H].
    cbn [no_ref_into] in Hs.
    rewrite forallb_forall in Hs. apply Hs.
    eapply nth_error_In; eassumption.
Qed.

Lemma no_ref_into_sset r v :
  no_ref_into r v = true ->
  forall p s, no_ref_into r s = true -> no_ref_into r (sset s p v) = true.
Proof.
  intros Hv. induction p as [|i p IH]; intros s Hs.
  - exact Hv.
  - destruct s as [x|q|fs]; auto.
    cbn [sset no_ref_into] in *.
    apply forallb_list_update; auto.
Qed.

Lemma zero_at_struct fields fs :
  zero_at (TStruct fields) (HStruct fs) = HStruct (zero_fields_at fields fs).
Proof. reflexivity. Qed.

(** Zeroing makes no pointer that holds an address. *)
Lemma no_ref_into_zero_at r :
  forall t v, no_ref_into r v = true -> no_ref_into r (zero_at t v) = true.
Proof.
  induction t using gtype_nested_ind; intros v Hv; try reflexivity.
  destruct v as [x|q|fs]; try reflexivity.
  rewrite zero_at_struct. cbn [no_ref_into] in *.
  revert fs Hv. induction H as [|[f ft] fields Hft _ IH]; intros fs Hv.
  - exact Hv.
  - destruct fs as [|w fs]; [reflexivity|].
    cbn [zero_fields_at forallb] in *.
    apply andb_true_iff in Hv as [Hw Hfs].
    apply andb_true_iff. split; [apply Hft; exact Hw|apply IH; exact Hfs].
Qed.

(* ----------------------------------------------------------------- *)
(** ** The decoder on the store *)

(** On a variable that holds a tree, [setValue_at] is [setValue]. *)
Lemma setValue_at_own fmt t p value s x :
  sget s p = Some (HOwn x) ->
  setValue_at fmt t p value s = store_at s p (setValue fmt t x value).
Proof.
  intros H. destruct t; cbn [setValue_at]; rewrite H; reflexivity.
Qed.

Lemma setValue_at_ref fmt elem p value s target :
  sget s p = Some (HRef target) ->
  setValue_at fmt (TPtr elem) p value s
  = match value with
    | VNull => Stored (sset s p (HOwn (NPtr None))) None
    | _ => setValue_at fmt elem target value s
    end.
Proof.
  intros H. cbn [setValue_at]. rewrite H. reflexivity.
Qed.

Lemma setValue_at_struct fmt fields p obj s fs :
  sget s p = Some (HStruct fs) ->
  setValue_at fmt (TStruct fields) p (VTable obj) s
  = set_fields_at fmt obj p fields 0 s.
Proof.
  intros H. cbn [setValue_at]. rewrite H.
  generalize 0 as i. clear H. revert s.
  induction fields as [|[f ft] fields IH]; intros s i.
  - reflexivity.
  - cbn [set_fields_at].
    destruct (wire_name fmt f) as [name|]; [|apply IH].
    destruct (tbl_lookup name obj) as [x|]; [|apply IH].
    destruct (setValue_at fmt ft (p ++ [i])%list x s) as [s' [e|]| |]; auto.
Qed.

(** A variable [r] to which no pointer refers keeps its value through
    the field loop when every field the loop decodes is apart from it,
    and still no pointer refers to it afterwards. *)
Lemma set_fields_at_keeps fmt obj r p :
  forall fs,
    Forall (fun ft => forall q value s s' e,
              no_ref_into r s = true -> apart q r = true ->
              setValue_at fmt (snd ft) q value s = Stored s' e ->
              sget s' r = sget s r /\ no_ref_into r s' = true) fs ->
    forall i s s' e,
      (forall n f ft name x,
         nth_error fs n = Some (f, ft) -> wire_name fmt f = Some name ->
         tbl_lookup name obj = Some x -> apart (p ++ [i + n])%list r = true) ->
      no_ref_into r s = true ->
      set_fields_at fmt obj p fs i s = Stored s' e ->
      sget s' r = sget s r /\ no_ref_into r s' = true.
Proof.
  induction 1 as [|[f ft] fs Hft _ IH]; intros i s s' e Hap Hs H.
  - cbn in H. injection H as <- <-. auto.
  - cbn [set_fields_at] in H. cbn [snd] in Hft.
    assert (Hrest : forall n g gt name x,
              nth_error fs n = Some (g, gt) -> wire_name fmt g = Some name ->
              tbl_lookup name obj = Some x ->
              apart (p ++ [S i + n])%list r = true).
    { intros n g gt name x Hn Hw Hl.
      replace (S i + n) with (i + S n) by lia.
      apply (Hap (S n) g gt name x); assumption. }
    destruct (wire_name fmt f) as [name|] eqn:Hw; [|eapply IH; eassumption].
    destruct (tbl_lookup name obj) as [x|] eqn:Hl; [|eapply IH; eassumption].
    assert (Hhere : apart (p ++ [i])%list r = true).
    { specialize (Hap 0 f ft name x eq_refl Hw Hl).
      rewrite Nat.add_0_r in Hap. exact Hap. }
    destruct (setValue_at fmt ft (p ++ [i])%list x s) as [s1 [e1|]| |] eqn:Hd;
      try discriminate.
    + injection H as <- <-. eapply Hft; eassumption.
    + destruct (Hft _ _ _ _ _ Hs Hhere Hd) as [Hg Hn].
      destruct (IH (S i) s1 s' e Hrest Hn H) as [Hg' Hn'].
      split; congruence.
Qed.

(** The frame of [setValue_at]: a decode into the variable at [p] does
    not change a variable [r] that is apart from [p] and to which no
    pointer of the store refers. *)
Lemma setValue_at_keeps fmt r :
  forall t p value s s' e,
    no_ref_into r s = true -> apart p r = true ->
    setValue_at fmt t p value s = Stored s' e ->
    sget s' r = sget s r /\ no_ref_into r s' = true.
Proof.
  induction t using gtype_nested_ind; intros p value s s' e Hs Hap H0.
  all: destruct (sget s p) as [[x|q|fs]|] eqn:Hp.
  all: try (rewrite (setValue_at_own _ _ _ _ _ _ Hp) in H0;
            match type of H0 with
            | store_at _ _ ?d = _ => destruct d as [y e0| |]
            end; cbn [store_at] in H0; try discriminate;
            injection H0 as <- <-;
            split; [apply sget_sset_apart; assumption
                   |apply no_ref_into_sset; [reflexivity|assumption]]).
  all: try (cbn [setValue_at] in H0; rewrite Hp in H0;
            injection H0 as <- <-; split; [reflexivity|assumption]).
  - (* a record of variables *)
    destruct value;
      try (cbn [setValue_at] in H0; rewrite Hp in H0;
           injection H0 as <- <-; split; [reflexivity|assumption]).
    + cbn [setValue_at] in H0. rewrite Hp in H0. injection H0 as <- <-.
      split; [apply sget_sset_apart; assumption|].
      apply no_ref_into_sset; [|assumption].
      apply (no_ref_into_zero_at r (TStruct fields) (HStruct fs)).
      eapply no_ref_into_sget; eassumption.
    + rewrite (setValue_at_struct _ _ _ _ _ _ Hp) in H0.
      eapply set_fields_at_keeps; [exact H| |exact Hs|exact H0].
      intros. apply apart_app. exact Hap.
  - (* a pointer that holds an address *)
    rewrite (setValue_at_ref _ _ _ _ _ _ Hp) in H0.
    assert (Hq : apart q r = true).
    { apply (no_ref_into_sget r p s (HRef q) Hs Hp). }
    destruct value;
      try (eapply IHt; eassumption).
    injection H0 as <- <-.
    split; [apply sget_sset_apart; assumption
           |apply no_ref_into_sset; [reflexivity|assumption]].
Qed.

(** When the table has none of the record's keys the loop writes
    nothing and returns no error, whatever the pointers of the store. *)
Lemma set_fields_at_absent fmt obj p :
  forall fs i s,
    (forall f ft, In (f, ft) fs -> untouched fmt obj f = true) ->
    set_fields_at fmt obj p fs i s = Stored s None.
Proof.
  induction fs as [|[field ft] fs IH]; intros i s Hall.
  - reflexivity.
  - cbn [set_fields_at].
    assert (Hu := Hall field ft (or_introl eq_refl)). unfold untouched in Hu.
    rewrite IH by (intros; eapply Hall; right; eauto).
    destruct (wire_name fmt field) as [name|]; [|reflexivity].
    destruct (tbl_lookup name obj); [discriminate|reflexivity].
Qed.

(** An error of the loop is the error of decoding one field whose key
    the table has. *)
Lemma set_fields_at_error fmt obj p :
  forall fs i s s' e,
    set_fields_at fmt obj p fs i s = Stored s' (Some e) ->
    exists n f ft name x s1,
      nth_error fs n = Some (f, ft)
      /\ wire_name fmt f = Some name /\ tbl_lookup name obj = Some x
      /\ setValue_at fmt ft (p ++ [i + n])%list x s1 = Stored s' (Some e).
Proof.
  induction fs as [|[field ft] fs IH]; intros i s s' e H.
  - discriminate.
  - cbn [set_fields_at] in H.
    assert (Hrest : forall s0,
              set_fields_at fmt obj p fs (S i) s0 = Stored s' (Some e) ->
              exists n f ft0 name x s1,
                nth_error ((field, ft) :: fs) n = Some (f, ft0)
                /\ wire_name fmt f = Some name /\ tbl_lookup name obj = Some x
                /\ setValue_at fmt ft0 (p ++ [i + n])%list x s1
                   = Stored s' (Some e)).
    { intros s0 H0.
      apply IH in H0 as (n & f & ft0 & name & x & s1 & Hn & Hw & Hl & Hd).
      exists (S n), f, ft0, name, x, s1.
      replace (i + S n) with (S i + n) by lia. auto. }
    destruct (wire_name fmt field) as [name|] eqn:Hw; [|eapply Hrest; eassumption].
    destruct (tbl_lookup name obj) as [x|] eqn:Hl; [|eapply Hrest; eassumption].
    destruct (setValue_at fmt ft (p ++ [i])%list x s) as [s1 [e1|]| |] eqn:Hd;
      try discriminate; [|eapply Hrest; eassumption].
    injection H as <- <-.
    exists 0, field, ft, name, x, s. rewrite Nat.add_0_r. auto.
Qed.

(** A field the loop does not decode, and to which no pointer of the
    store refers, keeps its value. *)
Lemma set_fields_at_frame fmt obj p fs :
  forall s s' err k f ft,
    set_fields_at fmt obj p fs 0 s = Stored s' err ->
    nth_error fs k = Some (f, ft) -> untouched fmt obj f = true ->
    no_ref_into (p ++ [k])%list s = true ->
    sget s' (p ++ [k])%list = sget s (p ++ [k])%list.
Proof.
  intros s s' err k f ft H Hk Hu Hs.
  eapply (set_fields_at_keeps fmt obj (p ++ [k])%list p fs); [| |exact Hs|exact H].
  - apply Forall_forall. intros [g gt] _ q value s0 s1 e.
    apply setValue_at_keeps.
  - intros n g gt name x Hn Hw Hl. cbn [Nat.add].
    apply apart_fields. intros ->.
    rewrite Hk in Hn. injection Hn as <- <-.
    unfold untouched in Hu. rewrite Hw, Hl in Hu. discriminate.
Qed.

(** On a record held as a tree, the decode is the field loop of
    [setValue] on that tree. *)
Lemma setValue_at_own_struct fmt fields p obj s vs :
  sget s p = Some (HOwn (NStruct vs)) ->
  setValue_at fmt (TStruct fields) p (VTable obj) s
  = store_at s p (set_fields fmt obj fields vs).
Proof.
  intros H. rewrite (setValue_at_own _ _ _ _ _ _ H), setValue_struct.
  reflexivity.
Qed.

Lemma store_at_stored s p d s' err :
  store_at s p d = Stored s' err ->
  exists x, d = Decoded x err /\ s' = sset s p (HOwn x).
Proof.
  destruct d as [x e| |]; cbn; intros H; try discriminate.
  injection H as <- <-. eauto.
Qed.

Lemma list_update_ext {A : Type} (f g : A -> A) :
  forall l i, (forall x, nth_error l i = Some x -> f x = g x) ->
    list_update l i f = list_update l i g.
Proof.
  induction l as [|x l IH]; intros [|i] H; cbn; auto.
  - rewrite (H x eq_refl). reflexivity.
  - rewrite (IH i); auto.
Qed.

Lemma list_update_twice {A : Type} (f g : A -> A) :
  forall l i, list_update (list_update l i f) i g
              = list_update l i (fun x => g (f x)).
Proof.
  induction l as [|x l IH]; intros [|i]; cbn; auto.
  rewrite IH. reflexivity.
Qed.

Lemma sget_app :
  forall p s q,
    sget s (p ++ q)%list
    = match sget s p with Some v => sget v q | None => None end.
Proof.
  induction p as [|i p IH]; intros s q.
  - reflexivity.
  - destruct s as [x|t|fs]; try reflexivity.
    cbn [app sget]. destruct (nth_error fs i); auto.
Qed.

Lemma sset_app w :
  forall p s q v, sget s p = Some v ->
    sset s (p ++ q)%list w = sset s p (sset v q w).
Proof.
  induction p as [|i p IH]; intros s q v H.
  - cbn in *. congruence.
  - destruct s as [x|t|fs]; try discriminate.
    cbn [app sset sget] in *. f_equal.
    apply list_update_ext. intros u Hu. rewrite Hu in H. auto.
Qed.

Lemma sset_sset a b :
  forall p s, sset (sset s p a) p b = sset s p b.
Proof.
  induction p as [|i p IH]; intros s.
  - reflexivity.
  - destruct s as [x|t|fs]; try reflexivity.
    cbn [sset]. f_equal. rewrite list_update_twice.
    apply list_update_ext. intros u _. apply IH.
Qed.

Lemma record_of_field done v vs :
  sget (record_of (done ++ v :: vs)) [List.length done] = Some (HOwn v).
Proof.
  unfold record_of. cbn [sget].
  rewrite map_app, nth_error_app2 by (rewrite List.length_map; lia).
  rewrite List.length_map, Nat.sub_diag. reflexivity.
Qed.

Lemma record_of_assign done v vs w :
  sset (record_of (done ++ v :: vs)) [List.length done] (HOwn w)
  = record_of (done ++ w :: vs).
Proof.
  unfold record_of. cbn [sset]. f_equal.
  induction done as [|d done IH]; cbn; [reflexivity|].
  f_equal. exact IH.
Qed.

Lemma set_fields_struct fmt obj :
  forall fs vs, exists r,
    set_fields fmt obj fs vs = r
    /\ match r with Decoded (NStruct _) _ | Panicked _ | Diverged => True
       | Decoded _ _ => False end.
Proof.
  intros fs vs. exists (set_fields fmt obj fs vs). split; [reflexivity|].
  destruct (set_fields fmt obj fs vs) as [d e| |] eqn:H; auto.
  apply set_fields_frame in H as (vs' & -> & _). exact I.
Qed.

(** The outcome of the field loop of [setValue] on the record that
    follows the fields [done], put back in the store. *)
Lemma set_fields_at_record fmt obj p :
  forall fs vs done s,
    sget s p = Some (record_of (done ++ vs)) ->
    List.length fs <= List.length vs ->
    set_fields_at fmt obj p fs (List.length done) s
    = match set_fields fmt obj fs vs with
      | Decoded (NStruct vs') e => Stored (sset s p (record_of (done ++ vs'))) e
      | Decoded _ e => Stored s e
      | Panicked k => StorePanicked k
      | Diverged => StoreDiverged
      end.
Proof.
  induction fs as [|[f ft] fs IH]; intros vs done s Hp Hlen.
  - cbn [set_fields_at]. destruct vs; cbn [set_fields];
      rewrite (sset_same _ _ _ Hp); reflexivity.
  - destruct vs as [|v vs]; [cbn in Hlen; lia|].
    cbn [List.length] in Hlen.
    assert (Hskip : forall w s1,
              sget s1 p = Some (record_of (done ++ w :: vs)) ->
              (forall u, sset s1 p u = sset s p u) ->
              set_fields_at fmt obj p fs (S (List.length done)) s1
              = match inside (cons_field w) (set_fields fmt obj fs vs) with
                | Decoded (NStruct vs') e =>
                    Stored (sset s p (record_of (done ++ vs'))) e
                | Decoded _ e => Stored s e
                | Panicked k => StorePanicked k
                | Diverged => StoreDiverged
                end).
    { intros w s1 H1 Hsame.
      assert (Hl : S (List.length done) = List.length (done ++ [w])%list)
        by (rewrite List.length_app; cbn [List.length]; lia).
      rewrite Hl.
      rewrite (IH vs (done ++ [w])%list s1)
        by (try rewrite <- app_assoc; cbn [app]; try assumption; lia).
      destruct (set_fields_struct fmt obj fs vs) as (r & -> & Hr).
      destruct r as [[]e0| |]; try contradiction; cbn [inside cons_field];
        try reflexivity.
      rewrite Hsame, <- app_assoc. reflexivity. }
    cbn [set_fields_at set_fields].
    destruct (wire_name fmt f) as [name|]; [|apply Hskip; auto].
    destruct (tbl_lookup name obj) as [x|]; [|apply Hskip; auto].
    assert (Hv : sget s (p ++ [List.length done])%list = Some (HOwn v)).
    { rewrite sget_app, Hp. apply record_of_field. }
    rewrite (setValue_at_own _ _ _ _ _ _ Hv).
    assert (Hw : forall w,
              sset s (p ++ [List.length done])%list (HOwn w)
              = sset s p (record_of (done ++ w :: vs))).
    { intros w. rewrite (sset_app _ _ _ _ _ Hp), record_of_assign. reflexivity. }
    destruct (setValue fmt ft v x) as [v' [e|]| |]; cbn [store_at]; try reflexivity.
    + rewrite Hw. reflexivity.
    + rewrite Hw. apply Hskip.
      * eapply sget_sset_same; eassumption.
      * intros u. apply sset_sset.
Qed.

(** The two views of a record agree: when the fields of the record are
    variables none of which is a pointer that holds an address, decoding
    in place gives what [setValue] gives on the tree. *)
Lemma setValue_at_record fmt fields p obj s vs :
  sget s p = Some (record_of vs) ->
  List.length fields <= List.length vs ->
  setValue_at fmt (TStruct fields) p (VTable obj) s
  = match setValue fmt (TStruct fields) (NStruct vs) (VTable obj) with
    | Decoded (NStruct vs') e => Stored (sset s p (record_of vs')) e
    | Decoded _ e => Stored s e
    | Panicked k => StorePanicked k
    | Diverged => StoreDiverged
    end.
Proof.
  intros Hp Hlen.
  rewrite (setValue_at_struct _ _ _ _ _ _ Hp), setValue_struct.
  apply (set_fields_at_record fmt obj p fields vs [] s Hp Hlen).
Qed.

(** C8, as the code has it. Missing-key tolerance, the decode writing in
    place. Decoding a table into the record at [p], for both formats.

    A record whose fields are variables that pointers may refer to:
    (1) if the table holds none of the record's wire names, nothing at
    all is written and no error is returned; (2) in whatever state a
    decode returns, with or without an error, a field whose wire name is
    absent from the table (or that has no wire name) holds its pre-call
    value, provided no pointer of the destination refers to that field,
    to a part of it or to a record it is a part of; (3) an error
    returned is the error of decoding a field whose wire name is
    present, never of an absent key.

    A record no pointer refers into, held as a tree: the same three,
    (2) for every absent field. *)
Theorem missing_key_tolerance (fmt : format) (fields : list (StructField * gtype))
  (obj : table) (s : store) (p : path) :
  (forall fs, sget s p = Some (HStruct fs) ->
     ((forall f ft, In (f, ft) fields -> untouched fmt obj f = true) ->
        setValue_at fmt (TStruct fields) p (VTable obj) s = Stored s None)
     /\ (forall s' err i f ft,
           setValue_at fmt (TStruct fields) p (VTable obj) s = Stored s' err ->
           nth_error fields i = Some (f, ft) -> untouched fmt obj f = true ->
           no_ref_into (p ++ [i])%list s = true ->
           sget s' (p ++ [i])%list = sget s (p ++ [i])%list)
     /\ (forall s' e,
           setValue_at fmt (TStruct fields) p (VTable obj) s = Stored s' (Some e) ->
           exists i f ft name x s1,
             nth_error fields i = Some (f, ft)
             /\ wire_name fmt f = Some name /\ tbl_lookup name obj = Some x
             /\ setValue_at fmt ft (p ++ [i])%list x s1 = Stored s' (Some e)))
  /\ (forall vs, sget s p = Some (HOwn (NStruct vs)) ->
        ((forall f ft, In (f, ft) fields -> untouched fmt obj f = true) ->
           setValue_at fmt (TStruct fields) p (VTable obj) s = Stored s None)
        /\ (forall s' err,
              setValue_at fmt (TStruct fields) p (VTable obj) s = Stored s' err ->
              exists vs', sget s' p = Some (HOwn (NStruct vs'))
                /\ List.length vs' = List.length vs
                /\ forall i f ft, nth_error fields i = Some (f, ft) ->
                     untouched fmt obj f = true -> nth_error vs' i = nth_error vs i)
        /\ (forall s' e,
              setValue_at fmt (TStruct fields) p (VTable obj) s = Stored s' (Some e) ->
              exists i f ft name x v v',
                nth_error fields i = Some (f, ft) /\ nth_error vs i = Some v
                /\ wire_name fmt f = Some name /\ tbl_lookup name obj = Some x
                /\ setValue fmt ft v x = Decoded v' (Some e))).
Proof.
  split.
  - intros fs Hp. rewrite (setValue_at_struct _ _ _ _ _ _ Hp).
    split; [|split].
    + apply set_fields_at_absent.
    + intros s' err i f ft. apply set_fields_at_frame.
    + intros s' e H. apply set_fields_at_error in H. exact H.
  - intros vs Hp. rewrite (setValue_at_own_struct _ _ _ _ _ _ Hp).
    split; [|split].
    + intros Hall. rewrite set_fields_absent by exact Hall.
      cbn [store_at]. rewrite (sset_same _ _ _ Hp). reflexivity.
    + intros s' err H.
      apply store_at_stored in H as (x & Hd & ->).
      apply set_fields_frame in Hd as (vs' & -> & Hlen & Hsame).
      exists vs'. split; [|split; assumption].
      eapply sget_sset_same; eassumption.
    + intros s' e H.
      apply store_at_stored in H as (x & Hd & _).
      apply set_fields_error in Hd. exact Hd.
Qed.

Lemma missing_key_tolerance_witness :
  setValue_at JSONf (TStruct aliased_fields) [0] (VTable [("P", VInt 5)])
    (pointing_out_store 0 3)
  = Stored (pointing_out_store 0 5) None
  /\ sget (pointing_out_store 0 5) [0; 0] = sget (pointing_out_store 0 3) [0; 0]
  /\ setValue_at JSONf (TStruct sample_fields) [0] (VTable sample_table)
       (HStruct [HOwn (NStruct sample_values)])
     = Stored (HStruct [HOwn (NStruct [NString "new"; NInt 7; NInt 1; NBool true])])
         None
  /\ exists vs',
       sget (HStruct [HOwn (NStruct [NString "new"; NInt 7; NInt 1; NBool true])]) [0]
       = Some (HOwn (NStruct vs'))
       /\ nth_error vs' 1 = Some (NInt 7)
       /\ nth_error vs' 2 = Some (NInt 1)
       /\ nth_error vs' 3 = Some (NBool true).
Proof.
  split; [reflexivity|]. split; [|split; [reflexivity|]].
  - destruct (missing_key_tolerance JSONf aliased_fields [("P", VInt 5)]
                (pointing_out_store 0 3) [0]) as [Hrec _].
    destruct (Hrec _ eq_refl) as (_ & Hframe & _).
    exact (Hframe (pointing_out_store 0 5) None 0 _ _
             eq_refl eq_refl eq_refl eq_refl).
  - destruct (missing_key_tolerance JSONf sample_fields sample_table
                (HStruct [HOwn (NStruct sample_values)]) [0]) as [_ Hown].
    destruct (Hown _ eq_refl) as (_ & Hframe & _).
    destruct (Hframe
                (HStruct [HOwn (NStruct [NString "new"; NInt 7; NInt 1; NBool true])])
                None eq_refl) as (vs' & Hdst & _ & Hsame).
    exists vs'. split; [exact Hdst|].
    split; [|split].
    + exact (Hsame 1 _ _ eq_refl eq_refl).
    + exact (Hsame 2 _ _ eq_refl eq_refl).
    + exact (Hsame 3 _ _ eq_refl eq_refl).
Defined.

(** Against C8 as the specification states it, for every destination
    record: in [d] of [type T struct { B int; P *int }] with
    [d.P = &d.B], decoding the table of [{"P":5}] returns no error and
    leaves 5 in [d.B], whose key [B] is absent from the table. *)
Lemma absent_field_written_through_pointer :
  parses ("{" ++ q "P" ++ ":5}") (VTable [("P", VInt 5)])
  /\ untouched JSONf [("P", VInt 5)] (mkField "B" true []) = true
  /\ sget (aliased_store 0) [0; 0] = Some (HOwn (NInt 0))
  /\ setValue_at JSONf (TStruct aliased_fields) [0] (VTable [("P", VInt 5)])
       (aliased_store 0)
     = Stored (aliased_store 5) None
  /\ sget (aliased_store 5) [0; 0] = Some (HOwn (NInt 5)).
Proof.
  split; [|repeat split].
  unfold parses. eexists. vm_compute. reflexivity.
Qed.

(** X15. Into a destination record that no pointer refers into, and
    whose own pointers are the only way to their pointees (the record is
    held as a tree): a record decode that returns no error has written
    every field whose wire name the table holds: the field then holds
    what [setValue] makes of the table's value, starting from the value
    the field had (a nested record is merged, not replaced). *)
Theorem struct_decode_writes_present_fields (fmt : format)
  (fields : list (StructField * gtype)) (vs : list nval) (obj : table)
  (s s' : store) (p : path) :
  sget s p = Some (HOwn (NStruct vs)) ->
  setValue_at fmt (TStruct fields) p (VTable obj) s = Stored s' None ->
  exists vs', sget s' p = Some (HOwn (NStruct vs'))
    /\ forall i f ft v name x,
         nth_error fields i = Some (f, ft) -> nth_error vs i = Some v ->
         wire_name fmt f = Some name -> tbl_lookup name obj = Some x ->
         exists v', setValue fmt ft v x = Decoded v' None
                    /\ nth_error vs' i = Some v'.
Proof.
  intros Hp H. rewrite (setValue_at_own_struct _ _ _ _ _ _ Hp) in H.
  apply store_at_stored in H as (x & Hd & ->).
  apply set_fields_present in Hd as (vs' & -> & Hall).
  exists vs'. split; [|exact Hall].
  eapply sget_sset_same; eassumption.
Qed.

Lemma struct_decode_writes_present_fields_witness :
  sget (HStruct [HOwn (NStruct sample_values)]) [0]
  = Some (HOwn (NStruct sample_values))
  /\ setValue_at JSONf (TStruct sample_fields) [0] (VTable sample_table)
       (HStruct [HOwn (NStruct sample_values)])
     = Stored (HStruct [HOwn (NStruct [NString "new"; NInt 7; NInt 1; NBool true])])
         None
  /\ exists vs',
       sget (HStruct [HOwn (NStruct [NString "new"; NInt 7; NInt 1; NBool true])]) [0]
       = Some (HOwn (NStruct vs'))
       /\ forall i f ft v name x,
            nth_error sample_fields i = Some (f, ft) ->
            nth_error sample_values i = Some v ->
            wire_name JSONf f = Some name -> tbl_lookup name sample_table = Some x ->
            exists v', setValue JSONf ft v x = Decoded v' None
                       /\ nth_error vs' i = Some v'.
Proof.
  split; [reflexivity|]. split; [reflexivity|].
  apply (struct_decode_writes_present_fields JSONf sample_fields sample_values
           sample_table (HStruct [HOwn (NStruct sample_values)])
           (HStruct [HOwn (NStruct [NString "new"; NInt 7; NInt 1; NBool true])])
           [0]).
  - reflexivity.
  - reflexivity.
Defined.

(** X16. Into a destination record that no pointer refers into, and
    whose own pointers are the only way to their pointees (the record is
    held as a tree): a record decode is not all-or-nothing. When it
    returns an error, the error is that of one field, the first that
    fails: the fields before it whose wire names the table holds have
    been written, the failing field holds what its own decode left, and
    the fields after it are as they were. *)
Theorem struct_decode_stops_at_first_error (fmt : format)
  (fields : list (StructField * gtype)) (vs : list nval) (obj : table)
  (s s' : store) (p : path) (e : error) :
  sget s p = Some (HOwn (NStruct vs)) ->
  setValue_at fmt (TStruct fields) p (VTable obj) s = Stored s' (Some e) ->
  exists i f ft name x v v' vs',
    sget s' p = Some (HOwn (NStruct vs'))
    /\ nth_error fields i = Some (f, ft) /\ nth_error vs i = Some v
    /\ wire_name fmt f = Some name /\ tbl_lookup name obj = Some x
    /\ setValue fmt ft v x = Decoded v' (Some e)
    /\ nth_error vs' i = Some v'
    /\ (forall j, i < j -> nth_error vs' j = nth_error vs j)
    /\ (forall j g gt w n y,
          j < i -> nth_error fields j = Some (g, gt) -> nth_error vs j = Some w ->
          wire_name fmt g = Some n -> tbl_lookup n obj = Some y ->
          exists w', setValue fmt gt w y = Decoded w' None
                     /\ nth_error vs' j = Some w').
Proof.
  intros Hp H. rewrite (setValue_at_own_struct _ _ _ _ _ _ Hp) in H.
  apply store_at_stored in H as (y & Hd & ->).
  apply set_fields_stops in Hd
    as (i & f & ft & name & x & v & v' & vs' & -> & Hrest).
  exists i, f, ft, name, x, v, v', vs'. split; [|exact Hrest].
  eapply sget_sset_same; eassumption.
Qed.

Lemma struct_decode_stops_at_first_error_witness :
  sget (HStruct [HOwn (zero (TStruct (test_fields "json")))]) [0]
  = Some (HOwn (NStruct [NString ""; NInt 0; NFloat Go.float_zero; NBool false;
                         NSlice None; NStruct [NString ""]]))
  /\ setValue_at JSONf (TStruct (test_fields "json")) [0]
       (VTable [("string", VString "s"); ("integer", VString "no");
                ("boolean", VBool true)])
       (HStruct [HOwn (zero (TStruct (test_fields "json")))])
     = Stored (HStruct [HOwn (NStruct [NString "s"; NInt 0; NFloat Go.float_zero;
                                       NBool false; NSlice None;
                                       NStruct [NString ""]])])
         (Some (TypeMismatch "int"))
  /\ exists i f ft name x v v' vs',
       sget (HStruct [HOwn (NStruct [NString "s"; NInt 0; NFloat Go.float_zero;
                                     NBool false; NSlice None;
                                     NStruct [NString ""]])]) [0]
       = Some (HOwn (NStruct vs'))
       /\ nth_error (test_fields "json") i = Some (f, ft)
       /\ nth_error [NString ""; NInt 0; NFloat Go.float_zero; NBool false;
                     NSlice None; NStruct [NString ""]] i = Some v
       /\ wire_name JSONf f = Some name
       /\ tbl_lookup name [("string", VString "s"); ("integer", VString "no");
                           ("boolean", VBool true)] = Some x
       /\ setValue JSONf ft v x = Decoded v' (Some (TypeMismatch "int"))
       /\ nth_error vs' i = Some v'
       /\ (forall j, i < j ->
             nth_error vs' j
             = nth_error [NString ""; NInt 0; NFloat Go.float_zero; NBool false;
                          NSlice None; NStruct [NString ""]] j)
       /\ (forall j g gt w n y,
             j < i -> nth_error (test_fields "json") j = Some (g, gt) ->
             nth_error [NString ""; NInt 0; NFloat Go.float_zero; NBool false;
                        NSlice None; NStruct [NString ""]] j = Some w ->
             wire_name JSONf g = Some n ->
             tbl_lookup n [("string", VString "s"); ("integer", VString "no");
                           ("boolean", VBool true)] = Some y ->
             exists w', setValue JSONf gt w y = Decoded w' None
                        /\ nth_error vs' j = Some w').
Proof.
  split; [reflexivity|]. split; [reflexivity|].
  apply (struct_decode_stops_at_first_error JSONf (test_fields "json")
           [NString ""; NInt 0; NFloat Go.float_zero; NBool false;
            NSlice None; NStruct [NString ""]]
           [("string", VString "s"); ("integer", VString "no");
            ("boolean", VBool true)]
           (HStruct [HOwn (zero (TStruct (test_fields "json")))])
           (HStruct [HOwn (NStruct [NString "s"; NInt 0; NFloat Go.float_zero;
                                    NBool false; NSlice None;
                                    NStruct [NString ""]])])
           [0]).
  - reflexivity.
  - reflexivity.
Defined.

(** Both need the record to be held as a tree. With [d.P = &d.B], the
    table of [{"B":1,"P":5}] leaves 5 in [d.B], not the 1 decoded from
    its own key. *)
Example pointer_field_overwrites_present_field :
  setValue_at JSONf (TStruct aliased_fields) [0]
    (VTable [("B", VInt 1); ("P", VInt 5)]) (aliased_store 0)
  = Stored (aliased_store 5) None.
Proof. reflexivity. Qed.

(** In [struct { P *int; C int; B int }] with [d.P = &d.B], the table
    of [{"P":5,"C":"no"}] fails at [C], and [B], which comes after the
    failing field, has been changed. *)
Example failed_decode_has_written_a_later_field :
  setValue_at JSONf
    (TStruct [ (mkField "P" true [], TPtr (TInt KInt));
               (mkField "C" true [], TInt KInt);
               (mkField "B" true [], TInt KInt) ]) [0]
    (VTable [("P", VInt 5); ("C", VString "no")])
    (HStruct [ HStruct [ HRef [0; 2]; HOwn (NInt 0); HOwn (NInt 0) ] ])
  = Stored (HStruct [ HStruct [ HRef [0; 2]; HOwn (NInt 0); HOwn (NInt 5) ] ])
      (Some (TypeMismatch "int")).
Proof. reflexivity. Qed.
